(** * zbxtpltools: verification of the template synchronisation helpers

    Shallow embedding of [zbxtpltools/zbxtpltools.py] and of the two entry
    scripts [zbxtpl2git.py] and [zbxgit2tpl.py].

    - [Resolver]: [resolve_dependencies] on finite maps of finite sets.
    - [Store]: the same function on an explicit object store, to talk about
      what the call does to the caller's dictionary.
    - [Narrator]: [construct_commit_msg] and the [os.path] functions it calls.
    - [Git]: [git_commit_and_push] on a small repository state.
    - [Zabbix]: [zabbix_import_templates], [zabbix_remove_templates] and the
      part of [zbxgit2tpl.main] that drives them.
    - [Exporter]: [zabbix_get_and_export_templates] and [export_template] on
      a working tree of files, with [os.path.normpath].
    - [Merge]: [merge_templates] on the four lists of an export file.
    - [Config]: [find_file] and the regular expression of [GIT_USER].
    - [GitClone]: the branch handling of [git_clone_repo]. *)

From Stdlib Require Import ZArith Ascii Lia DecimalString.
From stdpp Require Import base option list gmap sets strings relations.

(* ===================================================================== *)
(** * The dependency resolver *)
(* ===================================================================== *)

Module Resolver.

(** A Python set of template names. *)
Abbreviation names := (gset string).
(** The dictionary [deplist]: template name -> names it depends on. *)
Abbreviation depmap := (gmap string (gset string)).

(** [set(i for v in d.values() for i in v)] *)
Definition all_values (d : depmap) : names :=
  ⋃ ((map_to_list d).*2).

(** [set(i for v in d.values() for i in v) - set(d.keys())] *)
Definition values_not_keys (d : depmap) : names :=
  all_values d ∖ dom d.

(** [(k for k, v in d.items() if not v)] *)
Definition keys_without_value (d : depmap) : names :=
  dom (filter (fun kv => kv.2 = ∅) d).

(** The set [t] of one round of the loop:
<<
    t = set(i for v in d.values() for i in v)-set(d.keys())
    t.update(k for k, v in d.items() if not v)
>> *)
Definition wave (d : depmap) : names :=
  values_not_keys d ∪ keys_without_value d.

(** [dict(((k, v-t) for k, v in d.items() if v))] *)
Definition cleanup (d : depmap) (t : names) : depmap :=
  (fun v => v ∖ t) <$> filter (fun kv => kv.2 ≠ ∅) d.

(** The [while d:] loop; [r] is the list being appended to.  The loop has no
    bound in the source, so the model takes the number of rounds it may still
    run and answers [None] when that number is used up with [d] non-empty. *)
Fixpoint resolve_loop (fuel : nat) (d : depmap) (r : list names)
  : option (list names) :=
  if decide (d = ∅) then Some r
  else match fuel with
       | O => None
       | S fuel' =>
           let t := wave d in
           resolve_loop fuel' (cleanup d t) (r ++ [t])
       end.

(** [resolve_dependencies(deplist)].  The first line of the source copies the
    dictionary and its sets; on values that copy is the identity (the copy as
    an operation on the store is in module [Store]). *)
Definition resolve_dependencies (fuel : nat) (deplist : depmap)
  : option (list names) :=
  let d := (fun v : names => v) <$> deplist in
  resolve_loop fuel d [].

(** ** Graph vocabulary used by the statements *)

(** [edge m a b]: key [a] lists [b] among its dependencies. *)
Definition edge (m : depmap) (a b : string) : Prop :=
  ∃ v, m !! a = Some v ∧ b ∈ v.

(** A cycle: some name reaches itself along dependency edges.  Every name on
    such a path has an outgoing edge, so the cycle runs through keys only. *)
Definition cyclic (m : depmap) : Prop := ∃ k, tc (edge m) k k.
Definition acyclic (m : depmap) : Prop := ∀ k, ¬ tc (edge m) k k.

(** Names that occur in some dependency set and are not keys. *)
Definition external (m : depmap) (x : string) : Prop :=
  (∃ k v, m !! k = Some v ∧ x ∈ v) ∧ m !! x = None.

(** The elements of all waves, wave after wave. *)
Definition flatten (r : list names) : list string :=
  concat (elements <$> r).

(** Sample mappings of the scenarios. *)
Definition deps_ABC : depmap :=
  <["A" := {["B"]}]> (<["B" := ∅]> (<["C" := {["B"]}]> ∅)).
Definition deps_cycle : depmap :=
  <["A" := {["B"]}]> (<["B" := {["A"]}]> ∅).
Definition deps_AX : depmap := <["A" := {["X"]}]> ∅.

End Resolver.


(* ===================================================================== *)
(** * The resolver on an object store *)
(* ===================================================================== *)

(** Python dictionaries, sets and lists are objects reached through
    references, and a callee can change an object its caller still holds.
    This module runs [resolve_dependencies] on a store of such objects: every
    [set(...)], [dict(...)] and [[]] allocates, [t.update] and [r.append]
    write in place. *)
Module Store.
Import Resolver.

Abbreviation loc := positive.

Inductive obj :=
  | OSet (s : gset string)            (* a set of names *)
  | ODict (d : gmap string loc)       (* a dict: name -> reference to the value *)
  | OList (l : list loc).             (* a list of references *)

Abbreviation heap := (gmap loc obj).

(** Computations on the store that may fail to deliver a value (an exception
    of the interpreter, or the loop still running when the rounds are used
    up). *)
Definition M (A : Type) : Type := heap → option (A * heap).

Definition ret {A} (a : A) : M A := fun h => Some (a, h).
Definition raise {A} : M A := fun _ => None.
Definition bind {A B} (m : M A) (k : A → M B) : M B :=
  fun h => match m h with
           | Some (a, h') => k a h'
           | None => None
           end.

Notation "'do' x <~ m ;; k" := (bind m (fun x => k))
  (at level 10, x name, m at level 99, k at level 200, only parsing).

(** A new object at an unused reference. *)
Definition alloc (o : obj) : M loc :=
  fun h => let l := fresh (dom h) in Some (l, <[l := o]> h).

Definition load (l : loc) : M obj :=
  fun h => match h !! l with
           | Some o => Some (o, h)
           | None => None
           end.

(** Overwrite the object at [l] (an in-place change, seen by everyone who
    holds [l]). *)
Definition store (l : loc) (o : obj) : M unit :=
  fun h => match h !! l with
           | Some _ => Some (tt, <[l := o]> h)
           | None => None
           end.

(** The names one gets by iterating over an object, as [set(x)] does: the
    elements of a set, the keys of a dict.  (The importer passes [{}], an
    empty dict, for a template without dependencies.) *)
Definition iter_names (o : obj) : M (gset string) :=
  match o with
  | OSet s => ret s
  | ODict d => ret (dom d)
  | OList [] => ret ∅
  | OList (_ :: _) => raise
  end.

Definition as_set (o : obj) : M (gset string) :=
  match o with
  | OSet s => ret s
  | _ => raise
  end.

Definition as_dict (o : obj) : M (gmap string loc) :=
  match o with
  | ODict d => ret d
  | _ => raise
  end.

Definition as_list (o : obj) : M (list loc) :=
  match o with
  | OList l => ret l
  | _ => raise
  end.

(** [[(k, conv(d[k])) for k in d]]: follow the reference of every item. *)
Fixpoint load_items (conv : obj → M (gset string)) (krs : list (string * loc))
  : M (list (string * gset string)) :=
  match krs with
  | [] => ret []
  | (k, l) :: krs' =>
      do o <~ load l ;;
      do s <~ conv o ;;
      do rest <~ load_items conv krs' ;;
      ret ((k, s) :: rest)
  end.

(** A new set object for every item. *)
Fixpoint new_sets (kvs : list (string * gset string))
  : M (list (string * loc)) :=
  match kvs with
  | [] => ret []
  | (k, s) :: kvs' =>
      do l <~ alloc (OSet s) ;;
      do rest <~ new_sets kvs' ;;
      ret ((k, l) :: rest)
  end.

(** [t.update(s)] *)
Definition set_update (t : loc) (s : gset string) : M unit :=
  do o <~ load t ;;
  do s0 <~ as_set o ;;
  store t (OSet (s0 ∪ s)).

(** [r.append(t)] *)
Definition list_append (r t : loc) : M unit :=
  do o <~ load r ;;
  do l <~ as_list o ;;
  store r (OList (l ++ [t])).

(** The [while d:] loop; [d] and [r] are the references held by the local
    variables of the same names. *)
Fixpoint resolve_loop (fuel : nat) (d r : loc) : M loc :=
  do od <~ load d ;;
  do dm <~ as_dict od ;;
  if decide (dm = ∅) then ret r
  else match fuel with
       | O => raise
       | S fuel' =>
           do items <~ load_items as_set (map_to_list dm) ;;
           let dv : depmap := list_to_map items in
           do t <~ alloc (OSet (values_not_keys dv)) ;;
           do _ <~ set_update t (keys_without_value dv) ;;
           do _ <~ list_append r t ;;
           do ot <~ load t ;;
           do tv <~ as_set ot ;;
           do new <~ new_sets (map_to_list (cleanup dv tv)) ;;
           do d' <~ alloc (ODict (list_to_map new)) ;;
           resolve_loop fuel' d' r
       end.

(** [resolve_dependencies(deplist)]; the result is the reference of the list
    [r]. *)
Definition resolve_dependencies (fuel : nat) (deplist : loc) : M loc :=
  do odl <~ load deplist ;;
  do dl <~ as_dict odl ;;
  do items <~ load_items iter_names (map_to_list dl) ;;
  do new <~ new_sets items ;;
  do d <~ alloc (ODict (list_to_map new)) ;;
  do r <~ alloc (OList []) ;;
  resolve_loop fuel d r.

(** What a caller reads back from such a dictionary reference, and from the
    list of waves. *)
Definition read_depmap (l : loc) (h : heap) : option depmap :=
  match (do od <~ load l ;; do dm <~ as_dict od ;;
         load_items iter_names (map_to_list dm)) h with
  | Some (items, _) => Some (list_to_map items)
  | None => None
  end.

Fixpoint read_sets (ls : list loc) (h : heap) : option (list names) :=
  match ls with
  | [] => Some []
  | l :: ls' =>
      match h !! l, read_sets ls' h with
      | Some (OSet s), Some rest => Some (s :: rest)
      | _, _ => None
      end
  end.

Definition read_waves (r : loc) (h : heap) : option (list names) :=
  match h !! r with
  | Some (OList ls) => read_sets ls h
  | _ => None
  end.

(** ** Vocabulary for comparing the store with the values *)

(** The set at a reference, when there is one. *)
Definition set_at (h : heap) (l : loc) : option (gset string) :=
  match h !! l with
  | Some (OSet s) => Some s
  | _ => None
  end.

Definition deref (h : heap) (l : loc) : gset string := default ∅ (set_at h l).

(** Every set of [h] is still in [h'], unchanged. *)
Definition sets_kept (h h' : heap) : Prop :=
  ∀ l s, h !! l = Some (OSet s) → h' !! l = Some (OSet s).

(** All values of the dictionary are references to sets. *)
Definition all_sets (h : heap) (dm : gmap string loc) : Prop :=
  map_Forall (fun _ l => is_Some (set_at h l)) dm.

(** A caller's store: the dictionary [{A: {B}, B: {}, C: {B}}] at reference
    1, its three sets at 2, 3 and 4. *)
Definition heap_ABC : heap :=
  <[1%positive := ODict (<["A" := 2%positive]>
                          (<["B" := 3%positive]> (<["C" := 4%positive]> ∅)))]>
  (<[2%positive := OSet {["B"]}]>
  (<[3%positive := OSet ∅]>
  (<[4%positive := OSet {["B"]}]> ∅))).

End Store.

(* ===================================================================== *)
(** * Python values shared by the modules below *)
(* ===================================================================== *)

Module Python.

(** Keys of the dictionaries that raise [KeyError]: status flags (integers)
    and template names (strings). *)
Inductive key :=
  | KInt (z : Z)
  | KStr (s : string).

(** The exceptions that can leave the modelled functions. *)
Inductive exn :=
  | KeyError (k : key)
  | ValueError
  | AttributeError
  | FileNotFoundError (path : string)
  | OtherError (msg : string).

(** Result of a call that returns a value or raises. *)
Inductive result (A : Type) :=
  | Ok (a : A)
  | Raise (e : exn).
Arguments Ok {A} a.
Arguments Raise {A} e.

Definition rbind {A B} (m : result A) (k : A → result B) : result B :=
  match m with
  | Ok a => k a
  | Raise e => Raise e
  end.

Notation "'try' x <~ m ;; k" := (rbind m (fun x => k))
  (at level 10, x name, m at level 99, k at level 200, only parsing).

(** ["\n"] *)
Definition nl : string := String (ascii_of_nat 10) "".

(** ["%d" % n] for a length. *)
Definition decimal (n : nat) : string :=
  NilZero.string_of_uint (Nat.to_uint n).

(** [s[count:]] *)
Fixpoint string_drop (count : nat) (s : string) : string :=
  match count, s with
  | S k, String _ s' => string_drop k s'
  | _, _ => s
  end.

(** [s.replace(old, new)] for a non-empty [old]: occurrences are replaced
    from left to right and do not overlap.  [skip] counts the characters of
    a matched occurrence that are still to be passed over. *)
Fixpoint replace_go (old new : string) (skip : nat) (s : string) : string :=
  match s with
  | EmptyString => EmptyString
  | String c s' =>
      match skip with
      | S k => replace_go old new k s'
      | O =>
          if Stdlib.Strings.String.prefix old s
          then new +:+ replace_go old new (Stdlib.Strings.String.length old - 1) s'
          else String c (replace_go old new 0 s')
      end
  end.

Definition replace (old new s : string) : string := replace_go old new 0 s.

(** ** [posixpath] *)

Definition sep : ascii := "/"%char.

Definition is_sep (c : ascii) : bool := Ascii.eqb c sep.

(** [p.rfind('/') + 1]: the position just after the last separator, 0 when
    there is none. *)
Fixpoint rfind_sep_succ (p : string) : nat :=
  match p with
  | EmptyString => 0
  | String c p' =>
      match rfind_sep_succ p' with
      | O => if is_sep c then 1 else 0
      | S i => S (S i)
      end
  end.

(** [os.path.basename(p)]: [i = p.rfind(sep) + 1; return p[i:]] *)
Definition basename (p : string) : string :=
  string_drop (rfind_sep_succ p) p.

(** [p.split('/')] *)
Fixpoint split_sep (p : string) : list string :=
  match p with
  | EmptyString => [EmptyString]
  | String c p' =>
      if is_sep c then EmptyString :: split_sep p'
      else match split_sep p' with
           | x :: xs => String c x :: xs
           | [] => [String c EmptyString]
           end
  end.

(** [p[:1] == sep] *)
Definition isabs (p : string) : bool :=
  match p with
  | String c _ => is_sep c
  | EmptyString => false
  end.

(** [sep.join(components)] *)
Definition join_sep (components : list string) : string :=
  Stdlib.Strings.String.concat (String sep EmptyString) components.

(** Comparison of lists of strings, as Python compares lists: element by
    element, a proper prefix being smaller. *)
Fixpoint list_compare (a b : list string) : comparison :=
  match a, b with
  | [], [] => Eq
  | [], _ :: _ => Lt
  | _ :: _, [] => Gt
  | x :: a', y :: b' =>
      match Stdlib.Strings.String.compare x y with
      | Eq => list_compare a' b'
      | c => c
      end
  end.

(** [min(l)] and [max(l)] for a non-empty list given as head and tail: the
    first smallest, respectively first largest, element. *)
Definition list_min (x : list string) (l : list (list string)) : list string :=
  foldl (fun best y => match list_compare y best with Lt => y | _ => best end) x l.
Definition list_max (x : list string) (l : list (list string)) : list string :=
  foldl (fun best y => match list_compare y best with Gt => y | _ => best end) x l.

(** The loop of [commonpath] over [s1]:
<<
    common = s1
    for i, c in enumerate(s1):
        if c != s2[i]:
            common = s1[:i]
            break
>>
    ([s1] is the minimum and [s2] the maximum, so [s2[i]] exists whenever the
    loop gets to [i].) *)
Fixpoint common_prefix (s1 s2 : list string) : list string :=
  match s1, s2 with
  | c1 :: r1, c2 :: r2 =>
      if decide (c1 = c2) then c1 :: common_prefix r1 r2 else []
  | _, _ => []
  end.

(** [os.path.commonpath(paths)] of [posixpath].  It raises [ValueError] on an
    empty sequence and when absolute and relative paths are mixed; empty
    components and ["."] are dropped before comparing. *)
Definition commonpath (paths : list string) : result string :=
  match paths with
  | [] => Raise ValueError
  | p0 :: _ =>
      if forallb (fun p => Bool.eqb (isabs p) (isabs p0)) paths then
        let split_paths :=
          (fun p => filter (fun c => c ≠ EmptyString ∧ c ≠ ".") (split_sep p))
            <$> paths in
        match split_paths with
        | [] => Raise ValueError
        | s :: rest =>
            let s1 := list_min s rest in
            let s2 := list_max s rest in
            let common := common_prefix s1 s2 in
            let prefix := if isabs p0 then String sep EmptyString else EmptyString in
            Ok (prefix +:+ join_sep common)
        end
      else Raise ValueError
  end.

(** [os.path.join(a, b)] for two arguments. *)
Definition path_join (a b : string) : string :=
  if isabs b then b
  else if decide (a = EmptyString) then b
  else if is_sep (default sep (last (Stdlib.Strings.String.list_ascii_of_string a)))
       then a +:+ b
       else a +:+ String sep EmptyString +:+ b.

End Python.

(* ===================================================================== *)
(** * The commit message *)
(* ===================================================================== *)

Module Narrator.
Import Python.

(** The status flags of [pygit2] used by the tools (values of libgit2's
    [git_status_t]). *)
Definition GIT_STATUS_CURRENT : Z := 0.
Definition GIT_STATUS_INDEX_NEW : Z := 1.
Definition GIT_STATUS_INDEX_MODIFIED : Z := 2.
Definition GIT_STATUS_INDEX_DELETED : Z := 4.
Definition GIT_STATUS_INDEX_RENAMED : Z := 8.
Definition GIT_STATUS_INDEX_TYPECHANGE : Z := 16.
Definition GIT_STATUS_WT_NEW : Z := 128.
Definition GIT_STATUS_WT_MODIFIED : Z := 256.
Definition GIT_STATUS_WT_DELETED : Z := 512.

(** A change: [(filepath, flags)]. *)
Abbreviation change := (string * Z)%type.

(** The two dictionaries of [construct_commit_msg]. *)
Definition status_str : gmap Z string :=
  <[GIT_STATUS_INDEX_NEW := "Added "]>
  (<[GIT_STATUS_INDEX_MODIFIED := "Updated "]>
  (<[GIT_STATUS_INDEX_DELETED := "Removed "]> ∅)).

Definition status_str2 : gmap Z string :=
  <[GIT_STATUS_INDEX_NEW := " additions"]>
  (<[GIT_STATUS_INDEX_MODIFIED := " updates"]>
  (<[GIT_STATUS_INDEX_DELETED := " removals"]> ∅)).

(** [d[k]] *)
Definition getitem (d : gmap Z string) (k : Z) : result string :=
  match d !! k with
  | Some s => Ok s
  | None => Raise (KeyError (KInt k))
  end.

(** [len(set([flags for filepath, flags in changes])) == 1] *)
Definition one_status (changes : list change) : bool :=
  bool_decide (size (list_to_set (changes.*2) : gset Z) = 1).

(** The text of one change:
    [status_str[c[1]] + os.path.basename(c[0]).replace('.json', '') + '\n'] *)
Definition change_line (c : change) : result string :=
  try verb <~ getitem status_str c.2 ;;
  Ok (verb +:+ replace ".json" "" (basename c.1) +:+ nl).

(** [for c in changes: commit_msg += ...] *)
Fixpoint change_lines (changes : list change) (commit_msg : string)
  : result string :=
  match changes with
  | [] => Ok commit_msg
  | c :: rest =>
      try line <~ change_line c ;;
      change_lines rest (commit_msg +:+ line)
  end.

(** The headline, built when [len(changes) > 1]. *)
Definition headline (changes : list change) : result string :=
  match changes with
  | c0 :: _ :: _ =>
      let commit_msg := "Performed " +:+ decimal (length changes) in
      try word <~ (if one_status changes then getitem status_str2 c0.2
                   else Ok " changes") ;;
      let commit_msg := commit_msg +:+ word in
      try common_path <~ commonpath (changes.*1) ;;
      Ok (commit_msg +:+
          (if decide (common_path = "") then nl +:+ nl
           else " in " +:+ common_path +:+ " hostgroup" +:+ nl +:+ nl))
  | _ => Ok ""
  end.

(** [construct_commit_msg(changes)] *)
Definition construct_commit_msg (changes : list change) : result string :=
  try commit_msg <~ headline changes ;;
  change_lines changes commit_msg.

(** Absolute and relative paths occur together. *)
Definition mixed (paths : list string) : Prop :=
  ∃ p q, p ∈ paths ∧ q ∈ paths ∧ isabs p ≠ isabs q.

(** The change lists of the scenarios. *)
Definition two_additions : list change :=
  [("path/a.json", GIT_STATUS_INDEX_NEW); ("path/b.json", GIT_STATUS_INDEX_NEW)].
Definition additions_apart : list change :=
  [("a/x.json", GIT_STATUS_INDEX_NEW); ("b/y.json", GIT_STATUS_INDEX_NEW)].

End Narrator.

(* ===================================================================== *)
(** * Commit and push *)
(* ===================================================================== *)

Module Git.
Import Python Narrator.

(** A commit is named by its position in the list of commits. *)
Abbreviation oid := nat.

Record commit := {
  message : string;
  tree : nat;
  parents : list oid }.

(** What [git_commit_and_push] sees and changes of a [pygit2] repository. *)
Record repository := {
  status : list change;     (* [repo.status().items()] when the call starts *)
  index_tree : nat;         (* the tree [repo.index.write_tree()] returns *)
  branch : option oid;      (* [repo.lookup_branch(GIT_BRANCH)]: its target,
                               [None] when there is no such branch *)
  commits : list commit;    (* the history, oldest first *)
  origin : option oid }.    (* the branch on the remote [origin] *)

(** [repo.create_commit('refs/heads/<branch>', ..., message, tree, parents)]:
    a new commit, and the branch moved to it. *)
Definition create_commit (repo : repository) (msg : string) (treeoid : nat)
    (ps : list oid) : repository :=
  {| status := status repo;
     index_tree := index_tree repo;
     branch := Some (length (commits repo));
     commits := commits repo ++ [ {| message := msg; tree := treeoid; parents := ps |} ];
     origin := origin repo |}.

(** [repo.remotes['origin'].push(...)]; whether the remote accepts the push
    is not decided by this program. *)
Definition push (accepted : bool) (repo : repository)
  : repository * option exn :=
  if accepted
  then ({| status := status repo; index_tree := index_tree repo;
           branch := branch repo; commits := commits repo;
           origin := branch repo |}, None)
  else (repo, Some (OtherError "push rejected")).

(** [[(filepath, flags) for filepath, flags in repo.status().items()
      if flags != pygit2.GIT_STATUS_CURRENT]] *)
Definition pending_changes (repo : repository) : list change :=
  filter (fun c => c.2 ≠ GIT_STATUS_CURRENT) (status repo).

(** [git_commit_and_push(repo)]: the repository afterwards, and the exception
    if one was raised. *)
Definition git_commit_and_push (accepted : bool) (repo : repository)
  : repository * option exn :=
  let changes := pending_changes repo in
  match changes with
  | [] => (repo, None)
  | _ :: _ =>
      match construct_commit_msg changes with
      | Raise e => (repo, Some e)
      | Ok commit_msg =>
          match branch repo with
          | None => (repo, Some AttributeError)
          | Some target =>
              let treeoid := index_tree repo in
              push accepted (create_commit repo commit_msg treeoid [target])
          end
      end
  end.

(** A repository with one earlier commit and the given status. *)
Definition repo_with (st : list change) : repository :=
  {| status := st; index_tree := 7; branch := Some 0;
     commits := [ {| message := "Initial commit"; tree := 0; parents := [] |} ];
     origin := Some 0 |}.

End Git.

(* ===================================================================== *)
(** * Import into and removal from Zabbix *)
(* ===================================================================== *)

Module Zabbix.
Import Python Narrator Resolver.

(** A template of an export file: [template['name']] and, when the key is
    present, [template['templates']], the list of dictionaries of the linked
    templates. *)
Record template := {
  tpl_name : string;
  tpl_templates : option (list (list (string * string))) }.

(** The files: path -> [template_json['zabbix_export']['templates']]. *)
Abbreviation file_system := (gmap string (list template)).

(** Calls to the Zabbix API, and the log records of interest. *)
Inductive api_call :=
  | TemplateGet (names : list string)
  | TemplateDelete (ids : list string)
  | ConfImport (file : string).

Inductive log_record :=
  | InfoImporting (file : string)
  | WarningSkipping (k : key)
  | ErrorFailed (tpl : string) (err : exn)
  | DebugDeleting (names : list string).

Section Api.

(** The remote system and its operations are not part of this repository:
    [ZAPI.confimport] with the file it is given, and [ZAPI.template.get] by
    names, which answers with pairs of template id and name. *)
Variable remote : Type.
Variable confimport : string → list template → remote → remote * option exn.
Variable template_get : list string → remote → list (string * string).

Record world := {
  zabbix : remote;
  calls : list api_call;
  log : list log_record }.

Definition add_log (rec : log_record) (w : world) : world :=
  {| zabbix := zabbix w; calls := calls w; log := log w ++ [rec] |}.

Variable fs : file_system.

(** [import_template(filename)]: read the file, hand it to
    [ZAPI.confimport]. *)
Definition import_template (filename : string) (w : world)
  : world * option exn :=
  match fs !! filename with
  | None => (w, Some (FileNotFoundError filename))
  | Some tpls =>
      let '(z, e) := confimport filename tpls (zabbix w) in
      ({| zabbix := z; calls := calls w ++ [ConfImport filename];
          log := log w |}, e)
  end.

(** [{v for d in template['templates'] for k, v in d.items() if k == 'name'}] *)
Definition linked_names (ds : list (list (string * string))) : gset string :=
  list_to_set (concat ((fun d => (filter (fun kv => kv.1 = "name") d).*2) <$> ds)).

(** The body of [for template in template_json['zabbix_export']['templates']]. *)
Definition add_template (file : string)
    (acc : gmap string string * depmap) (t : template)
  : gmap string string * depmap :=
  let '(filepaths, dependencies) := acc in
  (<[tpl_name t := file]> filepaths,
   <[tpl_name t := match tpl_templates t with
                   | Some ds => linked_names ds
                   | None => ∅
                   end]> dependencies).

(** "Read template files and build dependency map" *)
Fixpoint read_templates (template_files : list string)
    (acc : gmap string string * depmap)
  : result (gmap string string * depmap) :=
  match template_files with
  | [] => Ok acc
  | f :: rest =>
      match fs !! f with
      | None => Raise (FileNotFoundError f)
      | Some tpls => read_templates rest (foldl (add_template f) acc tpls)
      end
  end.

(** The body of the import loop, with its two [except] clauses. *)
Definition import_one (filepaths : gmap string string) (tpl : string)
    (w : world) : world :=
  match filepaths !! tpl with
  | None => add_log (WarningSkipping (KStr tpl)) w
  | Some file =>
      match import_template file (add_log (InfoImporting file) w) with
      | (w', None) => w'
      | (w', Some (KeyError k)) => add_log (WarningSkipping k) w'
      | (w', Some e) => add_log (ErrorFailed tpl e) w'
      end
  end.

(** [for templates in import_order: for template in templates: ...] *)
Definition import_wave (filepaths : gmap string string) (templates : list string)
    (w : world) : world :=
  foldl (fun w tpl => import_one filepaths tpl w) w templates.

Definition import_waves (filepaths : gmap string string)
    (import_order : list (list string)) (w : world) : world :=
  foldl (fun w templates => import_wave filepaths templates w) w import_order.

(** [zabbix_import_templates(template_files)].  [None]: the resolver is still
    running after [fuel] rounds. *)
Definition zabbix_import_templates (fuel : nat) (template_files : list string)
    (w : world) : option (world * option exn) :=
  match read_templates template_files (∅, ∅) with
  | Raise e => Some (w, Some e)
  | Ok (filepaths, dependencies) =>
      match resolve_dependencies fuel dependencies with
      | None => None
      | Some import_order =>
          Some (import_waves filepaths (elements <$> import_order) w, None)
      end
  end.

(** "Build list of template names" *)
Fixpoint read_names (template_files : list string) (acc : list (string * string))
  : result (list (string * string)) :=
  match template_files with
  | [] => Ok acc
  | f :: rest =>
      match fs !! f with
      | None => Raise (FileNotFoundError f)
      | Some tpls =>
          read_names rest
            (foldl (fun acc t =>
                      if decide (tpl_name t ∈ acc.*1)
                      then (fun kv => if decide (kv.1 = tpl_name t)
                                      then (kv.1, f) else kv) <$> acc
                      else acc ++ [(tpl_name t, f)]) acc tpls)
      end
  end.

(** [zabbix_remove_templates(template_files)].  After the names are read the
    source calls [ZAPI.template.get] with them, logs "Deleting templates ...
    from Zabbix", and ends there: the call of [ZAPI.template.delete] on the
    template ids is the last line of the function and is commented out. *)
Definition zabbix_remove_templates (template_files : list string) (w : world)
  : world * option exn :=
  match read_names template_files [] with
  | Raise e => (w, Some e)
  | Ok templates =>
      let names := templates.*1 in
      let templateinfo := template_get names (zabbix w) in
      ({| zabbix := zabbix w;
          calls := calls w ++ [TemplateGet names];
          log := log w ++ [DebugDeleting (templateinfo.*2)] |}, None)
  end.

End Api.

Arguments zabbix {remote} w.
Arguments calls {remote} w.
Arguments log {remote} w.
Arguments add_log {remote} rec w.


(** ** The part of [zbxgit2tpl.main] after the status has been taken *)

Section Apply.

Variable remote : Type.
Variable confimport : string → list template → remote → remote * option exn.
Variable template_get : list string → remote → list (string * string).

(** [exported]: the files of the working tree after the export from Zabbix;
    [committed]: the files after [repo.reset(..., GIT_RESET_HARD)]. *)
Definition apply_changes (fuel : nat) (export_path : string)
    (changes : list change) (exported committed : file_system)
    (w : world remote) : option (world remote * option exn) :=
  match changes with
  | [] => Some (w, None)
  | _ :: _ =>
      let templates_to_remove :=
        (fun c => path_join export_path c.1)
          <$> filter (fun c => c.2 = GIT_STATUS_WT_NEW) changes in
      let '(w1, e1) :=
        match templates_to_remove with
        | [] => (w, None)
        | _ :: _ =>
            zabbix_remove_templates remote template_get exported
              templates_to_remove w
        end in
      match e1 with
      | Some e => Some (w1, Some e)
      | None =>
          let templates_to_import :=
            (fun c => path_join export_path c.1)
              <$> filter (fun c => c.2 = GIT_STATUS_WT_MODIFIED
                                   ∨ c.2 = GIT_STATUS_WT_DELETED) changes in
          match templates_to_import with
          | [] => Some (w1, None)
          | _ :: _ =>
              zabbix_import_templates remote confimport committed fuel
                templates_to_import w1
          end
      end
  end.

End Apply.

(** ** A small remote system for the examples *)

(** Template name -> template id. *)
Abbreviation simple_remote := (gmap string string).

Definition simple_confimport (file : string) (tpls : list template)
    (z : simple_remote) : simple_remote * option exn :=
  (foldl (fun z t => match z !! tpl_name t with
                     | Some _ => z
                     | None => <[tpl_name t := "id-" +:+ tpl_name t]> z
                     end) z tpls, None).

Definition simple_template_get (names : list string) (z : simple_remote)
  : list (string * string) :=
  omap (fun n => (fun id => (id, n)) <$> z !! n) names.

(** One template [T] on the remote system; its file was just exported and is
    not in the commit, so git flags it as new in the working tree. *)
Definition remote_T : simple_remote := <["T" := "10001"]> ∅.
Definition world_T : world simple_remote :=
  {| zabbix := remote_T; calls := []; log := [] |}.
Definition exported_T : file_system :=
  <["/tmp/repository/grp/T.json" :=
      [ {| tpl_name := "T"; tpl_templates := None |} ]]> ∅.
Definition changes_T : list change := [("grp/T.json", GIT_STATUS_WT_NEW)].

End Zabbix.

(* ===================================================================== *)
(** * Sample batches *)
(* ===================================================================== *)

Module Samples.
Import Python Narrator Resolver Zabbix.

(** Template [A] links template [B]; each is in a file of its own. *)
Definition tpl_A : template :=
  {| tpl_name := "A"; tpl_templates := Some [[("name", "B")]] |}.
Definition files_AB : list string := ["/r/A.json"; "/r/B.json"].
Definition filepaths_AB : gmap string string :=
  <["A" := "/r/A.json"]> (<["B" := "/r/B.json"]> ∅).

(** [A] and [B] link each other. *)
Definition fs_loop : file_system :=
  <["/r/A.json" := [tpl_A]]>
  (<["/r/B.json" := [ {| tpl_name := "B";
                         tpl_templates := Some [[("name", "A")]] |} ]]> ∅).

Definition world0 : world simple_remote :=
  {| zabbix := ∅; calls := []; log := [] |}.

End Samples.


(* ===================================================================== *)
(** * Export from Zabbix *)
(* ===================================================================== *)

Module Exporter.
Import Python.

(** ** [os.path.normpath] of [posixpath] *)

(** The body of the loop over the components:
<<
    if comp in (empty, dot): continue
    if (comp != dotdot or (not initial_slashes and not new_comps) or
            (new_comps and new_comps[-1] == dotdot)):
        new_comps.append(comp)
    elif new_comps:
        new_comps.pop()
>> *)
Definition normpath_step (initial_slashes : nat) (new_comps : list string)
    (comp : string) : list string :=
  if decide (comp = "" ∨ comp = ".") then new_comps
  else if decide (comp ≠ ".." ∨ (initial_slashes = 0 ∧ new_comps = [])
                  ∨ (new_comps ≠ [] ∧ last new_comps = Some ".."))
       then new_comps ++ [comp]
       else if decide (new_comps ≠ [])
            then take (length new_comps - 1) new_comps
            else new_comps.

Definition normpath (path : string) : string :=
  if decide (path = "") then "."
  else
    let initial_slashes :=
      if Stdlib.Strings.String.prefix "/" path
      then if Stdlib.Strings.String.prefix "//" path
              && negb (Stdlib.Strings.String.prefix "///" path)
           then 2 else 1
      else 0 in
    let comps := foldl (normpath_step initial_slashes) [] (split_sep path) in
    let path' := join_sep comps in
    let path' :=
      match initial_slashes with
      | 0 => path'
      | 1 => "/" +:+ path'
      | _ => "//" +:+ path'
      end in
    if decide (path' = "") then "." else path'.

(** ** The templates and their files *)

(** An entry of [t['groups']], and a template as [ZAPI.template.get] answers
    it. *)
Record group := {
  groupid : string;
  group_name : string }.

Record remote_template := {
  templateid : string;
  template_name : string;
  groups : list group }.

(** An export: [template_json['zabbix_export']['date']] and everything
    else. *)
Record export_json := {
  date : string;
  body : string }.

(** The working tree: path -> the JSON written there. *)
Abbreviation tree := (gmap string export_json).

Section ExportRun.

(** [ZABBIX_TEMPLATE_EXPORT_GROUP] and [ZABBIX_TEMPLATE_ROOT_GROUP] of the
    configuration, and [ZAPI.configuration.export] of the remote system. *)
Variable EXPORT_GROUP : string.
Variable ROOT_GROUP : string.
Variable configuration_export : string → result export_json.

(** [export_template(template_id, filename)]: fetch the export, clear its
    date, write it.  (Directories are not part of [tree].) *)
Definition export_template (template_id filename : string) (wt : tree)
  : result tree :=
  try template_json <~ configuration_export template_id ;;
  Ok (<[filename := {| date := ""; body := body template_json |}]> wt).

(** The [filename] computed for template [t] and its group [g]:
<<
    os.path.join(path,
                 os.path.normpath(g['name'].replace(ROOT_GROUP + '/', '')),
                 t['name'] + '.json')
>> *)
Definition export_filename (path : string) (g : group) (t : remote_template)
  : string :=
  path_join
    (path_join path (normpath (replace (ROOT_GROUP +:+ "/") "" (group_name g))))
    (template_name t +:+ ".json").

(** The test on a group of a template. *)
Definition other_group (g : group) : Prop :=
  group_name g ≠ EXPORT_GROUP ∧ groupid g ≠ EXPORT_GROUP.

(** [for g in t['groups']: ...] *)
Fixpoint export_groups (path : string) (t : remote_template)
    (gs : list group) (wt : tree) : result tree :=
  match gs with
  | [] => Ok wt
  | g :: gs' =>
      if decide (other_group g)
      then try wt' <~ export_template (templateid t) (export_filename path g t) wt ;;
           export_groups path t gs' wt'
      else export_groups path t gs' wt
  end.

(** [for t in templates: ...] *)
Fixpoint export_all (path : string) (templates : list remote_template)
    (wt : tree) : result tree :=
  match templates with
  | [] => Ok wt
  | t :: ts =>
      try wt' <~ export_groups path t (groups t) wt ;;
      export_all path ts wt'
  end.

(** [zabbix_get_and_export_templates(path)], given the answer [templates] of
    [get_templates(ZABBIX_TEMPLATE_EXPORT_GROUP)]. *)
Definition zabbix_get_and_export_templates (path : string)
    (templates : list remote_template) (wt : tree) : result tree :=
  match templates with
  | [] => Raise (OtherError "No templates found in hostgroup")
  | _ :: _ => export_all path templates wt
  end.

(** [p] at [f] is the file of template [t] in group [g], as one successful
    [export_template] leaves it. *)
Definition written (path : string) (t : remote_template) (g : group)
    (f : string) (p : export_json) : Prop :=
  other_group g ∧ f = export_filename path g t ∧
  ∃ j, configuration_export (templateid t) = Ok j ∧
       p = {| date := ""; body := body j |}.

(** [f] holds a file with a cleared date. *)
Definition cleared (wt : tree) (f : string) : Prop :=
  ∃ p, wt !! f = Some p ∧ date p = "".

End ExportRun.

(** [old in s] *)
Fixpoint contains (old s : string) : bool :=
  Stdlib.Strings.String.prefix old s ||
  match s with
  | EmptyString => false
  | String _ s' => contains old s'
  end.

(** [s] contains a path separator. *)
Fixpoint has_sep (s : string) : bool :=
  match s with
  | EmptyString => false
  | String c s' => is_sep c || has_sep s'
  end.

(** ** Samples *)

Definition grp_export : group :=
  {| groupid := "12"; group_name := "Templates/Export" |}.

Definition grp_os : group :=
  {| groupid := "7"; group_name := "Templates/Operating systems" |}.

(** A template in the export group and in one more group, and one in the
    export group only. *)
Definition tpl_linux : remote_template :=
  {| templateid := "10001"; template_name := "Template OS Linux";
     groups := [grp_export; grp_os] |}.

Definition tpl_plain : remote_template :=
  {| templateid := "10002"; template_name := "Template Plain";
     groups := [grp_export] |}.

(** A remote system that answers every export, and one that refuses. *)
Definition export_ok (id : string) : result export_json :=
  Ok {| date := "2020-01-01T00:00:00Z"; body := id |}.

Definition export_fails (id : string) : result export_json :=
  Raise (OtherError "no permissions").

End Exporter.

(* ===================================================================== *)
(** * Merging export files *)
(* ===================================================================== *)

Module Merge.
Import Python.

Section Documents.

(** The JSON values in the lists; [in] compares them by equality. *)
Context {J : Type} `{EqDecision J}.

(** [template_json['zabbix_export']], as far as the merge looks at it: the
    four lists, each present or not. *)
Record export_doc := {
  doc_groups : option (list J);
  doc_templates : option (list J);
  doc_triggers : option (list J);
  doc_value_maps : option (list J) }.

(** What [json.load] gives for a file: a JSON object, either without the key
    [zabbix_export], and then empty ([{}]) or not, or with it.  (Files that
    hold no object, or sections that are no lists, are not modelled.) *)
Inductive json_doc :=
  | NoExport (empty : bool)
  | Export (d : export_doc).

(** The truth value of an object: only the empty one is false. *)
Definition truthy (j : json_doc) : bool :=
  match j with
  | NoExport empty => negb empty
  | Export _ => true
  end.

(** [j['zabbix_export']] *)
Definition zabbix_export (j : json_doc) : result export_doc :=
  match j with
  | Export d => Ok d
  | NoExport _ => Raise (KeyError (KStr "zabbix_export"))
  end.

(** [d[name]] *)
Definition section (name : string) (o : option (list J)) : result (list J) :=
  match o with
  | Some l => Ok l
  | None => Raise (KeyError (KStr name))
  end.

(** The [else] branch of the loop: the four [+=] in their order.  Each reads
    its target in [merged_template] first and then builds the right-hand
    side from [template_json]; the list is extended after that. *)
Definition merge_into (merged_template template_json : json_doc)
  : result json_doc :=
  try me <~ zabbix_export merged_template ;;
  try mg <~ section "groups" (doc_groups me) ;;
  try te <~ zabbix_export template_json ;;
  try tg <~ section "groups" (doc_groups te) ;;
  let groups' := mg ++ filter (fun g => g ∉ mg) tg in
  try mt <~ section "templates" (doc_templates me) ;;
  try tt <~ section "templates" (doc_templates te) ;;
  try mr <~ section "triggers" (doc_triggers me) ;;
  try tr <~ section "triggers" (doc_triggers te) ;;
  try mv <~ section "value_maps" (doc_value_maps me) ;;
  try tv <~ section "value_maps" (doc_value_maps te) ;;
  Ok (Export {| doc_groups := Some groups';
                doc_templates := Some (mt ++ tt);
                doc_triggers := Some (mr ++ tr);
                doc_value_maps := Some (mv ++ filter (fun v => v ∉ mv) tv) |}).

(** The loop of [merge_templates]; [merged_template] starts as [None].  The
    test [not merged_template] is true for [None] and for an empty object:
    both are replaced by the file just read. *)
Fixpoint merge_loop (fs : gmap string json_doc) (templates : list string)
    (merged_template : option json_doc) : result (option json_doc) :=
  match templates with
  | [] => Ok merged_template
  | t :: rest =>
      match fs !! t with
      | None => Raise (FileNotFoundError t)
      | Some template_json =>
          match merged_template with
          | None => merge_loop fs rest (Some template_json)
          | Some merged =>
              if truthy merged
              then try merged' <~ merge_into merged template_json ;;
                   merge_loop fs rest (Some merged')
              else merge_loop fs rest (Some template_json)
          end
      end
  end.

(** [merge_templates(templates, filename)]: what is written to [filename]
    ([None] is written as [null]). *)
Definition merge_templates (fs : gmap string json_doc)
    (templates : list string) : result (option json_doc) :=
  merge_loop fs templates None.

(** A document with all four lists. *)
Definition complete (d : export_doc) : Prop :=
  is_Some (doc_groups d) ∧ is_Some (doc_templates d) ∧
  is_Some (doc_triggers d) ∧ is_Some (doc_value_maps d).

(** The four sections by name, and a document without the section [name]. *)
Definition sections : list (string * (export_doc → option (list J))) :=
  [("groups", doc_groups); ("templates", doc_templates);
   ("triggers", doc_triggers); ("value_maps", doc_value_maps)].

Definition lacks (d : export_doc) (name : string) : Prop :=
  ∃ f, (name, f) ∈ sections ∧ f d = None.

(** [x] is in the list of section [f] of [d]. *)
Definition in_section (f : export_doc → option (list J)) (d : export_doc)
    (x : J) : Prop :=
  ∃ l, f d = Some l ∧ x ∈ l.

End Documents.

Arguments export_doc J : clear implicits.
Arguments json_doc J : clear implicits.

(** Two export files that share the group [g1]; a third without the triggers
    and value_maps sections; an empty object. *)
Definition doc_one : export_doc string :=
  {| doc_groups := Some ["g1"]; doc_templates := Some ["t1"];
     doc_triggers := Some ["r1"]; doc_value_maps := Some [] |}.
Definition doc_two : export_doc string :=
  {| doc_groups := Some ["g1"; "g2"]; doc_templates := Some ["t2"];
     doc_triggers := Some []; doc_value_maps := Some ["v1"] |}.
Definition doc_bare : export_doc string :=
  {| doc_groups := Some ["g1"]; doc_templates := Some ["t3"];
     doc_triggers := None; doc_value_maps := None |}.
Definition fs_docs : gmap string (json_doc string) :=
  <["one.json" := Export doc_one]> (<["two.json" := Export doc_two]>
  (<["bare.json" := Export doc_bare]> (<["empty.json" := NoExport true]> ∅))).

End Merge.

(* ===================================================================== *)
(** * Looking for a file, and the user of the git URL *)
(* ===================================================================== *)

Module Config.
Import Python.

Section FindFile.

(** [os.path.isfile], [os.path.abspath] and the directory of the script,
    [os.path.dirname(os.path.realpath(__file__))]. *)
Variable isfile : string → bool.
Variable abspath : string → string.
Variable script_dir : string.

(** [find_file(path)]; the third test is on the joined path itself, a string,
    which is true when it is not empty. *)
Definition find_file (path : string) : result string :=
  if isfile path then Ok path
  else if isfile (abspath path) then Ok (abspath path)
  else if decide (path_join script_dir path ≠ "")
       then Ok (path_join script_dir path)
       else Raise (OtherError ("Unable to find file " +:+ path)).

End FindFile.

(** ** [re.search(r'(?:https?|ssh)://([^@?/:]+)', GIT_URL).group(1)] *)

(** [[^@?/:]] *)
Definition user_char (c : ascii) : bool :=
  negb (Ascii.eqb c "@" || Ascii.eqb c "?" || Ascii.eqb c "/" || Ascii.eqb c ":")%char.

(** The longest run of such characters at the start of [s]. *)
Fixpoint take_user (s : string) : string :=
  match s with
  | String c s' => if user_char c then String c (take_user s') else EmptyString
  | EmptyString => EmptyString
  end.

(** [s] without its prefix [p], when it starts with [p]. *)
Fixpoint strip_prefix (p s : string) : option string :=
  match p, s with
  | EmptyString, _ => Some s
  | String a p', String b s' =>
      if Ascii.eqb a b then strip_prefix p' s' else None
  | String _ _, EmptyString => None
  end.

(** One scheme at the start of [s], then [://], then at least one user
    character: the group. *)
Definition match_scheme (scheme s : string) : option string :=
  match strip_prefix (scheme +:+ "://") s with
  | Some rest =>
      let u := take_user rest in
      if decide (u = "") then None else Some u
  | None => None
  end.

(** The pattern matched at the start of [s]. *)
Definition match_here (s : string) : option string :=
  match match_scheme "https" s with
  | Some u => Some u
  | None =>
      match match_scheme "http" s with
      | Some u => Some u
      | None => match_scheme "ssh" s
      end
  end.

(** [re.search]: the match at the leftmost position that has one. *)
Fixpoint search (s : string) : option string :=
  match match_here s with
  | Some u => Some u
  | None =>
      match s with
      | EmptyString => None
      | String _ s' => search s'
      end
  end.

(** [GIT_USER]; without a match [re.search] gives [None], and [.group]
    raises. *)
Definition git_user (git_url : string) : result string :=
  match search git_url with
  | Some u => Ok u
  | None => Raise AttributeError
  end.

(** All characters of [s] are user characters. *)
Fixpoint all_user_chars (s : string) : bool :=
  match s with
  | EmptyString => true
  | String c s' => user_char c && all_user_chars s'
  end.

End Config.

(* ===================================================================== *)
(** * The clone and its branch *)
(* ===================================================================== *)

Module GitClone.
Import Python Narrator Git.

(** The tree that [repo.TreeBuilder().write()] gives: the empty one. *)
Definition empty_tree : nat := 0.

(** What [git_clone_repo] sees and changes of the repository that
    [pygit2.clone_repository] gives: the local branches and the
    remote-tracking branches, each by its name (such as [master] and
    [origin/master]) with the commit it points to, and the history. *)
Record clone := {
  local_branches : gmap string oid;
  remote_branches : gmap string oid;
  history : list commit }.

(** [repo.branches[name]] of [pygit2.repository.Branches(repo)]: the local
    branch of that name or else the remote-tracking branch of that name;
    [name in repo.branches] is whether there is one. *)
Definition branches_get (repo : clone) (name : string) : option oid :=
  match local_branches repo !! name with
  | Some b => Some b
  | None => remote_branches repo !! name
  end.

Section Clone.

(** [GIT_BRANCH] of the configuration. *)
Variable GIT_BRANCH : string.

(** [git_clone_repo(path)] after [pygit2.clone_repository] has given [repo]:
    make sure the branch is there, then check it out.  (The checkout changes
    HEAD and the working tree, which are not part of [clone]; the branch it
    looks up is there by then.) *)
Definition git_clone_repo (repo : clone) : clone :=
  match branches_get repo GIT_BRANCH with
  | Some _ => repo
  | None =>
      match branches_get repo ("origin/" +:+ GIT_BRANCH) with
      | None =>
          {| local_branches :=
               <[GIT_BRANCH := length (history repo)]> (local_branches repo);
             remote_branches := remote_branches repo;
             history := history repo ++
               [ {| message := "Initial commit"; tree := empty_tree;
                    parents := [] |} ] |}
      | Some target =>
          {| local_branches := <[GIT_BRANCH := target]> (local_branches repo);
             remote_branches := remote_branches repo;
             history := history repo |}
      end
  end.

(** The repository as [git_commit_and_push] sees it, once the export has
    been written and [repo.index.add_all()] has staged it: the status and
    the index tree of that moment; [repo.lookup_branch(GIT_BRANCH)] looks
    among the local branches only. *)
Definition staged (st : list change) (treeoid : nat) (repo : clone)
  : repository :=
  {| status := st; index_tree := treeoid;
     branch := local_branches repo !! GIT_BRANCH;
     commits := history repo;
     origin := remote_branches repo !! ("origin/" +:+ GIT_BRANCH) |}.

End Clone.

(** A clone of an empty remote repository, and a clone of a repository with
    one commit on [master]. *)
Definition empty_clone : clone :=
  {| local_branches := ∅; remote_branches := ∅; history := [] |}.

Definition master_clone : clone :=
  {| local_branches := <["master" := 0]> ∅;
     remote_branches := <["origin/master" := 0]> ∅;
     history := [ {| message := "Initial commit"; tree := 0; parents := [] |} ] |}.

End GitClone.


(* ===================================================================== *)
(** * Properties of the dependency resolver *)
(* ===================================================================== *)

Module ResolverProofs.
Import Resolver.

(** ** One round *)

Lemma elem_of_all_values (d : depmap) x :
  x ∈ all_values d ↔ ∃ k v, d !! k = Some v ∧ x ∈ v.
Proof.
  unfold all_values. rewrite elem_of_union_list. split.
  - intros (X & HX & Hx). apply list_elem_of_fmap in HX as ([k v] & -> & Hkv).
    apply elem_of_map_to_list in Hkv. eauto.
  - intros (k & v & Hk & Hx). exists v. split; [|done].
    apply list_elem_of_fmap. exists (k, v). split; [done|].
    by apply elem_of_map_to_list.
Qed.

Lemma elem_of_values_not_keys (d : depmap) x :
  x ∈ values_not_keys d ↔ external d x.
Proof.
  unfold values_not_keys, external.
  rewrite elem_of_difference, elem_of_all_values, not_elem_of_dom. done.
Qed.

Lemma elem_of_keys_without_value (d : depmap) k :
  k ∈ keys_without_value d ↔ d !! k = Some ∅.
Proof.
  unfold keys_without_value. rewrite elem_of_dom. split.
  - intros [v Hv]. apply map_lookup_filter_Some in Hv as [Hv Hp].
    simpl in Hp. by subst.
  - intros Hk. exists ∅. by apply map_lookup_filter_Some.
Qed.

Lemma elem_of_wave (d : depmap) x :
  x ∈ wave d ↔ external d x ∨ d !! x = Some ∅.
Proof.
  unfold wave.
  by rewrite elem_of_union, elem_of_values_not_keys, elem_of_keys_without_value.
Qed.

Lemma lookup_cleanup_Some (d : depmap) t k w :
  cleanup d t !! k = Some w ↔ ∃ v, d !! k = Some v ∧ v ≠ ∅ ∧ w = v ∖ t.
Proof.
  unfold cleanup. rewrite lookup_fmap_Some. split.
  - intros (v & <- & Hv). apply map_lookup_filter_Some in Hv as [Hv Hp]. eauto.
  - intros (v & Hv & Hne & ->). exists v. split; [done|].
    by apply map_lookup_filter_Some.
Qed.

Lemma lookup_cleanup_None (d : depmap) t k :
  cleanup d t !! k = None ↔ d !! k = None ∨ d !! k = Some ∅.
Proof.
  destruct (cleanup d t !! k) as [w|] eqn:Hc.
  - apply lookup_cleanup_Some in Hc as (v & Hv & Hne & ->).
    split; [done|]. intros [?|?]; congruence.
  - split; [|done]. intros _.
    destruct (d !! k) as [v|] eqn:Hv; [|by left].
    destruct (decide (v = ∅)) as [->|Hne]; [by right|].
    assert (cleanup d t !! k = Some (v ∖ t)) as Hs
      by (apply lookup_cleanup_Some; eauto).
    congruence.
Qed.

(** A key of [d] is in the wave exactly when its set is empty. *)
Lemma key_in_wave (d : depmap) k v :
  d !! k = Some v → k ∈ wave d ↔ v = ∅.
Proof.
  intros Hk. rewrite elem_of_wave. unfold external. split.
  - intros [[_ ?]|?]; congruence.
  - intros ->. by right.
Qed.

(** The wave and what is kept are disjoint ... *)
Lemma wave_not_kept (d : depmap) x :
  x ∈ wave d → cleanup d (wave d) !! x = None.
Proof.
  rewrite elem_of_wave, lookup_cleanup_None. unfold external.
  intros [[_ ?]|?]; auto.
Qed.

(** ... and together they are the keys and the external names of [d]. *)
Lemma wave_or_kept (d : depmap) x :
  x ∈ wave d ∨ is_Some (cleanup d (wave d) !! x) ↔
  is_Some (d !! x) ∨ external d x.
Proof.
  split.
  - intros [Hw|[w Hw]].
    + apply elem_of_wave in Hw as [?|?]; eauto.
    + apply lookup_cleanup_Some in Hw as (v & ? & _); eauto.
  - intros [[v Hv]|He].
    + destruct (decide (v = ∅)) as [->|Hne].
      * left. apply elem_of_wave. by right.
      * right. exists (v ∖ wave d). apply lookup_cleanup_Some. eauto.
    + left. apply elem_of_wave. by left.
Qed.

(** After one round every remaining dependency is a remaining key. *)
Lemma cleanup_closed (d : depmap) x :
  ¬ external (cleanup d (wave d)) x.
Proof.
  intros [(k & w & Hk & Hx) Hnone].
  apply lookup_cleanup_Some in Hk as (v & Hv & Hne & ->).
  apply elem_of_difference in Hx as [Hx Hnw].
  apply lookup_cleanup_None in Hnone as [Hn|He].
  - apply Hnw, elem_of_wave. left. split; eauto.
  - apply Hnw, elem_of_wave. by right.
Qed.

Lemma cleanup_size (d : depmap) t : size (cleanup d t) ≤ size d.
Proof.
  unfold cleanup. rewrite map_size_fmap.
  apply map_subseteq_size, map_filter_subseteq.
Qed.

(** A key with an empty set makes the dictionary shrink. *)
Lemma cleanup_size_lt (d : depmap) t k :
  d !! k = Some ∅ → size (cleanup d t) < size d.
Proof.
  intros Hk. unfold cleanup. rewrite map_size_fmap.
  rewrite <- !size_dom. apply subset_size.
  split.
  - apply subseteq_dom, map_filter_subseteq.
  - intros Hsub. assert (k ∈ dom d) as Hin by (apply elem_of_dom; eauto).
    apply Hsub, elem_of_dom in Hin as [v Hv].
    apply map_lookup_filter_Some in Hv as [Hv Hp]. simpl in Hp. congruence.
Qed.

(** ** The loop *)

Lemma resolve_loop_app fuel (d : depmap) r :
  resolve_loop fuel d r = (r ++.) <$> resolve_loop fuel d [].
Proof.
  revert d r. induction fuel as [|n IH]; intros d r; simpl.
  - destruct (decide (d = ∅)); simpl; [by rewrite app_nil_r|done].
  - destruct (decide (d = ∅)); simpl; [by rewrite app_nil_r|].
    rewrite (IH _ (r ++ _)), (IH _ [wave d]).
    destruct (resolve_loop n _ []); simpl; [|done].
    by rewrite <- app_assoc.
Qed.

Lemma resolve_loop_unfold fuel (d : depmap) ws :
  resolve_loop fuel d [] = Some ws ↔
  (d = ∅ ∧ ws = []) ∨
  (∃ n ws', fuel = S n ∧ d ≠ ∅ ∧
            resolve_loop n (cleanup d (wave d)) [] = Some ws' ∧
            ws = wave d :: ws').
Proof.
  destruct fuel as [|n]; simpl.
  - destruct (decide (d = ∅)); split.
    + intros [= <-]. by left.
    + intros [[_ ->]|(? & ? & ? & ? & _)]; done.
    + done.
    + intros [[? _]|(? & ? & ? & _)]; done.
  - destruct (decide (d = ∅)); split.
    + intros [= <-]. by left.
    + intros [[_ ->]|(? & ? & ? & ? & _)]; done.
    + rewrite resolve_loop_app. intros Hr.
      destruct (resolve_loop n _ []) as [ws'|] eqn:Hn; [|done].
      simpl in Hr. injection Hr as <-. right. by exists n, ws'.
    + intros [[? _]|(n' & ws' & [= <-] & _ & Hn & ->)]; [done|].
      rewrite resolve_loop_app, Hn. done.
Qed.

Lemma resolve_dependencies_loop fuel (m : depmap) :
  resolve_dependencies fuel m = resolve_loop fuel m [].
Proof. unfold resolve_dependencies. simpl. by rewrite map_fmap_id. Qed.

(** More fuel does not change a result. *)
Lemma resolve_loop_fuel_mono fuel fuel' (d : depmap) ws :
  resolve_loop fuel d [] = Some ws → fuel ≤ fuel' →
  resolve_loop fuel' d [] = Some ws.
Proof.
  revert fuel' d ws. induction fuel as [|n IH]; intros fuel' d ws Hr Hle.
  - apply resolve_loop_unfold in Hr as [[-> ->]|(? & ? & ? & _)]; [|done].
    apply resolve_loop_unfold. by left.
  - apply resolve_loop_unfold in Hr as [[-> ->]|(n' & ws' & [= <-] & Hne & Hn & ->)].
    + apply resolve_loop_unfold. by left.
    + destruct fuel' as [|m]; [lia|].
      apply resolve_loop_unfold. right. exists m, ws'.
      split_and!; try done. apply IH; [done|lia].
Qed.

(** ** What the waves contain *)

Lemma values_not_keys_cleanup (d : depmap) :
  values_not_keys (cleanup d (wave d)) = ∅.
Proof.
  apply set_eq. intros x. rewrite elem_of_values_not_keys.
  split; [|set_solver]. intros He. by apply cleanup_closed in He.
Qed.

Lemma values_not_keys_empty : values_not_keys (∅ : depmap) = ∅.
Proof.
  apply set_eq. intros x. rewrite elem_of_values_not_keys.
  split; [|set_solver]. intros [(k & v & Hk & _) _]. by rewrite lookup_empty in Hk.
Qed.

(** The waves, laid end to end, list every key and every external name of
    the dictionary once. *)
Lemma flatten_perm fuel (d : depmap) ws :
  resolve_loop fuel d [] = Some ws →
  flatten ws ≡ₚ elements (dom d ∪ values_not_keys d).
Proof.
  revert d ws. induction fuel as [|n IH]; intros d ws Hr;
    apply resolve_loop_unfold in Hr
      as [[-> ->]|(n' & ws' & Hfuel & Hne & Hn & ->)];
    rewrite ?dom_empty_L, ?values_not_keys_empty, ?union_empty_l_L,
      ?elements_empty; try done.
  injection Hfuel as <-. apply IH in Hn.
  rewrite values_not_keys_cleanup, union_empty_r_L in Hn.
  unfold flatten in *. simpl. rewrite Hn.
  rewrite <- elements_disj_union.
  - f_equiv. intros x.
    rewrite !elem_of_union, !elem_of_dom, elem_of_values_not_keys.
    apply wave_or_kept.
  - intros x Hw Hk. apply wave_not_kept in Hw.
    apply elem_of_dom in Hk as [? Hk]. congruence.
Qed.

Lemma elem_of_flatten (ws : list names) x :
  x ∈ flatten ws ↔ ∃ w, w ∈ ws ∧ x ∈ w.
Proof.
  unfold flatten. induction ws as [|w0 ws IH]; simpl.
  - split; [by intros ?%elem_of_nil|]. by intros (w & ?%elem_of_nil & _).
  - rewrite elem_of_app, IH, elem_of_elements. split.
    + intros [Hx|(w & Hw & Hx)].
      * exists w0. split; [apply list_elem_of_here|done].
      * exists w. split; [by apply list_elem_of_further|done].
    + intros (w & [->|Hw]%elem_of_cons & Hx); eauto.
Qed.

Lemma in_waves fuel (d : depmap) ws x :
  resolve_loop fuel d [] = Some ws →
  (∃ w, w ∈ ws ∧ x ∈ w) ↔ is_Some (d !! x) ∨ external d x.
Proof.
  intros Hr. rewrite <- elem_of_flatten, (flatten_perm _ _ _ Hr).
  by rewrite elem_of_elements, elem_of_union, elem_of_dom, elem_of_values_not_keys.
Qed.

(** Every dependency of a key sits in a strictly earlier wave. *)
Lemma waves_order fuel (d : depmap) ws i w k v x :
  resolve_loop fuel d [] = Some ws →
  ws !! i = Some w → k ∈ w → d !! k = Some v → x ∈ v →
  ∃ j w', j < i ∧ ws !! j = Some w' ∧ x ∈ w'.
Proof.
  revert d ws i w v. induction fuel as [|n IH]; intros d ws i w v Hr Hi Hk Hd Hx;
    apply resolve_loop_unfold in Hr
      as [[-> ->]|(n' & ws' & Hfuel & Hne & Hn & ->)]; try done.
  injection Hfuel as <-. destruct i as [|i]; simpl in Hi.
  - injection Hi as <-. apply (key_in_wave _ _ _ Hd) in Hk. set_solver.
  - assert (is_Some (cleanup d (wave d) !! k)) as [v' Hv'].
    { assert (is_Some (cleanup d (wave d) !! k) ∨ external (cleanup d (wave d)) k)
        as [?|He]; [|done|by apply cleanup_closed in He].
      apply (in_waves _ _ _ _ Hn). exists w. split; [|done].
      apply list_elem_of_lookup. eauto. }
    destruct (decide (x ∈ wave d)) as [Hin|Hout].
    + exists 0, (wave d). split_and!; [lia|done|done].
    + pose proof Hv' as Hv''.
      apply lookup_cleanup_Some in Hv'' as (v0 & Hv0 & _ & ->).
      assert (v0 = v) as -> by congruence.
      destruct (IH _ _ _ _ _ Hn Hi Hk Hv') as (j & w' & Hj & Hw' & Hxw'); [set_solver|].
      exists (S j), w'. split_and!; [lia|done|done].
Qed.

(** ** Termination on mappings without cycles *)

Lemma edge_cleanup (d : depmap) t a b :
  edge (cleanup d t) a b → edge d a b.
Proof.
  intros (w & Hw & Hb). apply lookup_cleanup_Some in Hw as (v & Hv & _ & ->).
  apply elem_of_difference in Hb as [Hb _]. by exists v.
Qed.

Lemma tc_edge_cleanup (d : depmap) t a b :
  tc (edge (cleanup d t)) a b → tc (edge d) a b.
Proof.
  induction 1 as [a b He|a b c He _ IH].
  - apply tc_once. by eapply edge_cleanup.
  - eapply tc_l; [by eapply edge_cleanup|done].
Qed.

Lemma acyclic_cleanup (d : depmap) t : acyclic d → acyclic (cleanup d t).
Proof. intros Hd k Hk. by apply (Hd k), (tc_edge_cleanup _ t). Qed.

Lemma tc_edge_target (d : depmap) a b :
  tc (edge d) a b → b ∈ all_values d.
Proof.
  induction 1 as [a b (v & Hv & Hb)|]; [|done].
  apply elem_of_all_values. eauto.
Qed.

(** In a non-empty dictionary without cycles whose dependencies are all keys,
    some key has no dependency at all. *)
Lemma closed_acyclic_leaf (d : depmap) :
  d ≠ ∅ → (∀ x, ¬ external d x) → acyclic d → ∃ k, d !! k = Some ∅.
Proof.
  intros Hne Hclosed Hacyc.
  destruct (decide (keys_without_value d = ∅)) as [He|Hk].
  2:{ apply set_choose_L in Hk as [k Hk]. exists k.
      by apply elem_of_keys_without_value. }
  exfalso. apply map_choose in Hne as (k0 & v0 & Hk0).
  assert (∀ x, sn (edge d) x) as Hsn.
  { intros x. apply tc_finite_sn; [exact Hacyc|].
    exists (elements (all_values d)). intros y Hy.
    apply elem_of_elements. by eapply tc_edge_target. }
  assert (∀ x, sn (edge d) x → is_Some (d !! x) → False) as Hno.
  { induction 1 as [x _ IH]. intros [v Hv].
    destruct (decide (v = ∅)) as [->|Hv0].
    { apply elem_of_keys_without_value in Hv. set_solver. }
    apply set_choose_L in Hv0 as [y Hy].
    apply (IH y); [by exists v|].
    destruct (d !! y) eqn:Hdy; [done|].
    exfalso. apply (Hclosed y). split; eauto. }
  apply (Hno k0); eauto.
Qed.

Lemma closed_acyclic_returns n (d : depmap) :
  size d ≤ n → (∀ x, ¬ external d x) → acyclic d →
  ∃ ws, resolve_loop n d [] = Some ws.
Proof.
  revert d. induction n as [|n IH]; intros d Hsize Hclosed Hacyc.
  - exists []. apply resolve_loop_unfold. left. split; [|done].
    apply map_size_empty_iff. lia.
  - destruct (decide (d = ∅)) as [->|Hne].
    { exists []. apply resolve_loop_unfold. by left. }
    destruct (closed_acyclic_leaf d Hne Hclosed Hacyc) as [k Hk].
    destruct (IH (cleanup d (wave d))) as [ws' Hws'].
    + pose proof (cleanup_size_lt d (wave d) k Hk). lia.
    + apply cleanup_closed.
    + by apply acyclic_cleanup.
    + exists (wave d :: ws'). apply resolve_loop_unfold. right. by exists n, ws'.
Qed.

(** The first round removes the external names, every later round removes at
    least one key: [size d + 1] rounds are enough. *)
Lemma acyclic_returns (d : depmap) :
  acyclic d → ∃ ws, resolve_loop (S (size d)) d [] = Some ws.
Proof.
  intros Hacyc. destruct (decide (d = ∅)) as [->|Hne].
  { exists []. apply resolve_loop_unfold. by left. }
  destruct (closed_acyclic_returns (size d) (cleanup d (wave d))) as [ws' Hws'].
  - apply cleanup_size.
  - apply cleanup_closed.
  - by apply acyclic_cleanup.
  - exists (wave d :: ws'). apply resolve_loop_unfold. right. by exists (size d), ws'.
Qed.

(** ** Mappings with a cycle *)

(** An edge into a name that lies on a cycle survives a round. *)
Lemma edge_kept (d : depmap) a b :
  edge d a b → tc (edge d) b b → edge (cleanup d (wave d)) a b.
Proof.
  intros (v & Hv & Hb) Hcyc. exists (v ∖ wave d). split.
  - apply lookup_cleanup_Some. exists v. split_and!; [done|set_solver|done].
  - apply elem_of_difference. split; [done|].
    rewrite elem_of_wave. unfold external.
    assert (∃ c, edge d b c) as (c & vb & Hvb & Hc).
    { inversion Hcyc; eauto. }
    intros [[_ ?]|?]; [congruence|]. set_solver.
Qed.

Lemma tc_edge_kept (d : depmap) a b :
  tc (edge d) a b → tc (edge d) b a → tc (edge (cleanup d (wave d))) a b.
Proof.
  induction 1 as [a b He|a c b He Hcb IH]; intros Hback.
  - apply tc_once, edge_kept; [done|]. by eapply tc_r.
  - eapply tc_l.
    + apply edge_kept; [done|]. eapply tc_transitive; [done|]. by eapply tc_r.
    + apply IH. by eapply tc_r.
Qed.

Lemma cyclic_cleanup (d : depmap) : cyclic d → cyclic (cleanup d (wave d)).
Proof. intros [k Hk]. exists k. by apply tc_edge_kept. Qed.

Lemma cyclic_nonempty (d : depmap) : cyclic d → d ≠ ∅.
Proof.
  intros [k Hk] ->.
  assert (∃ c, edge ∅ k c) as (c & v & Hv & _) by (inversion Hk; eauto).
  by rewrite lookup_empty in Hv.
Qed.

(** No number of rounds empties a dictionary that has a cycle. *)
Lemma cyclic_loop_never_returns fuel (d : depmap) r :
  cyclic d → resolve_loop fuel d r = None.
Proof.
  revert d r. induction fuel as [|n IH]; intros d r Hcyc; simpl;
    destruct (decide (d = ∅)) as [He|_];
    try (by apply cyclic_nonempty in Hcyc); try done.
  apply IH. by apply cyclic_cleanup.
Qed.

Lemma cyclic_never_returns fuel (m : depmap) :
  cyclic m → resolve_dependencies fuel m = None.
Proof. rewrite resolve_dependencies_loop. apply cyclic_loop_never_returns. Qed.

Lemma returns_acyclic fuel (m : depmap) r :
  resolve_dependencies fuel m = Some r → acyclic m.
Proof.
  intros Hr k Hk.
  rewrite (cyclic_never_returns fuel m) in Hr; [done|by exists k].
Qed.

Lemma deps_cycle_cyclic : cyclic deps_cycle.
Proof.
  exists "A". apply (tc_l _ "A" "B" "A"); [|apply tc_once].
  - exists {["B"]}. split; [reflexivity|set_solver].
  - exists {["A"]}. split; [reflexivity|set_solver].
Qed.

Lemma deps_AX_external : external deps_AX "X".
Proof.
  split; [|reflexivity]. exists "A", {["X"]}. split; [reflexivity|set_solver].
Qed.

Lemma deps_AX_waves fuel :
  2 ≤ fuel → resolve_dependencies fuel deps_AX = Some [ {["X"]}; {["A"]} ].
Proof.
  intros Hle. rewrite resolve_dependencies_loop.
  apply (resolve_loop_fuel_mono 2); [|done]. vm_compute. reflexivity.
Qed.

(** ** Statements about the resolver *)

(** C1 (the code does not do this).  The claim asks for termination with a
    CycleError on a mapping with a cycle confined to keys.  On the mapping
    [{A: {B}, B: {A}}] every round of [resolve_dependencies] finds nothing
    to remove, and no number of rounds makes the call return: there is
    neither a list of waves nor an error. *)
Theorem resolve_dependencies_cycle_no_result :
  cyclic deps_cycle ∧ ∀ fuel, resolve_dependencies fuel deps_cycle = None.
Proof.
  split; [apply deps_cycle_cyclic|].
  intros fuel. apply cyclic_never_returns, deps_cycle_cyclic.
Qed.

(** C2 as stated fails: [{A: {X}}] has no cycle, yet its waves [{X}], [{A}]
    laid end to end are not a permutation of its keys. *)
Lemma acyclic_waves_not_perm_of_keys :
  acyclic deps_AX ∧
  resolve_dependencies 2 deps_AX = Some [ {["X"]}; {["A"]} ] ∧
  ¬ flatten [ {["X"]}; {["A"]} ] ≡ₚ elements (dom deps_AX).
Proof.
  split_and!.
  - apply (returns_acyclic 2 _ _ (deps_AX_waves 2 (le_n 2))).
  - by apply deps_AX_waves.
  - intros Hp. apply Permutation_length in Hp. vm_compute in Hp. discriminate.
Qed.

(** C2 (amended).  For every dependency mapping with no cycles
    [resolve_dependencies] returns; the concatenation of its waves is a
    permutation of the keys together with the dependency names that are not
    keys; and for every key, each of its dependencies that is also a key
    appears in a wave with a strictly smaller index than the key's wave. *)
Theorem resolve_dependencies_acyclic (m : depmap) :
  acyclic m →
  ∃ r, resolve_dependencies (S (size m)) m = Some r ∧
       flatten r ≡ₚ elements (dom m ∪ values_not_keys m) ∧
       ∀ i w k v x,
         r !! i = Some w → k ∈ w → m !! k = Some v → x ∈ v → x ∈ dom m →
         ∃ j w', j < i ∧ r !! j = Some w' ∧ x ∈ w'.
Proof.
  intros Hacyc. destruct (acyclic_returns m Hacyc) as [r Hr].
  exists r. rewrite resolve_dependencies_loop. split_and!.
  - done.
  - by eapply flatten_perm.
  - intros i w k v x Hi Hk Hm Hx _. by eapply waves_order.
Qed.

(** The scenario [{A: {B}, B: {}, C: {B}}]: it has no cycle (the resolver
    returns on it), so the statement applies. *)
Lemma resolve_dependencies_acyclic_ABC :
  acyclic deps_ABC ∧
  ∃ r, resolve_dependencies (S (size deps_ABC)) deps_ABC = Some r ∧
       flatten r ≡ₚ elements (dom deps_ABC ∪ values_not_keys deps_ABC) ∧
       ∀ i w k v x,
         r !! i = Some w → k ∈ w → deps_ABC !! k = Some v → x ∈ v →
         x ∈ dom deps_ABC →
         ∃ j w', j < i ∧ r !! j = Some w' ∧ x ∈ w'.
Proof.
  assert (acyclic deps_ABC) as Hacyc.
  { apply (returns_acyclic 2 _ [ {["B"]}; {["A"; "C"]} ]). vm_compute. reflexivity. }
  split; [exact Hacyc|]. apply (resolve_dependencies_acyclic deps_ABC Hacyc).
Defined.

(** C3 as stated fails: in [{A: {X}}] the name [X] occurs only as a
    dependency, and it is emitted, as the first wave. *)
Lemma external_name_in_wave_AX :
  external deps_AX "X" ∧
  ∃ r, resolve_dependencies 2 deps_AX = Some r ∧
       (∃ w, w ∈ r ∧ "X" ∈ w) ∧ r ≠ [ {["A"]} ].
Proof.
  split; [apply deps_AX_external|].
  exists [ {["X"]}; {["A"]} ]. split_and!.
  - by apply deps_AX_waves.
  - exists {["X"]}. split; [apply list_elem_of_here|set_solver].
  - discriminate.
Qed.

(** C3 (amended).  A name that occurs only inside dependency sets and is not
    itself a key is emitted by [resolve_dependencies] in the first wave ("items
    without dep ... can be done right away") and in no later wave; in
    particular the mapping [{A: {X}}] with [X] not a key yields exactly the
    waves [[{X}, {A}]]. *)
Theorem external_names_first_wave :
  (∀ (m : depmap) fuel r x,
     resolve_dependencies fuel m = Some r → external m x →
     ∃ w rest, r = w :: rest ∧ x ∈ w ∧ ∀ w', w' ∈ rest → x ∉ w') ∧
  (∀ fuel, 2 ≤ fuel →
     resolve_dependencies fuel deps_AX = Some [ {["X"]}; {["A"]} ]).
Proof.
  split; [|apply deps_AX_waves].
  intros m fuel r x Hr Hext. rewrite resolve_dependencies_loop in Hr.
  apply resolve_loop_unfold in Hr
    as [[-> ->]|(n & ws' & -> & Hne & Hn & ->)].
  { destruct Hext as [(k & v & Hk & _) _]. by rewrite lookup_empty in Hk. }
  exists (wave m), ws'. split_and!; [done|by apply elem_of_wave; left|].
  intros w' Hw' Hx.
  assert (is_Some (cleanup m (wave m) !! x) ∨ external (cleanup m (wave m)) x)
    as [[v Hv]|He]; [|..|by apply cleanup_closed in He].
  { apply (in_waves _ _ _ _ Hn). eauto. }
  apply lookup_cleanup_Some in Hv as (v0 & Hv0 & _). destruct Hext as [_ ?]. congruence.
Qed.

(** On [{A: {X}}]: [X] is in the first wave and not in the second. *)
Lemma external_names_first_wave_AX :
  ∃ w rest, [ {["X"]}; {["A"]} ] = w :: rest ∧ "X" ∈ w ∧
            ∀ w' : names, w' ∈ rest → "X" ∉ w'.
Proof.
  apply (proj1 external_names_first_wave deps_AX 2 _ "X").
  - vm_compute. reflexivity.
  - split; [|reflexivity]. exists "A", {["X"]}. split; [reflexivity|].
    apply elem_of_singleton. reflexivity.
Defined.

End ResolverProofs.

(* ===================================================================== *)
(** * The resolver and the caller's objects *)
(* ===================================================================== *)

Module StoreProofs.
Import Resolver Store ResolverProofs.

Lemma bind_Some {A B} (m : M A) (k : A → M B) h b h' :
  bind m k h = Some (b, h') ↔ ∃ a h1, m h = Some (a, h1) ∧ k a h1 = Some (b, h').
Proof.
  unfold bind. destruct (m h) as [[a h1]|]; split.
  - intros Hk. by exists a, h1.
  - by intros (? & ? & [= <- <-] & ?).
  - done.
  - by intros (? & ? & ? & _).
Qed.

Lemma ret_Some {A} (a b : A) h h' : ret a h = Some (b, h') ↔ b = a ∧ h' = h.
Proof. unfold ret. split; [by intros [= <- <-]|by intros [-> ->]]. Qed.

Lemma load_Some l h o h' : load l h = Some (o, h') ↔ h !! l = Some o ∧ h' = h.
Proof.
  unfold load. destruct (h !! l) as [o'|]; split.
  - by intros [= <- <-].
  - by intros [[= <-] ->].
  - done.
  - by intros [? _].
Qed.

Lemma alloc_Some o h l h' :
  alloc o h = Some (l, h') ↔ l = fresh (dom h) ∧ h' = <[l := o]> h.
Proof. unfold alloc. split; [by intros [= <- <-]|by intros [-> ->]]. Qed.

Lemma store_Some l o h u h' :
  store l o h = Some (u, h') ↔ is_Some (h !! l) ∧ h' = <[l := o]> h.
Proof.
  unfold store. destruct (h !! l) as [o'|]; split.
  - intros [= <- <-]. eauto.
  - intros [_ ->]. by destruct u.
  - done.
  - by intros [[? ?] _].
Qed.

Lemma as_set_Some o h s h' : as_set o h = Some (s, h') ↔ o = OSet s ∧ h' = h.
Proof.
  destruct o; simpl; unfold raise; rewrite ?ret_Some; split;
    try done; try (by intros [? _]).
  - by intros [-> ->].
  - by intros [[= ->] ->].
Qed.

Lemma as_dict_Some o h d h' : as_dict o h = Some (d, h') ↔ o = ODict d ∧ h' = h.
Proof.
  destruct o; simpl; unfold raise; rewrite ?ret_Some; split;
    try done; try (by intros [? _]).
  - by intros [-> ->].
  - by intros [[= ->] ->].
Qed.

Lemma as_list_Some o h l h' : as_list o h = Some (l, h') ↔ o = OList l ∧ h' = h.
Proof.
  destruct o; simpl; unfold raise; rewrite ?ret_Some; split;
    try done; try (by intros [? _]).
  - by intros [-> ->].
  - by intros [[= ->] ->].
Qed.

Lemma iter_names_heap o h s h' : iter_names o h = Some (s, h') → h' = h.
Proof.
  destruct o as [?|?|[|??]]; simpl; unfold raise; try done;
    by intros [_ ->]%ret_Some.
Qed.

(** Reading does not change the store. *)
Lemma load_items_heap conv krs h items h' :
  (∀ o h s h', conv o h = Some (s, h') → h' = h) →
  load_items conv krs h = Some (items, h') → h' = h.
Proof.
  intros Hconv. revert items h'.
  induction krs as [|[k l] krs IH]; intros items h' Hr; simpl in Hr.
  - by apply ret_Some in Hr as [_ ->].
  - apply bind_Some in Hr as (o & h1 & [_ ->]%load_Some & Hr).
    apply bind_Some in Hr as (s & h2 & ->%Hconv & Hr).
    apply bind_Some in Hr as (rest & h3 & ->%IH & Hr).
    by apply ret_Some in Hr as [_ ->].
Qed.

(** ** The part of the store that was there before the call *)

Lemma alloc_frame (h0 : heap) o h l h' :
  alloc o h = Some (l, h') → h0 ⊆ h → h0 ⊆ h' ∧ h0 !! l = None.
Proof.
  intros [-> ->]%alloc_Some Hsub.
  assert (h !! fresh (dom h) = None) as Hfresh
    by apply not_elem_of_dom, is_fresh.
  split.
  - etrans; [done|]. by apply insert_subseteq.
  - by eapply lookup_weaken_None.
Qed.

Lemma store_frame (h0 : heap) l o h u h' :
  store l o h = Some (u, h') → h0 !! l = None → h0 ⊆ h → h0 ⊆ h'.
Proof.
  intros [_ ->]%store_Some Hl Hsub. by apply insert_subseteq_r.
Qed.

Lemma new_sets_frame (h0 : heap) kvs h new h' :
  new_sets kvs h = Some (new, h') → h0 ⊆ h → h0 ⊆ h'.
Proof.
  revert h new h'. induction kvs as [|[k s] kvs IH]; intros h new h' Hr Hsub;
    simpl in Hr.
  - by apply ret_Some in Hr as [_ ->].
  - apply bind_Some in Hr as (l & h1 & Hal & Hr).
    apply bind_Some in Hr as (rest & h2 & Hrec & Hr).
    apply ret_Some in Hr as [_ ->].
    apply (alloc_frame h0) in Hal as [Hsub1 _]; [|done]. by eapply IH.
Qed.

Lemma set_update_frame (h0 : heap) t s h u h' :
  set_update t s h = Some (u, h') → h0 !! t = None → h0 ⊆ h → h0 ⊆ h'.
Proof.
  unfold set_update. intros Hr Ht Hsub.
  apply bind_Some in Hr as (o & h1 & [_ ->]%load_Some & Hr).
  apply bind_Some in Hr as (s0 & h2 & [_ ->]%as_set_Some & Hr).
  by eapply store_frame.
Qed.

Lemma list_append_frame (h0 : heap) r t h u h' :
  list_append r t h = Some (u, h') → h0 !! r = None → h0 ⊆ h → h0 ⊆ h'.
Proof.
  unfold list_append. intros Hr Ht Hsub.
  apply bind_Some in Hr as (o & h1 & [_ ->]%load_Some & Hr).
  apply bind_Some in Hr as (l & h2 & [_ ->]%as_list_Some & Hr).
  by eapply store_frame.
Qed.

(** The loop writes to the list [r] and to objects it allocates itself. *)
Lemma resolve_loop_frame (h0 : heap) fuel d r h res h' :
  resolve_loop fuel d r h = Some (res, h') →
  h0 !! r = None → h0 ⊆ h → h0 ⊆ h'.
Proof.
  revert d h. induction fuel as [|n IH]; intros d h Hr Hr0 Hsub; simpl in Hr;
    apply bind_Some in Hr as (od & h1 & [_ ->]%load_Some & Hr);
    apply bind_Some in Hr as (dm & h2 & [_ ->]%as_dict_Some & Hr);
    destruct (decide (dm = ∅)) as [_|_];
    try (by apply ret_Some in Hr as [_ ->]); try done.
  apply bind_Some in Hr as (items & h3 & Hit & Hr).
  apply load_items_heap in Hit as ->; [|by intros ???? [_ ->]%as_set_Some].
  apply bind_Some in Hr as (t & h4 & Hal & Hr).
  apply (alloc_frame h0) in Hal as [Hsub4 Ht0]; [|done].
  apply bind_Some in Hr as (u1 & h5 & Hup & Hr).
  apply (set_update_frame h0) in Hup; [|done..].
  apply bind_Some in Hr as (u2 & h6 & Hap & Hr).
  apply (list_append_frame h0) in Hap; [|done..].
  apply bind_Some in Hr as (ot & h7 & [_ ->]%load_Some & Hr).
  apply bind_Some in Hr as (tv & h8 & [_ ->]%as_set_Some & Hr).
  apply bind_Some in Hr as (new & h9 & Hnew & Hr).
  apply (new_sets_frame h0) in Hnew; [|done].
  apply bind_Some in Hr as (d' & h10 & Hal' & Hr).
  apply (alloc_frame h0) in Hal' as [Hsub10 _]; [|done].
  by eapply IH.
Qed.

Lemma resolve_dependencies_frame fuel deplist (h : heap) r h' :
  resolve_dependencies fuel deplist h = Some (r, h') → h ⊆ h'.
Proof.
  unfold resolve_dependencies. intros Hr.
  apply bind_Some in Hr as (odl & h1 & [_ ->]%load_Some & Hr).
  apply bind_Some in Hr as (dl & h2 & [_ ->]%as_dict_Some & Hr).
  apply bind_Some in Hr as (items & h3 & Hit & Hr).
  apply load_items_heap in Hit as ->; [|apply iter_names_heap].
  apply bind_Some in Hr as (new & h4 & Hnew & Hr).
  apply (new_sets_frame h) in Hnew; [|done].
  apply bind_Some in Hr as (d & h5 & Hal & Hr).
  apply (alloc_frame h) in Hal as [Hsub5 _]; [|done].
  apply bind_Some in Hr as (r0 & h6 & Hal' & Hr).
  apply (alloc_frame h) in Hal' as [Hsub6 Hr0]; [|done].
  by eapply resolve_loop_frame.
Qed.

Lemma iter_names_any_heap o h s h1 (h' : heap) :
  iter_names o h = Some (s, h1) → iter_names o h' = Some (s, h').
Proof.
  destruct o as [?|?|[|??]]; simpl; unfold raise; try done;
    by intros [-> _]%ret_Some.
Qed.

Lemma load_items_weaken krs (h h' : heap) items h1 :
  load_items iter_names krs h = Some (items, h1) → h ⊆ h' →
  load_items iter_names krs h' = Some (items, h').
Proof.
  intros Hr Hsub. revert items h1 Hr.
  induction krs as [|[k l] krs IH]; intros items h1 Hr; simpl in *.
  - by apply ret_Some in Hr as [-> _].
  - apply bind_Some in Hr as (o & h2 & [Hl ->]%load_Some & Hr).
    apply bind_Some in Hr as (s & h3 & Hs & Hr).
    pose proof (iter_names_heap _ _ _ _ Hs) as ->.
    apply bind_Some in Hr as (rest & h4 & Hrest & Hr).
    apply ret_Some in Hr as [-> _].
    apply bind_Some. exists o, h'. split.
    { apply load_Some. split; [|done]. by eapply lookup_weaken. }
    apply bind_Some. exists s, h'. split; [by eapply iter_names_any_heap|].
    apply bind_Some. exists rest, h'. split; [by eapply IH|done].
Qed.

Lemma read_depmap_weaken l (h h' : heap) m :
  read_depmap l h = Some m → h ⊆ h' → read_depmap l h' = Some m.
Proof.
  unfold read_depmap. intros Hr Hsub.
  destruct (bind (load l) _ h) as [[items h1]|] eqn:Hb; [|done].
  injection Hr as <-.
  apply bind_Some in Hb as (od & h2 & [Hl ->]%load_Some & Hb).
  apply bind_Some in Hb as (dm & h3 & [-> ->]%as_dict_Some & Hb).
  assert (bind (load l) (fun od => bind (as_dict od)
            (fun dm => load_items iter_names (map_to_list dm))) h'
          = Some (items, h')) as ->; [|done].
  apply bind_Some. exists (ODict dm), h'. split.
  { apply load_Some. split; [|done]. by eapply lookup_weaken. }
  apply bind_Some. exists dm, h'. split; [done|].
  by eapply load_items_weaken.
Qed.

(** A call that returns has read the caller's dictionary. *)
Lemma resolve_dependencies_reads fuel deplist (h : heap) r h' :
  resolve_dependencies fuel deplist h = Some (r, h') →
  is_Some (read_depmap deplist h).
Proof.
  unfold resolve_dependencies, read_depmap. intros Hr.
  apply bind_Some in Hr as (odl & h1 & Hl & Hr).
  pose proof Hl as [_ ->]%load_Some.
  apply bind_Some in Hr as (dl & h2 & Hd & Hr).
  pose proof Hd as [_ ->]%as_dict_Some.
  apply bind_Some in Hr as (items & h3 & Hit & _).
  unfold bind at 1. rewrite Hl. unfold bind at 1. rewrite Hd. rewrite Hit. eauto.
Qed.

(** ** The store and the values *)

Lemma set_at_Some h l s : set_at h l = Some s ↔ h !! l = Some (OSet s).
Proof.
  unfold set_at. destruct (h !! l) as [[]|]; split; try done; by intros [= ->].
Qed.

Lemma sets_kept_refl h : sets_kept h h.
Proof. by intros l s. Qed.

Lemma sets_kept_trans h1 h2 h3 : sets_kept h1 h2 → sets_kept h2 h3 → sets_kept h1 h3.
Proof. intros H12 H23 l s Hl. by apply H23, H12. Qed.

Lemma sets_kept_subseteq (h h' : heap) : h ⊆ h' → sets_kept h h'.
Proof. intros Hsub l s Hl. by eapply lookup_weaken. Qed.

Lemma sets_kept_set_at h h' l s : sets_kept h h' → set_at h l = Some s → set_at h' l = Some s.
Proof. rewrite !set_at_Some. auto. Qed.

Lemma load_ok (h : heap) l o : h !! l = Some o → load l h = Some (o, h).
Proof. intros Hl. by apply load_Some. Qed.

(** Reading the items of a dictionary whose values are all sets. *)
Lemma load_items_as_set krs (h : heap) :
  Forall (fun kl => is_Some (set_at h kl.2)) krs →
  load_items as_set krs h = Some (prod_map id (deref h) <$> krs, h).
Proof.
  induction 1 as [|[k l] krs [s Hs] _ IH]; simpl; [done|].
  unfold bind at 1. rewrite (load_ok h l (OSet s)); [|by apply set_at_Some].
  unfold bind at 1. simpl. unfold ret at 1. unfold bind at 1. rewrite IH.
  unfold ret, deref. simpl in Hs. by rewrite Hs.
Qed.

Lemma new_sets_spec kvs (h : heap) :
  ∃ new h', new_sets kvs h = Some (new, h') ∧ h ⊆ h' ∧
            Forall (fun kl => is_Some (set_at h' kl.2)) new ∧
            prod_map id (deref h') <$> new = kvs.
Proof.
  revert h. induction kvs as [|[k s] kvs IH]; intros h; simpl.
  - exists [], h. done.
  - unfold bind at 1. unfold alloc at 1. simpl.
    set (l := fresh (dom h)). set (h1 := <[l := OSet s]> h).
    destruct (IH h1) as (new & h' & Hnew & Hsub & Hall & Hmap).
    unfold bind at 1. rewrite Hnew. unfold ret.
    assert (h !! l = None) as Hfresh by apply not_elem_of_dom, is_fresh.
    assert (h' !! l = Some (OSet s)) as Hl.
    { eapply lookup_weaken; [|done]. apply lookup_insert_eq. }
    exists ((k, l) :: new), h'. split_and!.
    + done.
    + etrans; [|done]. by apply insert_subseteq.
    + constructor; [|done]. simpl. exists s. by apply set_at_Some.
    + rewrite fmap_cons, Hmap. f_equal.
      unfold prod_map, deref, set_at. simpl. by rewrite Hl.
Qed.

Lemma read_sets_kept ls (h h' : heap) rv :
  sets_kept h h' → read_sets ls h = Some rv → read_sets ls h' = Some rv.
Proof.
  intros Hk. revert rv. induction ls as [|l ls IH]; intros rv; simpl; [done|].
  destruct (h !! l) as [[s| |]|] eqn:Hl; try done.
  destruct (read_sets ls h) as [rest|]; [|done].
  intros [= <-]. by rewrite (Hk l s Hl), (IH rest).
Qed.

Lemma read_sets_snoc ls (h : heap) rv l s :
  read_sets ls h = Some rv → h !! l = Some (OSet s) →
  read_sets (ls ++ [l]) h = Some (rv ++ [s]).
Proof.
  revert rv. induction ls as [|l0 ls IH]; intros rv; simpl.
  - intros [= <-] ->. done.
  - destruct (h !! l0) as [[s0| |]|]; try done.
    destruct (read_sets ls h) as [rest|]; [|done].
    intros [= <-] Hl. by rewrite (IH rest).
Qed.

Lemma all_sets_kept h h' dm : sets_kept h h' → all_sets h dm → all_sets h' dm.
Proof.
  intros Hk Hall k l Hkl. destruct (Hall k l Hkl) as [s Hs].
  exists s. by eapply sets_kept_set_at.
Qed.

Lemma deref_kept h h' dm :
  sets_kept h h' → all_sets h dm → deref h' <$> dm = deref h <$> dm.
Proof.
  intros Hk Hall. apply map_fmap_ext. intros k l Hkl.
  destruct (Hall k l Hkl) as [s Hs]. unfold deref.
  by rewrite Hs, (sets_kept_set_at _ _ _ _ Hk Hs).
Qed.

Lemma load_dict_items (h : heap) dm :
  all_sets h dm →
  ∃ items, load_items as_set (map_to_list dm) h = Some (items, h) ∧
           list_to_map items = deref h <$> dm.
Proof.
  intros Hall. eexists. split.
  - apply load_items_as_set. apply map_Forall_to_list in Hall.
    eapply Forall_impl; [exact Hall|]. by intros [k l].
  - by rewrite list_to_map_fmap, list_to_map_to_list.
Qed.

Lemma bind_step {A B} (m : M A) (k : A → M B) h a h1 :
  m h = Some (a, h1) → bind m k h = k a h1.
Proof. unfold bind. by intros ->. Qed.

(** One round on the store. *)
Lemma resolve_loop_round n d r (h : heap) dm ls :
  h !! d = Some (ODict dm) → dm ≠ ∅ → all_sets h dm →
  h !! r = Some (OList ls) →
  let dv : depmap := deref h <$> dm in
  ∃ d' dm' h',
    Store.resolve_loop (S n) d r h = Store.resolve_loop n d' r h' ∧
    sets_kept h h' ∧
    h' !! d' = Some (ODict dm') ∧ all_sets h' dm' ∧
    deref h' <$> dm' = cleanup dv (wave dv) ∧
    ∃ t, h' !! r = Some (OList (ls ++ [t])) ∧ h' !! t = Some (OSet (wave dv)).
Proof.
  intros Hd Hne Hall Hr dv.
  destruct (load_dict_items h dm Hall) as (items & Hitems & Hmap).
  set (t := fresh (dom h)).
  assert (h !! t = None) as Ht by apply not_elem_of_dom, is_fresh.
  assert (t ≠ r) as Htr by congruence.
  set (h6 := <[r := OList (ls ++ [t])]> (<[t := OSet (wave dv)]> h)).
  destruct (new_sets_spec (map_to_list (cleanup dv (wave dv))) h6)
    as (new & h9 & Hnew & Hsub & Hnewall & Hnewmap).
  set (d' := fresh (dom h9)).
  assert (h9 !! d' = None) as Hd' by apply not_elem_of_dom, is_fresh.
  set (h10 := <[d' := ODict (list_to_map new)]> h9).
  assert (h6 !! t = Some (OSet (wave dv))) as Ht6.
  { unfold h6. rewrite lookup_insert_ne by done. apply lookup_insert_eq. }
  assert (sets_kept h h6) as Hk6.
  { intros l s Hl. unfold h6.
    rewrite !lookup_insert_ne; [done|congruence..]. }
  assert (h9 ⊆ h10) as Hsub10 by (by apply insert_subseteq).
  assert (sets_kept h h10) as Hk10.
  { eapply sets_kept_trans; [exact Hk6|]. apply sets_kept_subseteq. by etrans. }
  exists d', (list_to_map new), h10. split_and!.
  - change (Store.resolve_loop (S n) d r h) with
      (bind (load d) (fun od => bind (as_dict od) (fun dm =>
         if decide (dm = ∅) then ret r
         else bind (load_items as_set (map_to_list dm)) (fun items =>
           let dv : depmap := list_to_map items in
           bind (alloc (OSet (values_not_keys dv))) (fun t =>
           bind (set_update t (keys_without_value dv)) (fun _ =>
           bind (list_append r t) (fun _ =>
           bind (load t) (fun ot => bind (as_set ot) (fun tv =>
           bind (new_sets (map_to_list (cleanup dv tv))) (fun new =>
           bind (alloc (ODict (list_to_map new))) (fun d' =>
           Store.resolve_loop n d' r)))))))))) h).
    rewrite (bind_step _ _ _ _ _ (load_ok _ _ _ Hd)).
    rewrite (bind_step (as_dict (ODict dm)) _ h dm h eq_refl).
    destruct (decide (dm = ∅)) as [?|_]; [done|].
    rewrite (bind_step _ _ _ _ _ Hitems). rewrite Hmap. fold dv. cbv zeta.
    rewrite (bind_step (alloc _) _ h t (<[t := OSet (values_not_keys dv)]> h) eq_refl).
    assert (set_update t (keys_without_value dv) (<[t := OSet (values_not_keys dv)]> h)
            = Some (tt, <[t := OSet (wave dv)]> h)) as Hup.
    { unfold set_update. set (h4 := <[t := OSet (values_not_keys dv)]> h).
      assert (h4 !! t = Some (OSet (values_not_keys dv))) as Ht4
        by apply lookup_insert_eq.
      rewrite (bind_step (load t) _ h4 _ h4 (load_ok _ _ _ Ht4)).
      rewrite (bind_step (as_set (OSet (values_not_keys dv))) _ h4
                 (values_not_keys dv) h4 eq_refl).
      unfold store. rewrite Ht4. unfold h4. by rewrite insert_insert_eq. }
    rewrite (bind_step _ _ _ _ _ Hup).
    assert (list_append r t (<[t := OSet (wave dv)]> h) = Some (tt, h6)) as Hap.
    { unfold list_append.
      assert ((<[t := OSet (wave dv)]> h) !! r = Some (OList ls)) as Hr'
        by (by rewrite lookup_insert_ne).
      rewrite (bind_step (load r) _ _ _ _ (load_ok _ _ _ Hr')).
      rewrite (bind_step (as_list (OList ls)) _ (<[t := OSet (wave dv)]> h)
                 ls (<[t := OSet (wave dv)]> h) eq_refl).
      unfold store. by rewrite Hr'. }
    rewrite (bind_step _ _ _ _ _ Hap).
    rewrite (bind_step _ _ _ _ _ (load_ok _ _ _ Ht6)).
    rewrite (bind_step (as_set (OSet (wave dv))) _ h6 (wave dv) h6 eq_refl).
    rewrite (bind_step _ _ _ _ _ Hnew).
    by rewrite (bind_step (alloc _) _ h9 d' h10 eq_refl).
  - done.
  - apply lookup_insert_eq.
  - intros k l Hkl. apply elem_of_list_to_map_2 in Hkl.
    rewrite Forall_forall in Hnewall. destruct (Hnewall _ Hkl) as [s Hs].
    exists s. simpl in Hs. eapply sets_kept_set_at; [|done].
    by apply sets_kept_subseteq.
  - rewrite <- list_to_map_fmap.
    assert (prod_map id (deref h10) <$> new = prod_map id (deref h9) <$> new) as ->.
    { apply Forall_fmap_ext_1. eapply Forall_impl; [exact Hnewall|].
      intros [k l] [s Hs]. simpl in *. unfold prod_map. simpl. f_equal.
      unfold deref. rewrite Hs.
      by rewrite (sets_kept_set_at h9 h10 l s (sets_kept_subseteq _ _ Hsub10) Hs). }
    by rewrite Hnewmap, list_to_map_to_list.
  - exists t. split.
    + apply (lookup_weaken h6); [apply lookup_insert_eq|by etrans].
    + apply (lookup_weaken h6); [exact Ht6|by etrans].
Qed.

Lemma store_loop_empty fuel d r (h : heap) :
  h !! d = Some (ODict ∅) → Store.resolve_loop fuel d r h = Some (r, h).
Proof.
  intros Hd. destruct fuel; simpl;
    rewrite (bind_step _ _ _ _ _ (load_ok _ _ _ Hd));
    by rewrite (bind_step (as_dict (ODict ∅)) _ h ∅ h eq_refl).
Qed.

Lemma store_loop_out_of_fuel d r (h : heap) dm :
  h !! d = Some (ODict dm) → dm ≠ ∅ → Store.resolve_loop 0 d r h = None.
Proof.
  intros Hd Hne. simpl. rewrite (bind_step _ _ _ _ _ (load_ok _ _ _ Hd)).
  rewrite (bind_step (as_dict (ODict dm)) _ h dm h eq_refl).
  by destruct (decide (dm = ∅)).
Qed.

Lemma value_loop_empty fuel rv : Resolver.resolve_loop fuel ∅ rv = Some rv.
Proof. by destruct fuel. Qed.

(** The loop on the store and the loop on values go round together. *)
Lemma resolve_loop_refines fuel d r (h : heap) dm ls rv :
  h !! d = Some (ODict dm) → all_sets h dm →
  h !! r = Some (OList ls) → read_sets ls h = Some rv →
  match Store.resolve_loop fuel d r h with
  | Some (r', h') =>
      r' = r ∧ Resolver.resolve_loop fuel (deref h <$> dm) rv = read_waves r h'
      ∧ is_Some (read_waves r h')
  | None => Resolver.resolve_loop fuel (deref h <$> dm) rv = None
  end.
Proof.
  revert d h dm ls rv. induction fuel as [|n IH]; intros d h dm ls rv Hd Hall Hr Hrv.
  - destruct (decide (dm = ∅)) as [->|Hne].
    + rewrite (store_loop_empty 0 d r h Hd), fmap_empty, value_loop_empty.
      unfold read_waves. rewrite Hr, Hrv. eauto.
    + rewrite (store_loop_out_of_fuel d r h dm Hd Hne). simpl.
      destruct (decide (deref h <$> dm = ∅)) as [He|_]; [|done].
      by apply fmap_empty_iff in He.
  - destruct (decide (dm = ∅)) as [->|Hne].
    + rewrite (store_loop_empty (S n) d r h Hd), fmap_empty, value_loop_empty.
      unfold read_waves. rewrite Hr, Hrv. eauto.
    + destruct (resolve_loop_round n d r h dm ls Hd Hne Hall Hr)
        as (d' & dm' & h' & -> & Hk & Hd' & Hall' & Hderef & t & Hr' & Ht').
      assert (Resolver.resolve_loop (S n) (deref h <$> dm) rv
              = Resolver.resolve_loop n (deref h' <$> dm')
                  (rv ++ [wave (deref h <$> dm)])) as ->.
      { simpl. destruct (decide (deref h <$> dm = ∅)) as [He|_].
        - by apply fmap_empty_iff in He.
        - by rewrite Hderef. }
      apply (IH d' h' dm' (ls ++ [t])); [done..|].
      apply read_sets_snoc; [|done]. by eapply read_sets_kept.
Qed.

(** The run on the store computes the waves of the run on values. *)
Lemma store_refines fuel deplist (h : heap) m :
  read_depmap deplist h = Some m →
  match Store.resolve_dependencies fuel deplist h with
  | Some (r, h') =>
      Resolver.resolve_dependencies fuel m = read_waves r h' ∧
      is_Some (read_waves r h')
  | None => Resolver.resolve_dependencies fuel m = None
  end.
Proof.
  unfold read_depmap. intros Hm.
  destruct (bind (load deplist) _ h) as [[items h1]|] eqn:Hb; [|done].
  injection Hm as <-.
  apply bind_Some in Hb as (odl & h2 & Hl & Hb).
  pose proof Hl as [_ ->]%load_Some.
  apply bind_Some in Hb as (dl & h3 & Hdl & Hitems).
  pose proof Hdl as [-> ->]%as_dict_Some.
  pose proof (load_items_heap _ _ _ _ _ iter_names_heap Hitems) as ->.
  destruct (new_sets_spec items h) as (new & h4 & Hnew & Hsub & Hall & Hmap).
  set (d := fresh (dom h4)). set (h5 := <[d := ODict (list_to_map new)]> h4).
  set (r := fresh (dom h5)). set (h6 := <[r := OList []]> h5).
  assert (h4 !! d = None) as Hd4 by apply not_elem_of_dom, is_fresh.
  assert (h5 !! r = None) as Hr5 by apply not_elem_of_dom, is_fresh.
  assert (h4 ⊆ h6) as Hsub6.
  { etrans; [by apply (insert_subseteq h4 d)|]. by apply insert_subseteq. }
  assert (Store.resolve_dependencies fuel deplist h
          = Store.resolve_loop fuel d r h6) as ->.
  { unfold Store.resolve_dependencies.
    rewrite (bind_step _ _ _ _ _ Hl).
    rewrite (bind_step (as_dict (ODict dl)) _ h dl h eq_refl).
    rewrite (bind_step _ _ _ _ _ Hitems), (bind_step _ _ _ _ _ Hnew).
    rewrite (bind_step (alloc _) _ h4 d h5 eq_refl).
    by rewrite (bind_step (alloc _) _ h5 r h6 eq_refl). }
  assert (all_sets h6 (list_to_map new)) as Hall6.
  { intros k l Hkl. apply elem_of_list_to_map_2 in Hkl.
    rewrite Forall_forall in Hall. destruct (Hall _ Hkl) as [s Hs].
    exists s. eapply sets_kept_set_at; [by apply sets_kept_subseteq|done]. }
  assert (deref h6 <$> list_to_map new = (list_to_map items : depmap)) as Hderef.
  { rewrite <- list_to_map_fmap. f_equal. rewrite <- Hmap.
    apply Forall_fmap_ext_1. eapply Forall_impl; [exact Hall|].
    intros [k l] [s Hs]. simpl in *. unfold prod_map. simpl. f_equal.
    unfold deref. rewrite Hs.
    by rewrite (sets_kept_set_at h4 h6 l s (sets_kept_subseteq _ _ Hsub6) Hs). }
  assert (h6 !! d = Some (ODict (list_to_map new))) as Hd6.
  { apply (lookup_weaken h5); [apply lookup_insert_eq|by apply insert_subseteq]. }
  pose proof (resolve_loop_refines fuel d r h6 (list_to_map new) [] []
                Hd6 Hall6 (lookup_insert_eq _ _ _) eq_refl) as Hloop.
  rewrite Hderef in Hloop. rewrite resolve_dependencies_loop.
  destruct (Store.resolve_loop fuel d r h6) as [[r' h']|]; [|done].
  by destruct Hloop as (-> & Hw & Hsome).
Qed.

(** ** Statement about the caller's objects *)

(** C9.  [resolve_dependencies] never mutates its argument: when the call
    returns, every object that was in the store before the call is still
    there with the same content, so the caller's dictionary reads back with
    the same keys and the same dependency sets as before.  All writes go to
    objects the call allocated itself. *)
Theorem resolve_dependencies_keeps_argument fuel deplist (h : heap) r h' :
  resolve_dependencies fuel deplist h = Some (r, h') →
  (∀ l o, h !! l = Some o → h' !! l = Some o) ∧
  is_Some (read_depmap deplist h) ∧
  read_depmap deplist h' = read_depmap deplist h.
Proof.
  intros Hr. pose proof (resolve_dependencies_frame _ _ _ _ _ Hr) as Hsub.
  destruct (resolve_dependencies_reads _ _ _ _ _ Hr) as [m Hm].
  split_and!.
  - intros l o Hl. by eapply lookup_weaken.
  - by exists m.
  - rewrite Hm. by eapply read_depmap_weaken.
Qed.

(** The caller's store [heap_ABC]: the call returns the waves [[{B}, {A, C}]]
    and the four objects of the caller are as they were. *)
Lemma resolve_dependencies_keeps_argument_ABC :
  ∃ r h',
    resolve_dependencies 3 1%positive heap_ABC = Some (r, h') ∧
    read_waves r h' = Some [ {["B"]}; {["A"; "C"]} ] ∧
    (∀ l o, heap_ABC !! l = Some o → h' !! l = Some o) ∧
    is_Some (read_depmap 1%positive heap_ABC) ∧
    read_depmap 1%positive h' = read_depmap 1%positive heap_ABC.
Proof.
  destruct (resolve_dependencies 3 1%positive heap_ABC) as [[r h']|] eqn:Hr;
    [|vm_compute in Hr; discriminate].
  exists r, h'. split; [reflexivity|]. split.
  - pose proof (store_refines 3 1%positive heap_ABC deps_ABC) as Href.
    rewrite Hr in Href. destruct Href as [<- _]; vm_compute; reflexivity.
  - apply (resolve_dependencies_keeps_argument 3 1%positive heap_ABC r h' Hr).
Defined.

End StoreProofs.

(* ===================================================================== *)
(** * Properties of the commit message *)
(* ===================================================================== *)

Module NarratorProofs.
Import Python Narrator.

Lemma string_app_cons a (s t : string) : String a s +:+ t = String a (s +:+ t).
Proof. reflexivity. Qed.

Lemma string_app_assoc (s t u : string) : (s +:+ t) +:+ u = s +:+ (t +:+ u).
Proof.
  induction s as [|a s IH]; [reflexivity|].
  by rewrite !string_app_cons, IH.
Qed.

(** ** The two dictionaries *)

Lemma status_str_None f :
  status_str !! f = None ↔
  f ≠ GIT_STATUS_INDEX_NEW ∧ f ≠ GIT_STATUS_INDEX_MODIFIED ∧
  f ≠ GIT_STATUS_INDEX_DELETED.
Proof.
  unfold status_str. rewrite !lookup_insert_None, lookup_empty.
  intuition congruence.
Qed.

Lemma status_str2_None f : status_str2 !! f = None ↔ status_str !! f = None.
Proof.
  unfold status_str, status_str2. rewrite !lookup_insert_None, !lookup_empty.
  done.
Qed.

Lemma status_str2_Some f word :
  status_str2 !! f = Some word →
  word ∈ [" additions"; " updates"; " removals"].
Proof.
  unfold status_str2. rewrite !lookup_insert_Some, lookup_empty.
  intros [[_ <-]|[_ [[_ <-]|[_ [[_ <-]|[_ ?]]]]]]; try done.
  - apply list_elem_of_here.
  - apply list_elem_of_further, list_elem_of_here.
  - do 2 apply list_elem_of_further. apply list_elem_of_here.
Qed.

(** The word of each status, read off the dictionary. *)
Lemma status_str2_word f word :
  status_str2 !! f = Some word →
  f = GIT_STATUS_INDEX_NEW ∧ word = " additions" ∨
  f = GIT_STATUS_INDEX_MODIFIED ∧ word = " updates" ∨
  f = GIT_STATUS_INDEX_DELETED ∧ word = " removals".
Proof.
  unfold status_str2. rewrite !lookup_insert_Some, lookup_empty.
  intros [[<- <-]|[_ [[<- <-]|[_ [[<- <-]|[_ ?]]]]]]; try done.
  - by left.
  - right. by left.
  - right. by right.
Qed.

Lemma getitem_Raise d k e : getitem d k = Raise e ↔ d !! k = None ∧ e = KeyError (KInt k).
Proof.
  unfold getitem. destruct (d !! k); split; try done.
  - by intros [? _].
  - by intros [= <-].
  - by intros [_ ->].
Qed.

Lemma getitem_Ok d k v : getitem d k = Ok v ↔ d !! k = Some v.
Proof.
  unfold getitem. destruct (d !! k); split; try done; by intros [= ->].
Qed.

(** ** One status for all changes *)

Lemma one_status_flags (changes : list change) c c' :
  one_status changes = true → c ∈ changes → c' ∈ changes → c.2 = c'.2.
Proof.
  unfold one_status. intros Hone%bool_decide_eq_true Hc Hc'.
  apply (size_singleton_inv _ _ _ Hone); apply elem_of_list_to_set;
    apply list_elem_of_fmap; eauto.
Qed.

(** One status in a list with two different flags is not possible. *)
Lemma one_status_differ (changes : list change) c c' :
  c ∈ changes → c' ∈ changes → c.2 ≠ c'.2 → one_status changes = false.
Proof.
  intros Hc Hc' Hne. destruct (one_status changes) eqn:Hone; [|done].
  destruct Hne. by apply (one_status_flags changes).
Qed.

(** A list that is not empty and carries one flag only has one status. *)
Lemma one_status_same (changes : list change) flags :
  changes ≠ [] → (∀ c, c ∈ changes → c.2 = flags) → one_status changes = true.
Proof.
  intros Hne Hall. unfold one_status. apply bool_decide_eq_true.
  assert (list_to_set (changes.*2) = ({[flags]} : gset Z)) as ->;
    [|apply size_singleton].
  apply set_eq. intros x. rewrite elem_of_list_to_set, elem_of_singleton.
  rewrite list_elem_of_fmap. split.
  - intros (c & -> & Hc). by apply Hall.
  - intros ->. destruct changes as [|c0 rest]; [done|].
    exists c0. split; [symmetry; apply Hall|]; apply list_elem_of_here.
Qed.

(** ** The per-change lines *)

Lemma change_lines_acc (changes : list change) acc :
  change_lines changes acc =
  rbind (change_lines changes "") (fun lines => Ok (acc +:+ lines)).
Proof.
  revert acc. induction changes as [|c rest IH]; intros acc; simpl.
  - f_equal. induction acc as [|a acc IHa]; [done|].
    by rewrite string_app_cons, <- IHa.
  - destruct (change_line c) as [line|e]; simpl; [|done].
    rewrite (IH (acc +:+ line)), (IH ("" +:+ line)).
    destruct (change_lines rest "") as [lines|e]; simpl; [|done].
    by rewrite string_app_assoc.
Qed.

Lemma change_line_Ok c :
  is_Some (status_str !! c.2) → ∃ line, change_line c = Ok line.
Proof.
  intros [verb Hv]. unfold change_line, getitem. rewrite Hv. simpl. eauto.
Qed.

Lemma change_lines_Ok (changes : list change) acc :
  Forall (fun c => is_Some (status_str !! c.2)) changes →
  ∃ msg, change_lines changes acc = Ok msg.
Proof.
  intros Hall. revert acc. induction Hall as [|c rest Hc _ IH]; intros acc; simpl.
  - eauto.
  - destruct (change_line_Ok c Hc) as [line ->]. simpl. apply IH.
Qed.

(** With a change of unknown status in the list, the loop stops at the first
    such change with its [KeyError]. *)
Lemma change_lines_unknown (changes : list change) c :
  c ∈ changes → status_str !! c.2 = None →
  ∃ c', c' ∈ changes ∧ status_str !! c'.2 = None ∧
        ∀ acc, change_lines changes acc = Raise (KeyError (KInt c'.2)).
Proof.
  intros Hin Hnone. induction changes as [|c0 rest IH]; [by apply elem_of_nil in Hin|].
  destruct (status_str !! c0.2) as [verb|] eqn:H0.
  - apply elem_of_cons in Hin as [->|Hin]; [congruence|].
    destruct (IH Hin) as (c' & Hc' & Hn' & Hr).
    exists c'. split_and!; [by apply list_elem_of_further|done|].
    intros acc. simpl. unfold change_line, getitem. rewrite H0. simpl. apply Hr.
  - exists c0. split_and!; [apply list_elem_of_here|done|].
    intros acc. simpl. unfold change_line, getitem. by rewrite H0.
Qed.

(** ** [commonpath] *)

Lemma commonpath_cases p0 (paths : list string) :
  (∃ cp, commonpath (p0 :: paths) = Ok cp ∧ ¬ mixed (p0 :: paths)) ∨
  (commonpath (p0 :: paths) = Raise ValueError ∧ mixed (p0 :: paths)).
Proof.
  unfold commonpath.
  destruct (forallb _ (p0 :: paths)) eqn:Hall.
  - left. simpl. eexists. split; [done|].
    intros (p & q & Hp & Hq & Hne).
    rewrite forallb_forall in Hall.
    apply list_elem_of_In, Hall, Bool.eqb_prop in Hp.
    apply list_elem_of_In, Hall, Bool.eqb_prop in Hq. congruence.
  - right. split; [done|].
    assert (¬ Forall (fun p => isabs p = isabs p0) (p0 :: paths)) as Hnot.
    { intros HF. apply Bool.not_true_iff_false in Hall. apply Hall.
      apply forallb_forall. intros p Hp%list_elem_of_In.
      rewrite Forall_forall in HF. rewrite (HF p Hp). apply Bool.eqb_reflx. }
    apply not_Forall_Exists in Hnot; [|intros p; apply _].
    apply Exists_exists in Hnot as (p & Hp & Hne).
    exists p, p0. split_and!; [done|apply list_elem_of_here|done].
Qed.

Lemma commonpath_relative p0 (paths : list string) :
  Forall (fun p => isabs p = false) (p0 :: paths) →
  ∃ cp, commonpath (p0 :: paths) = Ok cp.
Proof.
  intros Hrel. destruct (commonpath_cases p0 paths) as [(cp & -> & _)|[_ Hm]]; [eauto|].
  destruct Hm as (p & q & Hp & Hq & Hne). rewrite Forall_forall in Hrel.
  rewrite (Hrel p Hp), (Hrel q Hq) in Hne. done.
Qed.

(** ** Statements about the commit message *)

(** C6 as stated fails: two additions under different directories share no
    parent path, and the headline reads "Performed 2 additions": the word
    "changes" does not occur in the message. *)
Lemma headline_additions_without_common_path :
  commonpath (additions_apart.*1) = Ok "" ∧
  ∃ msg, construct_commit_msg additions_apart = Ok msg ∧
         msg = "Performed 2 additions" +:+ nl +:+ nl +:+
               "Added x" +:+ nl +:+ "Added y" +:+ nl ∧
         Stdlib.Strings.String.index 0 "changes" msg = None.
Proof.
  split; [vm_compute; reflexivity|].
  eexists. split; [vm_compute; reflexivity|]. split; vm_compute; reflexivity.
Qed.

(** C6 (amended).  For every change list with more than one change for which
    [construct_commit_msg] returns a message, the headline is
    "Performed <count><word><scope>".  The word is " changes" when two of
    the changes carry different statuses; when all changes carry one status
    it is the word of that status, " additions" for GIT_STATUS_INDEX_NEW,
    " updates" for GIT_STATUS_INDEX_MODIFIED and " removals" for
    GIT_STATUS_INDEX_DELETED, whatever the paths are.  When the paths share
    no common parent path the headline names no scope, and when they share
    one the headline names it, as " in <path> hostgroup". *)
Theorem headline_word_and_scope (changes : list change) msg :
  1 < length changes →
  construct_commit_msg changes = Ok msg →
  ∃ word common_path lines,
    commonpath (changes.*1) = Ok common_path ∧
    change_lines changes "" = Ok lines ∧
    msg = "Performed " +:+ decimal (length changes) +:+ word +:+
          (if decide (common_path = "") then ""
           else " in " +:+ common_path +:+ " hostgroup") +:+
          nl +:+ nl +:+ lines ∧
    ((∃ c c', c ∈ changes ∧ c' ∈ changes ∧ c.2 ≠ c'.2) → word = " changes") ∧
    (∀ flags, (∀ c, c ∈ changes → c.2 = flags) →
       flags = GIT_STATUS_INDEX_NEW ∧ word = " additions" ∨
       flags = GIT_STATUS_INDEX_MODIFIED ∧ word = " updates" ∨
       flags = GIT_STATUS_INDEX_DELETED ∧ word = " removals").
Proof.
  intros Hlen Hmsg. destruct changes as [|c0 [|c1 rest]]; simpl in Hlen; try lia.
  unfold construct_commit_msg in Hmsg.
  destruct (headline (c0 :: c1 :: rest)) as [head|] eqn:Hhead; [|done].
  cbn [rbind] in Hmsg. rewrite change_lines_acc in Hmsg.
  destruct (change_lines (c0 :: c1 :: rest) "") as [lines|] eqn:Hlines; [|done].
  cbn [rbind] in Hmsg. injection Hmsg as <-.
  unfold headline in Hhead.
  set (word_r := if one_status (c0 :: c1 :: rest)
                 then getitem status_str2 c0.2 else Ok " changes") in Hhead.
  destruct word_r as [word|] eqn:Hword; [|done]. cbn [rbind] in Hhead.
  destruct (commonpath ((c0 :: c1 :: rest).*1)) as [cp|] eqn:Hcp; [|done].
  cbn [rbind] in Hhead. injection Hhead as <-.
  exists word, cp, lines. split_and!; [done|done|..].
  - destruct (decide (cp = "")); by rewrite !string_app_assoc.
  - intros (c & c' & Hc & Hc' & Hne). subst word_r.
    rewrite (one_status_differ _ c c' Hc Hc' Hne) in Hword.
    by injection Hword as <-.
  - intros flags Hall. subst word_r.
    rewrite (one_status_same _ flags) in Hword by done.
    apply getitem_Ok in Hword.
    rewrite (Hall c0 (list_elem_of_here _ _)) in Hword.
    by apply status_str2_word.
Qed.

(** The two additions under [path]: one status, one common parent path. *)
Lemma headline_word_and_scope_two_additions :
  ∃ word common_path lines,
    commonpath (two_additions.*1) = Ok common_path ∧
    change_lines two_additions "" = Ok lines ∧
    "Performed 2 additions in path hostgroup" +:+ nl +:+ nl +:+
      "Added a" +:+ nl +:+ "Added b" +:+ nl =
    "Performed " +:+ decimal (length two_additions) +:+ word +:+
      (if decide (common_path = "") then ""
       else " in " +:+ common_path +:+ " hostgroup") +:+
      nl +:+ nl +:+ lines ∧
    ((∃ c c', c ∈ two_additions ∧ c' ∈ two_additions ∧ c.2 ≠ c'.2) →
     word = " changes") ∧
    (∀ flags, (∀ c, c ∈ two_additions → c.2 = flags) →
       flags = GIT_STATUS_INDEX_NEW ∧ word = " additions" ∨
       flags = GIT_STATUS_INDEX_MODIFIED ∧ word = " updates" ∨
       flags = GIT_STATUS_INDEX_DELETED ∧ word = " removals").
Proof.
  apply (headline_word_and_scope two_additions).
  - simpl. lia.
  - vm_compute. reflexivity.
Defined.

(** C7.  On [[(path/a.json, Added), (path/b.json, Added)]] the message is the
    headline "Performed 2 additions in path hostgroup", an empty line, and
    exactly the lines "Added a" and "Added b"; for a change list of exactly
    one change there is no headline: the message is that change's line (or
    the [KeyError] of its status). *)
Theorem two_additions_and_single_change :
  construct_commit_msg two_additions =
    Ok ("Performed 2 additions in path hostgroup" +:+ nl +:+ nl +:+
        "Added a" +:+ nl +:+ "Added b" +:+ nl) ∧
  ∀ filepath flags,
    construct_commit_msg [(filepath, flags)] =
    match status_str !! flags with
    | Some verb =>
        Ok (verb +:+ replace ".json" "" (basename filepath) +:+ nl)
    | None => Raise (KeyError (KInt flags))
    end.
Proof.
  split; [vm_compute; reflexivity|].
  intros filepath flags. unfold construct_commit_msg. simpl.
  unfold change_line, getitem. simpl.
  destruct (status_str !! flags); reflexivity.
Qed.




End NarratorProofs.

(* ===================================================================== *)
(** * Properties of commit and push *)
(* ===================================================================== *)

Module GitProofs.
Import Python Narrator Git NarratorProofs.

(** [construct_commit_msg] returns a message when every status is one of
    the three it knows and the paths are relative, as git reports them. *)
Lemma construct_commit_msg_Ok (changes : list change) :
  Forall (fun c => is_Some (status_str !! c.2)) changes →
  Forall (fun c => isabs c.1 = false) changes →
  ∃ msg, construct_commit_msg changes = Ok msg.
Proof.
  intros Hknown Hrel. unfold construct_commit_msg.
  assert (∃ head, headline changes = Ok head) as [head ->].
  { destruct changes as [|c0 [|c1 rest]]; [by eexists..|].
    unfold headline.
    assert (∃ word, (if one_status (c0 :: c1 :: rest)
                     then getitem status_str2 c0.2 else Ok " changes")
                    = Ok word) as [word ->].
    { destruct (one_status _); [|by eexists].
      apply Forall_cons in Hknown as [[v Hv] _].
      destruct (status_str2 !! c0.2) as [word|] eqn:H2.
      - exists word. by apply getitem_Ok.
      - apply status_str2_None in H2. congruence. }
    cbn [rbind].
    destruct (commonpath_relative c0.1 ((c1 :: rest).*1)) as [cp Hcp].
    { change (c0.1 :: (c1 :: rest).*1) with ((c0 :: c1 :: rest).*1).
      by apply Forall_fmap. }
    change ((c0 :: c1 :: rest).*1) with (c0.1 :: (c1 :: rest).*1).
    rewrite Hcp. cbn [rbind]. by eexists. }
  cbn [rbind]. by apply change_lines_Ok.
Qed.

Lemma pending_changes_nil repo :
  pending_changes repo = [] ↔
  Forall (fun c => c.2 = GIT_STATUS_CURRENT) (status repo).
Proof.
  unfold pending_changes. induction (status repo) as [|c l IH].
  - split; [constructor|done].
  - rewrite filter_cons, Forall_cons.
    destruct (decide (c.2 ≠ GIT_STATUS_CURRENT)) as [Hne|Heq].
    + split; [done|]. by intros [? _].
    + rewrite IH. split; [|by intros [_ ?]].
      intros Hl. split; [|done]. by destruct (decide (c.2 = GIT_STATUS_CURRENT)).
Qed.

(** ** Statement about commit and push *)

(** A change whose status has no verb makes [construct_commit_msg] raise. *)
Lemma construct_commit_msg_no_verb (changes : list change) c :
  c ∈ changes → status_str !! c.2 = None →
  ∃ e, construct_commit_msg changes = Raise e.
Proof.
  intros Hin Hnone.
  destruct (change_lines_unknown changes c Hin Hnone) as (c' & _ & _ & Hlines).
  unfold construct_commit_msg.
  destruct (headline changes) as [head|e]; [|by exists e].
  cbn [rbind]. rewrite Hlines. by eexists.
Qed.

(** C8 (the code does not do this).  The claim asks for a commit whenever a
    record is not Unchanged.  A record whose status is
    GIT_STATUS_INDEX_TYPECHANGE is not Unchanged and passes the filter of
    [git_commit_and_push], but no commit is created: [construct_commit_msg]
    raises the [KeyError] of the status and the repository, its history
    included, stays as it was.  The same happens for every repository with a
    record whose status is neither Unchanged nor one of
    GIT_STATUS_INDEX_NEW, GIT_STATUS_INDEX_MODIFIED, GIT_STATUS_INDEX_DELETED:
    the call ends in an exception and leaves the repository untouched. *)
Theorem typechange_makes_no_commit :
  let repo := repo_with [("a.json", GIT_STATUS_INDEX_TYPECHANGE)] in
  (Exists (fun c => c.2 ≠ GIT_STATUS_CURRENT) (status repo) ∧
   git_commit_and_push true repo
   = (repo, Some (KeyError (KInt GIT_STATUS_INDEX_TYPECHANGE))) ∧
   commits (git_commit_and_push true repo).1 = commits repo) ∧
  ∀ accepted (repo : repository) (c : change),
    c ∈ status repo → c.2 ≠ GIT_STATUS_CURRENT →
    c.2 ≠ GIT_STATUS_INDEX_NEW → c.2 ≠ GIT_STATUS_INDEX_MODIFIED →
    c.2 ≠ GIT_STATUS_INDEX_DELETED →
    ∃ e, git_commit_and_push accepted repo = (repo, Some e).
Proof.
  split.
  { split_and!.
    - apply Exists_cons_hd. vm_compute. discriminate.
    - vm_compute. reflexivity.
    - vm_compute. reflexivity. }
  intros accepted repo c Hin Hcur H1 H2 H3.
  assert (c ∈ pending_changes repo) as Hpend.
  { unfold pending_changes. by apply list_elem_of_filter. }
  destruct (construct_commit_msg_no_verb (pending_changes repo) c Hpend)
    as [e He]; [by apply status_str_None|].
  exists e. unfold git_commit_and_push.
  destruct (pending_changes repo) as [|c0 cs]; [by apply elem_of_nil in Hpend|].
  by rewrite He.
Qed.

(** What the call does do.  It creates a commit only if at least one record
    has a status other than Unchanged; it does create one, with the message
    of [construct_commit_msg], when moreover every such record has exactly
    the status INDEX_NEW, INDEX_MODIFIED or INDEX_DELETED, the paths are
    relative as git reports them and the branch exists; when every record
    is Unchanged no commit is created and the repository, its history
    included, is left as it was. *)
Lemma commit_only_for_changes accepted repo :
  (Forall (fun c => c.2 = GIT_STATUS_CURRENT) (status repo) →
   git_commit_and_push accepted repo = (repo, None)) ∧
  (commits (git_commit_and_push accepted repo).1 ≠ commits repo →
   Exists (fun c => c.2 ≠ GIT_STATUS_CURRENT) (status repo)) ∧
  (Exists (fun c => c.2 ≠ GIT_STATUS_CURRENT) (status repo) →
   Forall (fun c => c.2 = GIT_STATUS_INDEX_NEW ∨
                    c.2 = GIT_STATUS_INDEX_MODIFIED ∨
                    c.2 = GIT_STATUS_INDEX_DELETED) (pending_changes repo) →
   Forall (fun c => isabs c.1 = false) (pending_changes repo) →
   ∀ target, branch repo = Some target →
   ∃ msg, construct_commit_msg (pending_changes repo) = Ok msg ∧
          commits (git_commit_and_push accepted repo).1
          = commits repo ++
            [ {| message := msg; tree := index_tree repo; parents := [target] |} ]).
Proof.
  assert (Forall (fun c => c.2 = GIT_STATUS_CURRENT) (status repo) →
          git_commit_and_push accepted repo = (repo, None)) as Hnone.
  { intros Hall%pending_changes_nil. unfold git_commit_and_push. by rewrite Hall. }
  split_and!; [done|..].
  - intros Hneq.
    apply (not_Forall_Exists (fun c : change => c.2 = GIT_STATUS_CURRENT)).
    intros Hall. apply Hneq. by rewrite (Hnone Hall).
  - intros Hex Hknown Hrel target Hbranch.
    destruct (construct_commit_msg_Ok (pending_changes repo)) as [msg Hmsg]; [|done|].
    { eapply Forall_impl; [exact Hknown|]. intros c Hc. simpl in Hc.
      destruct (status_str !! c.2) eqn:Hs; [done|].
      apply status_str_None in Hs. intuition congruence. }
    exists msg. split; [done|]. unfold git_commit_and_push.
    destruct (pending_changes repo) as [|c cs] eqn:Hp.
    { apply pending_changes_nil in Hp.
      by apply (Exists_not_Forall (fun c : change => c.2 = GIT_STATUS_CURRENT))
        in Hex. }
    rewrite Hmsg, Hbranch. unfold push. by destruct accepted.
Qed.

(** One added file: the commit is created on top of the initial one. *)
Lemma commit_only_for_changes_one_addition :
  ∃ msg,
    construct_commit_msg
      (pending_changes (repo_with [("grp/a.json", GIT_STATUS_INDEX_NEW)])) = Ok msg ∧
    commits (git_commit_and_push true
               (repo_with [("grp/a.json", GIT_STATUS_INDEX_NEW)])).1
    = commits (repo_with [("grp/a.json", GIT_STATUS_INDEX_NEW)]) ++
      [ {| message := msg; tree := 7; parents := [0] |} ].
Proof.
  apply (proj2 (proj2 (commit_only_for_changes true
           (repo_with [("grp/a.json", GIT_STATUS_INDEX_NEW)])))).
  - apply Exists_cons_hd. vm_compute. discriminate.
  - vm_compute. repeat constructor.
  - vm_compute. repeat constructor.
  - reflexivity.
Defined.

End GitProofs.

(* ===================================================================== *)
(** * Properties of import and removal *)
(* ===================================================================== *)

Module ZabbixProofs.
Import Python Narrator Resolver Zabbix.

Section ImportLoop.

Context (remote : Type).
Context (confimport : string → list template → remote → remote * option exn).
Context (fs : file_system) (filepaths : gmap string string).

Local Abbreviation import_template := (import_template remote confimport fs).
Local Abbreviation import_one := (import_one remote confimport fs filepaths).
Local Abbreviation import_wave := (import_wave remote confimport fs filepaths).
Local Abbreviation import_waves := (import_waves remote confimport fs filepaths).









(** ** Statement about the import loop *)


End ImportLoop.


(** ** Statement about the removal *)

(** The removal function reads and looks up; it changes nothing on the remote
    system and its only call is [template.get]. *)
Lemma zabbix_remove_templates_calls (remote : Type) template_get
    (fs : file_system) template_files (w : world remote) :
  let w' := (zabbix_remove_templates remote template_get fs template_files w).1 in
  zabbix w' = zabbix w ∧
  (calls w' = calls w ∨ ∃ names, calls w' = calls w ++ [TemplateGet names]).
Proof.
  unfold zabbix_remove_templates.
  destruct (read_names fs template_files []) as [templates|e]; simpl.
  - split; [done|]. right. by eexists.
  - split; [done|]. by left.
Qed.

(** C4 (the code does not do this).  Template [T] exists on the remote
    system and its exported file is flagged GIT_STATUS_WT_NEW.  The Apply
    run hands the file to [zabbix_remove_templates], which looks up the
    template with [template.get] and logs it, and that is all: no
    [template.delete] call is issued, by this run or by any other call of
    the function, and [T] is still on the remote system afterwards. *)
Theorem removal_issues_no_delete :
  apply_changes simple_remote simple_confimport simple_template_get
    0 "/tmp/repository" changes_T exported_T ∅ world_T
  = Some ({| zabbix := remote_T;
             calls := [TemplateGet ["T"]];
             log := [DebugDeleting ["T"]] |}, None) ∧
  remote_T !! "T" = Some "10001" ∧
  ∀ (remote : Type) template_get (fs : file_system) template_files
    (w : world remote) ids,
    let w' := (zabbix_remove_templates remote template_get fs template_files w).1 in
    zabbix w' = zabbix w ∧
    (TemplateDelete ids ∈ calls w' → TemplateDelete ids ∈ calls w).
Proof.
  split_and!; [vm_compute; reflexivity..|].
  intros remote template_get fs template_files w ids.
  destruct (zabbix_remove_templates_calls remote template_get fs template_files w)
    as [Hz [Hc|[names Hc]]]; simpl in *; (split; [done|]); rewrite Hc; [done|].
  intros [?|Hin]%elem_of_app; [done|].
  by apply list_elem_of_singleton in Hin.
Qed.

End ZabbixProofs.


(* ===================================================================== *)
(** * More on the waves of the resolver *)
(* ===================================================================== *)

Module ResolverMore.
Import Resolver ResolverProofs.

(** A round that emits nothing changes nothing. *)
Lemma cleanup_empty_wave (d : depmap) : wave d = ∅ → cleanup d (wave d) = d.
Proof.
  intros Hw. rewrite Hw. apply map_eq. intros k.
  destruct (d !! k) as [v|] eqn:Hk.
  - apply lookup_cleanup_Some. exists v. split_and!; [done| |].
    + intros ->. apply elem_of_keys_without_value in Hk.
      assert (k ∈ wave d) as Hin by (apply elem_of_union; by right).
      rewrite Hw in Hin. by apply not_elem_of_empty in Hin.
    + by rewrite difference_empty_L.
  - apply lookup_cleanup_None. by left.
Qed.

Lemma stuck_never_returns fuel (d : depmap) r :
  d ≠ ∅ → cleanup d (wave d) = d → resolve_loop fuel d r = None.
Proof.
  intros Hne Hfix. revert r. induction fuel as [|n IH]; intros r; simpl;
    destruct (decide (d = ∅)); try done.
  rewrite Hfix. apply IH.
Qed.

Lemma loop_waves_nonempty fuel (d : depmap) ws :
  resolve_loop fuel d [] = Some ws → Forall (fun w => w ≠ ∅) ws.
Proof.
  revert d ws. induction fuel as [|n IH]; intros d ws Hr;
    apply resolve_loop_unfold in Hr
      as [[-> ->]|(n' & ws' & Hfuel & Hne & Hn & ->)]; try done.
  injection Hfuel as <-. constructor; [|by eapply IH].
  intros Hw. rewrite (cleanup_empty_wave d Hw) in Hn.
  by rewrite (stuck_never_returns n d [] Hne (cleanup_empty_wave d Hw)) in Hn.
Qed.

(** X1.  No wave is empty: every round of a call that returns emits at least one
    name. *)
Theorem waves_nonempty fuel (m : depmap) r w :
  resolve_dependencies fuel m = Some r → w ∈ r → w ≠ ∅.
Proof.
  rewrite resolve_dependencies_loop. intros Hr%loop_waves_nonempty Hw.
  rewrite Forall_forall in Hr. by apply Hr.
Qed.

Lemma waves_nonempty_ABC :
  ({["B"]} : names) ≠ ∅.
Proof.
  apply (waves_nonempty 2 deps_ABC [ {["B"]}; {["A"; "C"]} ]).
  - vm_compute. reflexivity.
  - apply list_elem_of_here.
Defined.

Lemma loop_waves_NoDup fuel (d : depmap) ws :
  resolve_loop fuel d [] = Some ws → NoDup (flatten ws).
Proof. intros Hr. rewrite (flatten_perm _ _ _ Hr). apply NoDup_elements. Qed.

(** A name of a duplicate-free flattening sits in one wave only. *)
Lemma flatten_NoDup_index (ws : list names) i j w w' x :
  NoDup (flatten ws) → ws !! i = Some w → ws !! j = Some w' →
  x ∈ w → x ∈ w' → i = j.
Proof.
  unfold flatten. revert i j. induction ws as [|w0 ws IH]; intros i j Hnd Hi Hj Hx Hx';
    [done|].
  simpl in Hnd. apply NoDup_app in Hnd as (_ & Hdisj & Hnd).
  assert (∀ n w1, ws !! n = Some w1 → x ∈ w1 → x ∈ w0 → False) as Hno.
  { intros n w1 Hn Hx1 Hx0. apply (Hdisj x); [by apply elem_of_elements|].
    apply elem_of_flatten. exists w1. split; [|done].
    apply list_elem_of_lookup. eauto. }
  destruct i as [|i], j as [|j]; simpl in *; simplify_eq; try done.
  - exfalso. eauto.
  - exfalso. eauto.
  - f_equal. eauto.
Qed.

(** X2.  The members of a wave do not depend on each other: they can be applied
    in any order. *)
Theorem wave_members_independent fuel (m : depmap) r i w k1 k2 v :
  resolve_dependencies fuel m = Some r →
  r !! i = Some w → k1 ∈ w → k2 ∈ w → m !! k1 = Some v → k2 ∉ v.
Proof.
  rewrite resolve_dependencies_loop. intros Hr Hi Hk1 Hk2 Hv Hin.
  destruct (waves_order _ _ _ _ _ _ _ _ Hr Hi Hk1 Hv Hin) as (j & w' & Hlt & Hj & Hx).
  pose proof (flatten_NoDup_index r i j w w' k2 (loop_waves_NoDup _ _ _ Hr)
                Hi Hj Hk2 Hx). lia.
Qed.

Lemma wave_members_independent_ABC : "C" ∉ ({["B"]} : names).
Proof.
  apply (wave_members_independent 2 deps_ABC [ {["B"]}; {["A"; "C"]} ] 1
           {["A"; "C"]} "A" "C" {["B"]}).
  - vm_compute. reflexivity.
  - reflexivity.
  - apply elem_of_union. left. apply elem_of_singleton. reflexivity.
  - apply elem_of_union. right. apply elem_of_singleton. reflexivity.
  - vm_compute. reflexivity.
Defined.

Lemma flatten_split (ws : list names) j i wj wi x k :
  j < i → ws !! j = Some wj → ws !! i = Some wi → x ∈ wj → k ∈ wi →
  ∃ l1 l2 l3, flatten ws = l1 ++ x :: l2 ++ k :: l3.
Proof.
  revert j i. induction ws as [|w0 ws IH]; intros j i Hlt Hj Hi Hx Hk; [done|].
  change (flatten (w0 :: ws)) with (elements w0 ++ flatten ws).
  destruct i as [|i]; [lia|]. simpl in Hi. destruct j as [|j]; simpl in Hj.
  - injection Hj as ->.
    apply elem_of_elements, list_elem_of_split in Hx as (p & q & ->).
    assert (k ∈ flatten ws) as (a & b & ->)%list_elem_of_split.
    { apply elem_of_flatten. exists wi. split; [|done].
      apply list_elem_of_lookup. eauto. }
    exists p, (q ++ a), b. by rewrite <- !app_assoc.
  - destruct (IH j i) as (l1 & l2 & l3 & ->); [lia|done..|].
    exists (elements w0 ++ l1), l2, l3. by rewrite <- app_assoc.
Qed.

Lemma loop_dependencies_come_first fuel (d : depmap) ws k v x :
  resolve_loop fuel d [] = Some ws →
  d !! k = Some v → x ∈ v →
  ∃ l1 l2 l3, flatten ws = l1 ++ x :: l2 ++ k :: l3.
Proof.
  intros Hr Hk Hx.
  assert (∃ w, w ∈ ws ∧ k ∈ w) as (w & Hw & Hkw).
  { apply (in_waves _ _ _ _ Hr). left. eauto. }
  apply list_elem_of_lookup in Hw as [i Hi].
  destruct (waves_order _ _ _ _ _ _ _ _ Hr Hi Hkw Hk Hx) as (j & w' & Hlt & Hj & Hxw).
  by eapply flatten_split.
Qed.

(** X3.  Read wave after wave, the result is an order in which every dependency
    of a key, in the batch or not, comes before the key. *)
Theorem dependencies_come_first fuel (m : depmap) r k v x :
  resolve_dependencies fuel m = Some r →
  m !! k = Some v → x ∈ v →
  ∃ l1 l2 l3, flatten r = l1 ++ x :: l2 ++ k :: l3.
Proof.
  rewrite resolve_dependencies_loop. apply loop_dependencies_come_first.
Qed.

Lemma dependencies_come_first_AX :
  ∃ l1 l2 l3,
    flatten [ {["X"]}; {["A"]} ] = l1 ++ "X" :: l2 ++ "A" :: l3.
Proof.
  apply (dependencies_come_first 2 deps_AX [ {["X"]}; {["A"]} ] "A" {["X"]} "X").
  - vm_compute. reflexivity.
  - vm_compute. reflexivity.
  - apply elem_of_singleton. reflexivity.
Defined.

Lemma loop_waves_length fuel (d : depmap) ws :
  resolve_loop fuel d [] = Some ws → length ws ≤ fuel.
Proof.
  revert d ws. induction fuel as [|n IH]; intros d ws Hr;
    apply resolve_loop_unfold in Hr
      as [[-> ->]|(n' & ws' & Hfuel & Hne & Hn & ->)]; simpl; try lia; try done.
  injection Hfuel as <-. apply IH in Hn. lia.
Qed.

(** X4.  The number of waves is at most the number of keys plus one (the extra
    one is the wave of the names that are not keys). *)
Theorem waves_bounded fuel (m : depmap) r :
  resolve_dependencies fuel m = Some r → length r ≤ S (size m).
Proof.
  intros Hr. pose proof (returns_acyclic _ _ _ Hr) as Hacyc.
  rewrite resolve_dependencies_loop in Hr.
  destruct (acyclic_returns m Hacyc) as [ws Hws].
  pose proof (resolve_loop_fuel_mono _ (fuel `max` S (size m)) _ _ Hr
                ltac:(lia)) as H1.
  pose proof (resolve_loop_fuel_mono _ (fuel `max` S (size m)) _ _ Hws
                ltac:(lia)) as H2.
  assert (r = ws) as -> by congruence.
  by apply loop_waves_length in Hws.
Qed.

Lemma waves_bounded_AX : length [ ({["X"]} : names); {["A"]} ] ≤ S (size deps_AX).
Proof.
  apply (waves_bounded 5 deps_AX). vm_compute. reflexivity.
Defined.

End ResolverMore.

(* ===================================================================== *)
(** * More on the resolver and the store *)
(* ===================================================================== *)

Module StoreMore.
Import Resolver Store ResolverProofs StoreProofs.

(** X5.  The call on the store returns exactly when the function on values does,
    and the list it returns then holds the same waves. *)
Theorem store_run_computes_waves fuel deplist (h : heap) m ws :
  read_depmap deplist h = Some m →
  Resolver.resolve_dependencies fuel m = Some ws ↔
  ∃ r h', Store.resolve_dependencies fuel deplist h = Some (r, h') ∧
          read_waves r h' = Some ws.
Proof.
  intros Hm. pose proof (store_refines fuel deplist h m Hm) as Href.
  destruct (Store.resolve_dependencies fuel deplist h) as [[r h']|].
  - destruct Href as [Heq _]. rewrite Heq. split.
    + intros Hw. by exists r, h'.
    + by intros (r0 & h0 & [= <- <-] & Hw).
  - rewrite Href. split; [done|]. by intros (? & ? & ? & _).
Qed.

Lemma store_run_computes_waves_ABC :
  Resolver.resolve_dependencies 3 deps_ABC = Some [ {["B"]}; {["A"; "C"]} ] ↔
  ∃ r h', Store.resolve_dependencies 3 1%positive heap_ABC = Some (r, h') ∧
          read_waves r h' = Some [ {["B"]}; {["A"; "C"]} ].
Proof.
  apply (store_run_computes_waves 3 1%positive heap_ABC deps_ABC).
  vm_compute. reflexivity.
Defined.

Lemma alloc_keeps (h : heap) o l h' l0 o0 :
  alloc o h = Some (l, h') → h !! l0 = Some o0 → h' !! l0 = Some o0.
Proof.
  intros [-> ->]%alloc_Some Hl0. rewrite lookup_insert_ne; [done|].
  intros <-. pose proof (is_fresh (dom h)) as Hf.
  apply Hf, elem_of_dom. eauto.
Qed.

(** The loop only ever appends references of objects it allocated to the
    list [r]. *)
Lemma resolve_loop_appends_new (h0 : heap) fuel d r h res h' ls :
  Store.resolve_loop fuel d r h = Some (res, h') →
  h0 !! r = None → h0 ⊆ h →
  h !! r = Some (OList ls) → Forall (fun l => h0 !! l = None) ls →
  res = r ∧ ∃ ls', h' !! r = Some (OList ls') ∧
                   Forall (fun l => h0 !! l = None) ls'.
Proof.
  revert d h ls. induction fuel as [|n IH];
    intros d h ls Hr Hr0 Hsub Hlist Hnew; simpl in Hr;
    apply bind_Some in Hr as (od & h1 & [_ ->]%load_Some & Hr);
    apply bind_Some in Hr as (dm & h2 & [_ ->]%as_dict_Some & Hr);
    destruct (decide (dm = ∅)) as [_|_];
    try (apply ret_Some in Hr as [-> ->]; by eauto); try done.
  apply bind_Some in Hr as (items & h3 & Hit & Hr).
  apply load_items_heap in Hit as ->; [|by intros ???? [_ ->]%as_set_Some].
  apply bind_Some in Hr as (t & h4 & Hal & Hr).
  pose proof (alloc_keeps _ _ _ _ _ _ Hal Hlist) as Hlist4.
  apply (alloc_frame h0) in Hal as [Hsub4 Ht0]; [|done].
  apply bind_Some in Hr as (u1 & h5 & Hup & Hr).
  assert (h5 !! r = Some (OList ls)) as Hlist5.
  { unfold set_update in Hup.
    apply bind_Some in Hup as (o & h1 & [Ho ->]%load_Some & Hup).
    apply bind_Some in Hup as (s0 & h2 & [-> ->]%as_set_Some & Hup).
    apply store_Some in Hup as [_ ->].
    rewrite lookup_insert_ne; [done|]. intros <-. congruence. }
  apply (set_update_frame h0) in Hup; [|done..].
  apply bind_Some in Hr as (u2 & h6 & Hap & Hr).
  assert (h6 !! r = Some (OList (ls ++ [t]))) as Hlist6.
  { unfold list_append in Hap.
    apply bind_Some in Hap as (o & h1 & [Ho ->]%load_Some & Hap).
    apply bind_Some in Hap as (l & h2 & [-> ->]%as_list_Some & Hap).
    apply store_Some in Hap as [_ ->].
    rewrite lookup_insert_eq. congruence. }
  apply (list_append_frame h0) in Hap; [|done..].
  apply bind_Some in Hr as (ot & h7 & [_ ->]%load_Some & Hr).
  apply bind_Some in Hr as (tv & h8 & [_ ->]%as_set_Some & Hr).
  apply bind_Some in Hr as (new & h9 & Hnew9 & Hr).
  pose proof (new_sets_frame h6 _ _ _ _ Hnew9 (reflexivity _)) as Hsub69.
  apply (new_sets_frame h0) in Hnew9; [|done].
  apply bind_Some in Hr as (d' & h10 & Hal' & Hr).
  pose proof (alloc_keeps _ _ _ _ _ _ Hal' (lookup_weaken _ _ _ _ Hlist6 Hsub69))
    as Hlist10.
  apply (alloc_frame h0) in Hal' as [Hsub10 _]; [|done].
  apply (IH d' h10 (ls ++ [t])); [done..|].
  apply Forall_app. split; [done|]. by constructor.
Qed.

(** X6.  The list that is returned and the sets in it are objects made by the
    call: none of them is an object of the caller's store, so the caller can
    change the result without touching what it passed in. *)
Theorem result_is_new fuel deplist (h : heap) r h' :
  Store.resolve_dependencies fuel deplist h = Some (r, h') →
  h !! r = None ∧
  ∃ ls, h' !! r = Some (OList ls) ∧ Forall (fun l => h !! l = None) ls.
Proof.
  unfold Store.resolve_dependencies. intros Hr.
  apply bind_Some in Hr as (odl & h1 & [_ ->]%load_Some & Hr).
  apply bind_Some in Hr as (dl & h2 & [_ ->]%as_dict_Some & Hr).
  apply bind_Some in Hr as (items & h3 & Hit & Hr).
  apply load_items_heap in Hit as ->; [|apply iter_names_heap].
  apply bind_Some in Hr as (new & h4 & Hnew & Hr).
  apply (new_sets_frame h) in Hnew; [|done].
  apply bind_Some in Hr as (d & h5 & Hal & Hr).
  apply (alloc_frame h) in Hal as [Hsub5 _]; [|done].
  apply bind_Some in Hr as (r0 & h6 & Hal' & Hr).
  pose proof Hal' as [-> ->]%alloc_Some.
  apply (alloc_frame h) in Hal' as [Hsub6 Hr0]; [|done].
  destruct (resolve_loop_appends_new h fuel d _ _ r h' [] Hr Hr0 Hsub6)
    as (-> & ls & Hls & Hnewls); [apply lookup_insert_eq|constructor|].
  split; [done|]. by exists ls.
Qed.

Lemma result_is_new_ABC :
  ∃ r h',
    Store.resolve_dependencies 3 1%positive heap_ABC = Some (r, h') ∧
    heap_ABC !! r = None ∧
    ∃ ls, h' !! r = Some (OList ls) ∧ Forall (fun l => heap_ABC !! l = None) ls.
Proof.
  destruct (Store.resolve_dependencies 3 1%positive heap_ABC) as [[r h']|] eqn:Hr;
    [|vm_compute in Hr; discriminate].
  exists r, h'. split; [reflexivity|].
  apply (result_is_new 3 1%positive heap_ABC r h' Hr).
Defined.

End StoreMore.

(* ===================================================================== *)
(** * More on import and removal *)
(* ===================================================================== *)

Module ZabbixMore.
Import Python Narrator Resolver Zabbix Samples ResolverProofs ResolverMore ZabbixProofs.

(** ** Reading the batch *)





Lemma read_templates_missing fs files acc f :
  f ∈ files → fs !! f = None →
  ∃ f', f' ∈ files ∧ fs !! f' = None ∧
        read_templates fs files acc = Raise (FileNotFoundError f').
Proof.
  intros Hin Hnone. revert acc. induction files as [|f0 files IH]; intros acc;
    [by apply elem_of_nil in Hin|].
  simpl. destruct (fs !! f0) as [tpls|] eqn:Hf0.
  - apply elem_of_cons in Hin as [->|Hin]; [congruence|].
    destruct (IH Hin (foldl (add_template f0) acc tpls)) as (f' & Hf' & Hn' & Hr).
    exists f'. split_and!; [by apply list_elem_of_further|done|done].
  - exists f0. split_and!; [apply list_elem_of_here|done|done].
Qed.

(** ** The import of a batch *)




Section Batch.

Context (remote : Type).
Context (confimport : string → list template → remote → remote * option exn).
Context (fs : file_system).


(** X8.  A file of the batch that cannot be read stops the call before anything
    is imported: the exception is [FileNotFoundError] and the state of the world
    is the one before the call. *)
Theorem import_unreadable_file files f :
  f ∈ files → fs !! f = None →
  ∃ f', f' ∈ files ∧ fs !! f' = None ∧
        ∀ fuel (w : world remote),
          zabbix_import_templates remote confimport fs fuel files w
          = Some (w, Some (FileNotFoundError f')).
Proof.
  intros Hin Hnone.
  destruct (read_templates_missing fs files (∅, ∅) f Hin Hnone)
    as (f' & Hf' & Hn' & Hr).
  exists f'. split_and!; [done..|].
  intros fuel w. unfold zabbix_import_templates. by rewrite Hr.
Qed.

(** X9.  Templates that link each other in a cycle make the import call run for
    ever: it never gets to the first import. *)
Theorem import_cyclic_batch_never_returns files fp (deps : depmap) :
  read_templates fs files (∅, ∅) = Ok (fp, deps) →
  cyclic deps →
  ∀ fuel (w : world remote),
    zabbix_import_templates remote confimport fs fuel files w = None.
Proof.
  intros Hread Hcyc fuel w. unfold zabbix_import_templates.
  by rewrite Hread, (cyclic_never_returns fuel deps Hcyc).
Qed.

End Batch.


(** The file of [B] is not there. *)
Lemma import_unreadable_file_B :
  ∃ f', f' ∈ files_AB ∧
        (<["/r/A.json" := [tpl_A]]> ∅ : file_system) !! f' = None ∧
        ∀ fuel (w : world simple_remote),
          zabbix_import_templates simple_remote simple_confimport
            (<["/r/A.json" := [tpl_A]]> ∅) fuel files_AB w
          = Some (w, Some (FileNotFoundError f')).
Proof.
  apply (import_unreadable_file simple_remote simple_confimport
           (<["/r/A.json" := [tpl_A]]> ∅) files_AB "/r/B.json").
  - apply list_elem_of_further, list_elem_of_here.
  - vm_compute. reflexivity.
Defined.

(** [A] links [B] and [B] links [A]: a thousand rounds are not enough. *)
Lemma import_cyclic_batch_never_returns_AB :
  zabbix_import_templates simple_remote simple_confimport fs_loop 1000
    files_AB world0 = None.
Proof.
  apply (import_cyclic_batch_never_returns simple_remote simple_confimport
           fs_loop files_AB filepaths_AB deps_cycle).
  - vm_compute. reflexivity.
  - apply deps_cycle_cyclic.
Defined.

(** ** The Apply run *)

Section ApplyRun.

Context (remote : Type).
Context (confimport : string → list template → remote → remote * option exn).
Context (template_get : list string → remote → list (string * string)).

Lemma filter_none {A} (P : A → Prop) `{!∀ x, Decision (P x)} (l : list A) :
  Forall (fun x => ¬ P x) l → filter P l = [].
Proof.
  induction 1 as [|x l Hx _ IH]; [done|].
  rewrite filter_cons. by destruct (decide (P x)).
Qed.

(** X10.  Only the three working-tree flags lead to an action. When no change
    carries exactly GIT_STATUS_WT_NEW, GIT_STATUS_WT_MODIFIED or
    GIT_STATUS_WT_DELETED (index flags, or combined flags such as new and
    modified), the run removes nothing, imports nothing and reports no error. *)
Theorem apply_ignores_other_flags fuel export_path (changes : list change)
    exported committed (w : world remote) :
  Forall (fun c => c.2 ≠ GIT_STATUS_WT_NEW ∧ c.2 ≠ GIT_STATUS_WT_MODIFIED ∧
                   c.2 ≠ GIT_STATUS_WT_DELETED) changes →
  apply_changes remote confimport template_get fuel export_path changes
    exported committed w = Some (w, None).
Proof.
  intros Hall. unfold apply_changes. destruct changes as [|c cs]; [done|].
  rewrite (filter_none (fun c : change => c.2 = GIT_STATUS_WT_NEW)).
  2:{ eapply Forall_impl; [exact Hall|]. intros x (? & _). done. }
  rewrite (filter_none (fun c : change => c.2 = GIT_STATUS_WT_MODIFIED
                                         ∨ c.2 = GIT_STATUS_WT_DELETED)).
  2:{ eapply Forall_impl; [exact Hall|]. intros x (_ & ? & ?) [?|?]; done. }
  done.
Qed.

End ApplyRun.

(** A file that is new and modified in the working tree at once. *)
Lemma apply_ignores_other_flags_combined :
  apply_changes simple_remote simple_confimport simple_template_get 0
    "/tmp/repository" [("grp/T.json", 384%Z)] exported_T ∅ world_T
  = Some (world_T, None).
Proof.
  apply (apply_ignores_other_flags simple_remote simple_confimport
           simple_template_get).
  repeat constructor; vm_compute; discriminate.
Defined.

(** ** The names handed to [template.get] *)

(** The update of the dictionary [templates] by one template. *)
Lemma read_names_step_keys (f : string) (acc : list (string * string)) (t : template) :
  (if decide (tpl_name t ∈ acc.*1)
   then (fun kv : string * string =>
           if decide (kv.1 = tpl_name t) then (kv.1, f) else kv) <$> acc
   else acc ++ [(tpl_name t, f)]).*1
  = if decide (tpl_name t ∈ acc.*1) then acc.*1 else acc.*1 ++ [tpl_name t].
Proof.
  destruct (decide (tpl_name t ∈ acc.*1)).
  - rewrite <- list_fmap_compose. apply list_fmap_ext.
    intros i [k v] _. simpl. by destruct (decide (k = tpl_name t)).
  - by rewrite fmap_app.
Qed.

Lemma read_names_file_spec (f : string) tpls (acc : list (string * string)) :
  let acc' :=
    foldl (fun acc t =>
             if decide (tpl_name t ∈ acc.*1)
             then (fun kv : string * string =>
                     if decide (kv.1 = tpl_name t) then (kv.1, f) else kv) <$> acc
             else acc ++ [(tpl_name t, f)]) acc tpls in
  NoDup acc.*1 →
  NoDup acc'.*1 ∧
  ∀ n, n ∈ acc'.*1 ↔ n ∈ acc.*1 ∨ ∃ t, t ∈ tpls ∧ tpl_name t = n.
Proof.
  revert acc. induction tpls as [|t tpls IH]; intros acc; simpl; intros Hnd.
  - split; [done|]. intros n. split; [by left|].
    intros [?|(t & ?%elem_of_nil & _)]; done.
  - match goal with |- NoDup (foldl _ ?a _).*1 ∧ _ => set (acc1 := a) end.
    assert (acc1.*1 = if decide (tpl_name t ∈ acc.*1) then acc.*1
                      else acc.*1 ++ [tpl_name t]) as Hkeys
      by apply read_names_step_keys.
    assert (NoDup acc1.*1) as Hnd1.
    { rewrite Hkeys. destruct (decide (tpl_name t ∈ acc.*1)); [done|].
      apply NoDup_app. split_and!; [done| |apply NoDup_singleton].
      intros x Hx ->%list_elem_of_singleton. done. }
    destruct (IH acc1 Hnd1) as [Hnd' Hmem]. split; [done|].
    intros n. rewrite Hmem, Hkeys. split.
    + intros [Hn|(t' & Ht' & <-)].
      * destruct (decide (tpl_name t ∈ acc.*1)); [by left|].
        apply elem_of_app in Hn as [?|Hn]; [by left|].
        apply list_elem_of_singleton in Hn as ->.
        right. exists t. split; [apply list_elem_of_here|done].
      * right. exists t'. split; [by apply list_elem_of_further|done].
    + intros [Hn|(t' & [->|Ht']%elem_of_cons & <-)].
      * left. destruct (decide (tpl_name t ∈ acc.*1)); [done|].
        apply elem_of_app. by left.
      * left. destruct (decide (tpl_name t ∈ acc.*1)); [done|].
        apply elem_of_app. right. by apply list_elem_of_singleton.
      * right. eauto.
Qed.

Lemma read_names_spec fs files (acc templates : list (string * string)) :
  read_names fs files acc = Ok templates → NoDup acc.*1 →
  NoDup templates.*1 ∧
  ∀ n, n ∈ templates.*1 ↔
       n ∈ acc.*1 ∨ ∃ f tpls t, f ∈ files ∧ fs !! f = Some tpls ∧
                               t ∈ tpls ∧ tpl_name t = n.
Proof.
  revert acc. induction files as [|f0 files IH]; intros acc Hr Hnd; simpl in Hr.
  - injection Hr as ->. split; [done|]. intros n. split; [by left|].
    intros [?|(? & ? & ? & ?%elem_of_nil & _)]; done.
  - destruct (fs !! f0) as [tpls0|] eqn:Hf0; [|done].
    destruct (read_names_file_spec f0 tpls0 acc Hnd) as [Hnd1 Hmem1].
    destruct (IH _ Hr Hnd1) as [Hnd' Hmem]. split; [done|].
    intros n. rewrite Hmem, Hmem1. split.
    + intros [[?|(t & Ht & <-)]|(f & tpls & t & Hf & Hfs & Ht & <-)].
      * by left.
      * right. exists f0, tpls0, t. split_and!; [apply list_elem_of_here|done..].
      * right. exists f, tpls, t. split_and!; [by apply list_elem_of_further|done..].
    + intros [?|(f & tpls & t & [->|Hf]%elem_of_cons & Hfs & Ht & <-)].
      * left. by left.
      * rewrite Hf0 in Hfs. injection Hfs as <-. left. right. eauto.
      * right. exists f, tpls, t. done.
Qed.

(** X11.  When the removal function returns without exception it has asked the
    remote system once, for the names of the templates in the given files: every
    such name is in the request and no name is in it twice. *)
Theorem removal_looks_up_each_name_once (remote : Type) template_get
    (fs : file_system) files (w w' : world remote) :
  zabbix_remove_templates remote template_get fs files w = (w', None) →
  ∃ names,
    calls w' = calls w ++ [TemplateGet names] ∧
    NoDup names ∧
    ∀ n, n ∈ names ↔ ∃ f tpls t, f ∈ files ∧ fs !! f = Some tpls ∧
                                  t ∈ tpls ∧ tpl_name t = n.
Proof.
  unfold zabbix_remove_templates.
  destruct (read_names fs files []) as [templates|e] eqn:Hr; [|done].
  intros [= <-]. exists templates.*1.
  destruct (read_names_spec fs files [] templates Hr (NoDup_nil_2)) as [Hnd Hmem].
  split_and!; [done..|].
  intros n. rewrite Hmem. split; [|by right].
  intros [?%elem_of_nil|?]; done.
Qed.

Lemma removal_looks_up_each_name_once_T :
  ∃ names,
    calls (zabbix_remove_templates simple_remote simple_template_get exported_T
             ["/tmp/repository/grp/T.json"] world_T).1
    = calls world_T ++ [TemplateGet names] ∧
    NoDup names ∧
    ∀ n, n ∈ names ↔
         ∃ f tpls t, f ∈ ["/tmp/repository/grp/T.json"] ∧
                     exported_T !! f = Some tpls ∧ t ∈ tpls ∧ tpl_name t = n.
Proof.
  apply (removal_looks_up_each_name_once simple_remote simple_template_get
           exported_T ["/tmp/repository/grp/T.json"] world_T).
  vm_compute. reflexivity.
Defined.

End ZabbixMore.

(* ===================================================================== *)
(** * Properties of the file lookup and of the git user *)
(* ===================================================================== *)

Module ConfigProofs.
Import Python Exporter Config NarratorProofs.

Lemma path_join_nonempty (a b : string) : a ≠ "" → path_join a b ≠ "".
Proof.
  intros Ha. unfold path_join.
  destruct (isabs b) eqn:Hb; [by destruct b|].
  destruct (decide (a = "")); [done|].
  destruct a as [|c a]; [done|]. by destruct (is_sep _).
Qed.

(** X12.  [find_file] never raises its "Unable to find file": when the path is
    no file, neither as given nor made absolute, the path joined to the
    directory of the script is returned, whether or not such a file exists. *)
Theorem find_file_never_raises (isfile : string → bool)
    (abspath : string → string) (script_dir path : string) :
  script_dir ≠ "" →
  ∃ fullpath,
    find_file isfile abspath script_dir path = Ok fullpath ∧
    (isfile path = false → isfile (abspath path) = false →
     fullpath = path_join script_dir path).
Proof.
  intros Hdir. unfold find_file.
  destruct (isfile path); [by eexists|].
  destruct (isfile (abspath path)); [by eexists|].
  destruct (decide (path_join script_dir path ≠ "")) as [|Hn]; [by eexists|].
  exfalso. apply Hn. by apply path_join_nonempty.
Qed.

(** Nothing is a file anywhere, and a path comes back all the same. *)
Lemma find_file_never_raises_nothing_there :
  ∃ fullpath,
    find_file (fun _ => false) (fun p => "/cwd/" +:+ p) "/opt/zbxtpltools" "id_rsa"
    = Ok fullpath ∧
    (false = false → false = false →
     fullpath = path_join "/opt/zbxtpltools" "id_rsa").
Proof.
  apply (find_file_never_raises (fun _ => false) (fun p => "/cwd/" +:+ p)
           "/opt/zbxtpltools" "id_rsa").
  discriminate.
Defined.

(** ** The user of the git URL *)

Lemma strip_prefix_app (p r : string) : strip_prefix p (p +:+ r) = Some r.
Proof.
  induction p as [|a p IH]; [done|].
  rewrite string_app_cons. simpl. by rewrite Ascii.eqb_refl.
Qed.

Lemma strip_prefix_Some (p s r : string) :
  strip_prefix p s = Some r → s = p +:+ r.
Proof.
  revert s. induction p as [|a p IH]; intros s; simpl.
  - by intros [= ->].
  - destruct s as [|b s]; [done|].
    destruct (Ascii.eqb a b) eqn:Hab; [|done].
    apply Ascii.eqb_eq in Hab as ->. intros ->%IH. by rewrite string_app_cons.
Qed.

Lemma take_user_app (u rest : string) :
  all_user_chars u = true →
  (rest = "" ∨ ∃ c r, rest = String c r ∧ user_char c = false) →
  take_user (u +:+ rest) = u.
Proof.
  intros Hu Hrest. induction u as [|c u IH].
  - change ("" +:+ rest) with rest.
    destruct Hrest as [->|(c & r & -> & Hc)]; [done|]. simpl. by rewrite Hc.
  - simpl in Hu. apply andb_true_iff in Hu as [Hc Hu].
    rewrite string_app_cons. simpl. by rewrite Hc, IH.
Qed.

Lemma match_scheme_app (scheme u rest : string) :
  u ≠ "" → all_user_chars u = true →
  (rest = "" ∨ ∃ c r, rest = String c r ∧ user_char c = false) →
  match_scheme scheme (scheme +:+ "://" +:+ u +:+ rest) = Some u.
Proof.
  intros Hne Hu Hrest. unfold match_scheme.
  rewrite <- string_app_assoc, strip_prefix_app, take_user_app by done.
  by destruct (decide (u = "")).
Qed.

Lemma search_here (s u : string) : match_here s = Some u → search s = Some u.
Proof. intros Hh. destruct s; unfold search; fold search; by rewrite Hh. Qed.

(** X13.  For a URL that starts with [http://], [https://] or [ssh://], GIT_USER
    is the text that follows, up to the first of [@ ? / :] or the end of the
    URL: the user name when there is one, the host name otherwise. *)
Theorem git_user_is_text_after_scheme (scheme u rest : string) :
  scheme ∈ ["http"; "https"; "ssh"] →
  u ≠ "" → all_user_chars u = true →
  (rest = "" ∨ ∃ c r, rest = String c r ∧ user_char c = false) →
  git_user (scheme +:+ "://" +:+ u +:+ rest) = Ok u.
Proof.
  intros Hs Hne Hu Hrest.
  pose proof (match_scheme_app scheme u rest Hne Hu Hrest) as Hm.
  unfold git_user.
  assert (match_here (scheme +:+ "://" +:+ u +:+ rest) = Some u) as Hh.
  { unfold match_here.
    apply elem_of_cons in Hs as [->|Hs]; [|apply elem_of_cons in Hs as [->|Hs]].
    - assert (match_scheme "https" ("http" +:+ "://" +:+ u +:+ rest) = None)
        as -> by reflexivity.
      by rewrite Hm.
    - by rewrite Hm.
    - apply list_elem_of_singleton in Hs as ->.
      assert (match_scheme "https" ("ssh" +:+ "://" +:+ u +:+ rest) = None)
        as -> by reflexivity.
      assert (match_scheme "http" ("ssh" +:+ "://" +:+ u +:+ rest) = None)
        as -> by reflexivity.
      by rewrite Hm. }
  by rewrite (search_here _ _ Hh).
Qed.

(** A URL without user part: the host name is taken. *)
Lemma git_user_is_text_after_scheme_host :
  git_user ("https" +:+ "://" +:+ "git.example.org" +:+ "/zabbix/templates.git")
  = Ok "git.example.org".
Proof.
  apply (git_user_is_text_after_scheme "https" "git.example.org"
           "/zabbix/templates.git").
  - apply list_elem_of_further, list_elem_of_here.
  - discriminate.
  - reflexivity.
  - right. exists "/"%char, "zabbix/templates.git". split; reflexivity.
Defined.

Lemma strip_prefix_prefix (p s r : string) :
  strip_prefix p s = Some r → Stdlib.Strings.String.prefix p s = true.
Proof.
  revert s. induction p as [|a p IH]; intros s; simpl.
  - intros _. by destruct s.
  - destruct s as [|b s]; [done|].
    destruct (Ascii.eqb a b) eqn:Hab; [|done].
    apply Ascii.eqb_eq in Hab as ->. intros Hp%IH.
    simpl. destruct (ascii_dec b b) as [_|Hbb]; [exact Hp|by destruct Hbb].
Qed.

Lemma prefix_app_contains (a p s : string) :
  Stdlib.Strings.String.prefix (a +:+ p) s = true → contains p s = true.
Proof.
  revert s. induction a as [|c a IH]; intros s.
  - change ("" +:+ p) with p. intros Hp.
    destruct s; cbn [contains]; by rewrite Hp.
  - rewrite string_app_cons. destruct s as [|b s]; [done|].
    cbn [Stdlib.Strings.String.prefix].
    destruct (ascii_dec c b); [|done]. intros Hp%IH.
    cbn [contains]. rewrite Hp. apply orb_true_r.
Qed.

Lemma match_scheme_contains (scheme s u : string) :
  match_scheme scheme s = Some u → contains "://" s = true.
Proof.
  unfold match_scheme.
  destruct (strip_prefix (scheme +:+ "://") s) as [rest|] eqn:Hp; [|done].
  intros _. by apply strip_prefix_prefix, prefix_app_contains in Hp.
Qed.

Lemma match_here_contains (s u : string) :
  match_here s = Some u → contains "://" s = true.
Proof.
  unfold match_here.
  destruct (match_scheme "https" s) eqn:H1; [intros _; by eapply match_scheme_contains|].
  destruct (match_scheme "http" s) eqn:H2; [intros _; by eapply match_scheme_contains|].
  apply match_scheme_contains.
Qed.

Lemma search_contains (s u : string) :
  search s = Some u → contains "://" s = true.
Proof.
  induction s as [|c s IH]; cbn [search].
  - destruct (match_here "") eqn:Hh; [|done]. intros _.
    by apply match_here_contains in Hh.
  - destruct (match_here (String c s)) eqn:Hh.
    + intros _. by apply match_here_contains in Hh.
    + intros Hs%IH. cbn [contains]. rewrite Hs. apply orb_true_r.
Qed.

(** X14.  Without [://] in the URL there is no GIT_USER: the line that computes
    it raises [AttributeError]. *)
Theorem git_user_needs_scheme (git_url : string) :
  contains "://" git_url = false → git_user git_url = Raise AttributeError.
Proof.
  intros Hc. unfold git_user. destruct (search git_url) as [u|] eqn:Hs; [|done].
  apply search_contains in Hs. congruence.
Qed.

(** The short form of an ssh address. *)
Lemma git_user_needs_scheme_scp :
  git_user "git@git.example.org:zabbix/templates.git" = Raise AttributeError.
Proof.
  apply (git_user_needs_scheme "git@git.example.org:zabbix/templates.git").
  vm_compute. reflexivity.
Defined.

End ConfigProofs.

(* ===================================================================== *)
(** * Properties of the clone and of the publish run *)
(* ===================================================================== *)

Module GitCloneProofs.
Import Python Narrator Git GitClone NarratorProofs.

Lemma change_lines_Raise (changes : list change) acc e :
  change_lines changes acc = Raise e → ∃ k, e = KeyError k.
Proof.
  revert acc. induction changes as [|c rest IH]; intros acc; simpl; [done|].
  unfold change_line, getitem. destruct (status_str !! c.2); simpl.
  - apply IH.
  - intros [= <-]. eauto.
Qed.

(** The only exceptions of [construct_commit_msg] are [KeyError] and
    [ValueError]. *)
Lemma construct_commit_msg_Raise (changes : list change) e :
  construct_commit_msg changes = Raise e → (∃ k, e = KeyError k) ∨ e = ValueError.
Proof.
  unfold construct_commit_msg.
  destruct (headline changes) as [head|e'] eqn:Hhead; cbn [rbind].
  - intros Hr%change_lines_Raise. by left.
  - intros [= <-]. unfold headline in Hhead.
    destruct changes as [|c0 [|c1 rest]]; try done.
    destruct (one_status (c0 :: c1 :: rest)).
    + destruct (getitem status_str2 c0.2) as [word|e0] eqn:Hg; cbn [rbind] in Hhead.
      * change ((c0 :: c1 :: rest).*1) with (c0.1 :: (c1 :: rest).*1) in Hhead.
        destruct (commonpath_cases c0.1 ((c1 :: rest).*1))
          as [(cp & Hcp & _)|[Hcp _]]; rewrite Hcp in Hhead; cbn [rbind] in Hhead;
          [done|]. injection Hhead as <-. by right.
      * injection Hhead as <-. apply getitem_Raise in Hg as [_ ->]. left. eauto.
    + cbn [rbind] in Hhead.
      change ((c0 :: c1 :: rest).*1) with (c0.1 :: (c1 :: rest).*1) in Hhead.
      destruct (commonpath_cases c0.1 ((c1 :: rest).*1))
        as [(cp & Hcp & _)|[Hcp _]]; rewrite Hcp in Hhead; cbn [rbind] in Hhead;
        [done|]. injection Hhead as <-. by right.
Qed.

(** After [git_clone_repo] the name GIT_BRANCH is in [repo.branches], so the
    checkout finds its branch. *)
Lemma git_clone_repo_branches GIT_BRANCH repo :
  is_Some (branches_get (git_clone_repo GIT_BRANCH repo) GIT_BRANCH).
Proof.
  unfold git_clone_repo.
  destruct (branches_get repo GIT_BRANCH) eqn:Hb; [by rewrite Hb|].
  destruct (branches_get repo ("origin/" +:+ GIT_BRANCH));
    unfold branches_get; simpl; rewrite lookup_insert_eq; eauto.
Qed.

(** The local branch is there afterwards unless GIT_BRANCH names a
    remote-tracking branch only. *)
Lemma git_clone_repo_local GIT_BRANCH repo :
  is_Some (local_branches repo !! GIT_BRANCH) ∨
  remote_branches repo !! GIT_BRANCH = None →
  is_Some (local_branches (git_clone_repo GIT_BRANCH repo) !! GIT_BRANCH).
Proof.
  intros Hor. unfold git_clone_repo, branches_get.
  destruct (local_branches repo !! GIT_BRANCH) as [b|] eqn:Hl.
  { rewrite Hl. eauto. }
  destruct Hor as [[? ?]| ->]; [done|].
  destruct (match local_branches repo !! ("origin/" +:+ GIT_BRANCH) with
            | Some b => Some b
            | None => remote_branches repo !! ("origin/" +:+ GIT_BRANCH)
            end); simpl; rewrite lookup_insert_eq; eauto.
Qed.

(** X15.  In the publish run the commit is made on a repository that went
    through [git_clone_repo].  When GIT_BRANCH is a local branch of the clone
    or is not the name of a remote-tracking branch, the local branch exists
    afterwards, whatever else the clone looked like and whatever is staged:
    [git_commit_and_push] does not fail on a missing branch, its exception
    is never the [AttributeError] of [branch.target]. *)
Theorem publish_after_clone_has_branch GIT_BRANCH accepted repo st treeoid :
  is_Some (local_branches repo !! GIT_BRANCH) ∨
  remote_branches repo !! GIT_BRANCH = None →
  (git_commit_and_push accepted
     (staged GIT_BRANCH st treeoid (git_clone_repo GIT_BRANCH repo))).2
  ≠ Some AttributeError.
Proof.
  intros Hor. unfold git_commit_and_push.
  destruct (pending_changes _) as [|c cs]; [done|].
  destruct (construct_commit_msg (c :: cs)) as [msg|e] eqn:Hmsg; simpl.
  - destruct (git_clone_repo_local GIT_BRANCH repo Hor) as [target Ht].
    rewrite Ht. unfold push. by destruct accepted.
  - apply construct_commit_msg_Raise in Hmsg as [[k ->]| ->]; done.
Qed.

(** The clone of an empty repository, with one added file staged. *)
Lemma publish_after_clone_has_branch_empty :
  (git_commit_and_push true
     (staged "master" [("grp/a.json", GIT_STATUS_INDEX_NEW)] 7
        (git_clone_repo "master" empty_clone))).2
  ≠ Some AttributeError.
Proof.
  apply (publish_after_clone_has_branch "master" true empty_clone
           [("grp/a.json", GIT_STATUS_INDEX_NEW)] 7).
  right. vm_compute. reflexivity.
Defined.

(** X26.  When GIT_BRANCH is the name of a remote-tracking branch and of no
    local branch (such as [origin/master]), [git_clone_repo] finds it in
    [repo.branches] and creates no local branch; the commit step then looks
    for a local branch in vain: with changes staged for which there is a
    commit message, [git_commit_and_push] raises the [AttributeError] of
    [branch.target] and makes no commit. *)
Theorem publish_on_remote_branch_name_fails GIT_BRANCH accepted repo st
    treeoid msg :
  local_branches repo !! GIT_BRANCH = None →
  is_Some (remote_branches repo !! GIT_BRANCH) →
  Exists (fun c => c.2 ≠ GIT_STATUS_CURRENT) st →
  construct_commit_msg (filter (fun c => c.2 ≠ GIT_STATUS_CURRENT) st) = Ok msg →
  git_clone_repo GIT_BRANCH repo = repo ∧
  git_commit_and_push accepted (staged GIT_BRANCH st treeoid repo)
  = (staged GIT_BRANCH st treeoid repo, Some AttributeError).
Proof.
  intros Hl [t Hr] Hex Hmsg.
  assert (git_clone_repo GIT_BRANCH repo = repo) as Hclone.
  { unfold git_clone_repo, branches_get. by rewrite Hl, Hr. }
  split; [done|]. unfold git_commit_and_push, pending_changes.
  cbn [status staged]. rewrite Hmsg.
  destruct (filter _ st) as [|c cs] eqn:Hf.
  - apply Exists_exists in Hex as (c & Hin & Hc).
    assert (c ∈ filter (fun c : change => c.2 ≠ GIT_STATUS_CURRENT) st) as Hc'
      by by apply list_elem_of_filter.
    rewrite Hf in Hc'. by apply elem_of_nil in Hc'.
  - cbn [branch staged]. by rewrite Hl.
Qed.

(** GIT_BRANCH set to [origin/master] on a clone of a repository with a
    [master] branch. *)
Lemma publish_on_remote_branch_name_fails_origin_master :
  git_clone_repo "origin/master" master_clone = master_clone ∧
  git_commit_and_push true
    (staged "origin/master" [("grp/a.json", GIT_STATUS_INDEX_NEW)] 7 master_clone)
  = (staged "origin/master" [("grp/a.json", GIT_STATUS_INDEX_NEW)] 7 master_clone,
     Some AttributeError).
Proof.
  apply (publish_on_remote_branch_name_fails "origin/master" true master_clone
           [("grp/a.json", GIT_STATUS_INDEX_NEW)] 7
           ("Added a" +:+ nl)).
  - vm_compute. reflexivity.
  - vm_compute. eauto.
  - apply Exists_cons_hd. vm_compute. discriminate.
  - vm_compute. reflexivity.
Defined.

End GitCloneProofs.

(* ===================================================================== *)
(** * Properties of the merge of export files *)
(* ===================================================================== *)

Module MergeProofs.
Import Python Merge.

Section DocumentProofs.

Context {J : Type} `{EqDecision J}.

Lemma section_Ok name (o : option (list J)) l :
  section name o = Ok l ↔ o = Some l.
Proof. destruct o; simpl; split; try done; by intros [= ->]. Qed.

(** One merge step succeeds exactly on two objects that have the key and all
    four lists, and says what the lists become. *)
Lemma merge_into_Ok (merged d m' : json_doc J) :
  merge_into merged d = Ok m' →
  ∃ me te mg tg mt tt mr tr mv tv,
    merged = Export me ∧ d = Export te ∧
    doc_groups me = Some mg ∧ doc_groups te = Some tg ∧
    doc_templates me = Some mt ∧ doc_templates te = Some tt ∧
    doc_triggers me = Some mr ∧ doc_triggers te = Some tr ∧
    doc_value_maps me = Some mv ∧ doc_value_maps te = Some tv ∧
    m' = Export {| doc_groups := Some (mg ++ filter (fun g => g ∉ mg) tg);
                   doc_templates := Some (mt ++ tt);
                   doc_triggers := Some (mr ++ tr);
                   doc_value_maps := Some (mv ++ filter (fun v => v ∉ mv) tv) |}.
Proof.
  unfold merge_into.
  destruct merged as [?|me]; [done|]. cbn [zabbix_export rbind].
  destruct (doc_groups me) as [mg|] eqn:Hmg; [|done]. cbn [section rbind].
  destruct d as [?|te]; [done|]. cbn [zabbix_export rbind].
  destruct (doc_groups te) as [tg|] eqn:Htg; [|done].
  destruct (doc_templates me) as [mt|] eqn:Hmt; [|done].
  destruct (doc_templates te) as [tt|] eqn:Htt; [|done].
  destruct (doc_triggers me) as [mr|] eqn:Hmr; [|done].
  destruct (doc_triggers te) as [tr|] eqn:Htr; [|done].
  destruct (doc_value_maps me) as [mv|] eqn:Hmv; [|done].
  destruct (doc_value_maps te) as [tv|] eqn:Htv; [|done].
  cbn [section rbind]. intros [= <-].
  exists me, te, mg, tg, mt, tt, mr, tr, mv, tv. by split_and!.
Qed.

Lemma lacks_not_complete (d : export_doc J) name : lacks d name → ¬ complete d.
Proof.
  intros (f & Hf & Hnone) (Hg & Ht & Hr & Hv). unfold sections in Hf.
  repeat (apply elem_of_cons in Hf as [[= _ ->]|Hf];
          [rewrite Hnone in *; by eapply is_Some_None|]).
  by apply elem_of_nil in Hf.
Qed.

(** The step on an object that lacks a section raises the [KeyError] of a
    section that one of the two lacks. *)
Lemma merge_into_incomplete (me te : export_doc J) :
  ¬ complete me ∨ ¬ complete te →
  ∃ name d, (d = me ∨ d = te) ∧ lacks d name ∧
            merge_into (Export me) (Export te) = Raise (KeyError (KStr name)).
Proof.
  unfold complete, merge_into. cbn [zabbix_export rbind]. intros Hinc.
  assert (∀ name f (d : export_doc J),
            (name, f) ∈ sections → f d = None → lacks d name) as Hl.
  { intros name f d Hin Hn. by exists f. }
  destruct (doc_groups me) as [mg|] eqn:Hmg;
    [|exists "groups", me; split_and!; [by left| |done];
      apply (Hl _ doc_groups); [apply list_elem_of_here|done]].
  destruct (doc_groups te) as [tg|] eqn:Htg;
    [|exists "groups", te; split_and!; [by right| |done];
      apply (Hl _ doc_groups); [apply list_elem_of_here|done]].
  destruct (doc_templates me) as [mt|] eqn:Hmt;
    [|exists "templates", me; split_and!; [by left| |done];
      apply (Hl _ doc_templates);
        [apply list_elem_of_further, list_elem_of_here|done]].
  destruct (doc_templates te) as [tt|] eqn:Htt;
    [|exists "templates", te; split_and!; [by right| |done];
      apply (Hl _ doc_templates);
        [apply list_elem_of_further, list_elem_of_here|done]].
  destruct (doc_triggers me) as [mr|] eqn:Hmr;
    [|exists "triggers", me; split_and!; [by left| |done];
      apply (Hl _ doc_triggers);
        [do 2 apply list_elem_of_further; apply list_elem_of_here|done]].
  destruct (doc_triggers te) as [tr|] eqn:Htr;
    [|exists "triggers", te; split_and!; [by right| |done];
      apply (Hl _ doc_triggers);
        [do 2 apply list_elem_of_further; apply list_elem_of_here|done]].
  destruct (doc_value_maps me) as [mv|] eqn:Hmv;
    [|exists "value_maps", me; split_and!; [by left| |done];
      apply (Hl _ doc_value_maps);
        [do 3 apply list_elem_of_further; apply list_elem_of_here|done]].
  destruct (doc_value_maps te) as [tv|] eqn:Htv;
    [|exists "value_maps", te; split_and!; [by right| |done];
      apply (Hl _ doc_value_maps);
        [do 3 apply list_elem_of_further; apply list_elem_of_here|done]].
  exfalso. destruct Hinc as [Hn|Hn]; apply Hn; split_and!; eauto.
Qed.

Lemma merge_into_complete (merged d m' : json_doc J) :
  merge_into merged d = Ok m' → ∃ m, m' = Export m ∧ complete m.
Proof.
  intros (me & te & mg & tg & mt & tt & mr & tr & mv & tv &
          _ & _ & _ & _ & _ & _ & _ & _ & _ & _ & ->)%merge_into_Ok.
  eexists. split; [done|]. unfold complete. simpl. split_and!; eauto.
Qed.

Lemma filter_not_in_NoDup (l1 l2 : list J) :
  NoDup l1 → NoDup l2 → NoDup (l1 ++ filter (fun x => x ∉ l1) l2).
Proof.
  intros H1 H2. apply NoDup_app. split_and!; [done| |by apply NoDup_filter].
  intros x Hx Hf. by apply list_elem_of_filter in Hf as [? _].
Qed.

Lemma elem_of_app_filter (l1 l2 : list J) x :
  x ∈ l1 ++ filter (fun y => y ∉ l1) l2 ↔ x ∈ l1 ∨ x ∈ l2.
Proof.
  rewrite elem_of_app, list_elem_of_filter. split; [tauto|].
  intros [?|?]; [by left|]. destruct (decide (x ∈ l1)); [by left|by right].
Qed.

(** What the loop has done when it ends well, started on [merged] with the
    documents [docs] still to come. *)
Lemma merge_loop_Some fs files (docs : list (export_doc J)) merged m :
  Forall2 (fun f d => fs !! f = Some (Export d)) files docs →
  merge_loop fs files (Some (Export merged)) = Ok (Some (Export m)) →
  (∀ g, in_section doc_groups m g ↔
        in_section doc_groups merged g ∨ ∃ d, d ∈ docs ∧ in_section doc_groups d g) ∧
  (∀ v, in_section doc_value_maps m v ↔
        in_section doc_value_maps merged v
        ∨ ∃ d, d ∈ docs ∧ in_section doc_value_maps d v) ∧
  ((∀ l, doc_groups merged = Some l → NoDup l) →
   (∀ d l, d ∈ docs → doc_groups d = Some l → NoDup l) →
   ∀ l, doc_groups m = Some l → NoDup l) ∧
  (∀ l0 ls, doc_templates merged = Some l0 →
            mapM doc_templates docs = Some ls →
            doc_templates m = Some (l0 ++ concat ls)) ∧
  (∀ l0 ls, doc_triggers merged = Some l0 →
            mapM doc_triggers docs = Some ls →
            doc_triggers m = Some (l0 ++ concat ls)).
Proof.
  intros Hread. revert merged. induction Hread as [|f d files docs Hf _ IH];
    intros merged; cbn [merge_loop].
  - intros [= ->]. split_and!.
    + intros g. split; [by left|]. by intros [?|(? & ?%elem_of_nil & _)].
    + intros g. split; [by left|]. by intros [?|(? & ?%elem_of_nil & _)].
    + auto.
    + intros l0 ls Hl0 [= <-]. by rewrite app_nil_r.
    + intros l0 ls Hl0 [= <-]. by rewrite app_nil_r.
  - rewrite Hf. cbn [truthy].
    destruct (merge_into (Export merged) (Export d)) as [m1|] eqn:Hm1; [|done].
    cbn [rbind]. intros Hloop.
    apply merge_into_Ok in Hm1
      as (me & te & mg & tg & mt & tt & mr & tr & mv & tv & [= <-] & [= <-] &
          Hmg & Htg & Hmt & Htt & Hmr & Htr & Hmv & Htv & ->).
    destruct (IH _ Hloop) as (Hg & Hv & Hnd & Ht & Hr).
    split_and!.
    + intros g. rewrite Hg. unfold in_section at 2 3. simpl. rewrite Hmg. split.
      * intros [(l & [= <-] & Hin)|(d' & Hd' & Hin)].
        -- apply elem_of_app_filter in Hin as [?|?].
           ++ left. eauto.
           ++ right. exists d. split; [apply list_elem_of_here|].
              exists tg. done.
        -- right. exists d'. split; [by apply list_elem_of_further|done].
      * intros [(l & [= <-] & Hin)|(d' & [->|Hd']%elem_of_cons & Hin)].
        -- left. eexists. split; [done|]. apply elem_of_app_filter. by left.
        -- left. destruct Hin as (l & Hl & Hin). rewrite Htg in Hl.
           injection Hl as <-. eexists. split; [done|].
           apply elem_of_app_filter. by right.
        -- right. eauto.
    + intros g. rewrite Hv. unfold in_section at 2 3. simpl. rewrite Hmv. split.
      * intros [(l & [= <-] & Hin)|(d' & Hd' & Hin)].
        -- apply elem_of_app_filter in Hin as [?|?].
           ++ left. eauto.
           ++ right. exists d. split; [apply list_elem_of_here|].
              exists tv. done.
        -- right. exists d'. split; [by apply list_elem_of_further|done].
      * intros [(l & [= <-] & Hin)|(d' & [->|Hd']%elem_of_cons & Hin)].
        -- left. eexists. split; [done|]. apply elem_of_app_filter. by left.
        -- left. destruct Hin as (l & Hl & Hin). rewrite Htv in Hl.
           injection Hl as <-. eexists. split; [done|].
           apply elem_of_app_filter. by right.
        -- right. eauto.
    + intros Hnd0 Hnds. apply Hnd.
      * simpl. intros l [= <-]. apply filter_not_in_NoDup; [by apply Hnd0|].
        apply (Hnds d); [apply list_elem_of_here|done].
      * intros d' l Hd'. apply Hnds. by apply list_elem_of_further.
    + intros l0 ls Hl0 Hls. rewrite Hmt in Hl0. injection Hl0 as <-.
      cbn in Hls. rewrite Htt in Hls. cbn in Hls.
      destruct (mapM doc_templates docs) as [ls'|] eqn:Hls'; [|done].
      cbn in Hls. injection Hls as <-. simpl.
      rewrite (Ht (mt ++ tt) ls' eq_refl eq_refl). by rewrite <- app_assoc.
    + intros l0 ls Hl0 Hls. rewrite Hmr in Hl0. injection Hl0 as <-.
      cbn in Hls. rewrite Htr in Hls. cbn in Hls.
      destruct (mapM doc_triggers docs) as [ls'|] eqn:Hls'; [|done].
      cbn in Hls. injection Hls as <-. simpl.
      rewrite (Hr (mr ++ tr) ls' eq_refl eq_refl). by rewrite <- app_assoc.
Qed.

Lemma merge_into_total (me te : export_doc J) :
  complete me → complete te →
  ∃ m', merge_into (Export me) (Export te) = Ok (Export m') ∧ complete m'.
Proof.
  unfold complete, merge_into. cbn [zabbix_export rbind].
  intros ([mg ->] & [mt ->] & [mr ->] & [mv ->])
         ([tg ->] & [tt ->] & [tr ->] & [tv ->]).
  cbn [section rbind]. eexists. split; [done|]. simpl. split_and!; eauto.
Qed.

Lemma merge_loop_total fs files (docs : list (export_doc J)) merged :
  Forall2 (fun f d => fs !! f = Some (Export d)) files docs →
  complete merged → Forall complete docs →
  ∃ m, merge_loop fs files (Some (Export merged)) = Ok (Some (Export m)) ∧
       complete m.
Proof.
  intros Hread. revert merged.
  induction Hread as [|f d files docs Hf Hread IH]; intros merged Hm Hall.
  { by exists merged. }
  apply Forall_cons in Hall as [Hd Hall]. cbn [merge_loop truthy]. rewrite Hf.
  destruct (merge_into_total merged d Hm Hd) as (m' & Hm' & Hc'). rewrite Hm'.
  cbn [rbind]. by apply IH.
Qed.

Lemma complete_dec (d : export_doc J) : complete d ∨ ¬ complete d.
Proof.
  unfold complete.
  destruct (doc_groups d), (doc_templates d), (doc_triggers d), (doc_value_maps d);
    first [left; split_and!; by eauto
          |right; intros (? & ? & ? & ?); by (eapply is_Some_None; eauto)].
Qed.

(** The loop on documents of which one lacks a section stops with the
    [KeyError] of a section that one of them lacks. *)
Lemma merge_loop_incomplete fs files (docs : list (export_doc J)) merged :
  Forall2 (fun f d => fs !! f = Some (Export d)) files docs →
  docs ≠ [] →
  ¬ complete merged ∨ Exists (fun d => ¬ complete d) docs →
  ∃ name d, (d = merged ∨ d ∈ docs) ∧ lacks d name ∧
            merge_loop fs files (Some (Export merged))
            = Raise (KeyError (KStr name)).
Proof.
  intros Hread. revert merged.
  induction Hread as [|f d files docs Hf Hread IH]; intros merged Hne Hinc; [done|].
  cbn [merge_loop truthy]. rewrite Hf.
  assert (¬ complete merged ∨ ¬ complete d →
          ∃ name d0, (d0 = merged ∨ d0 ∈ d :: docs) ∧ lacks d0 name ∧
            rbind (merge_into (Export merged) (Export d))
                  (fun merged' => merge_loop fs files (Some merged'))
            = Raise (KeyError (KStr name))) as Hstep.
  { intros Hor. destruct (merge_into_incomplete merged d Hor)
      as (name & d0 & Hd0 & Hl & ->).
    exists name, d0. split_and!; [|done|done].
    destruct Hd0 as [->| ->]; [by left|right; apply list_elem_of_here]. }
  destruct (complete_dec merged) as [Hcm|Hnm]; [|apply Hstep; by left].
  destruct (complete_dec d) as [Hcd|Hnd]; [|apply Hstep; by right].
  destruct (merge_into_total merged d Hcm Hcd) as (m1 & Hm1 & Hc1). rewrite Hm1.
  cbn [rbind]. destruct Hinc as [?|Hex]; [done|].
  apply Exists_cons in Hex as [?|Hex]; [done|].
  destruct (IH m1) as (name & d0 & Hd0 & Hl & Hr).
  - intros ->. by apply Exists_nil in Hex.
  - by right.
  - exists name, d0. split_and!; [|done|done].
    destruct Hd0 as [->|Hin]; [by apply lacks_not_complete in Hl|].
    right. by apply list_elem_of_further.
Qed.

(** A first file that holds the empty object is dropped when another file
    follows. *)
Lemma merge_loop_empty (fs : gmap string (json_doc J)) files :
  files ≠ [] →
  merge_loop fs files (Some (NoExport true)) = merge_loop fs files None.
Proof. by destruct files. Qed.

(** ** Statements about the merge *)

(** X16.  No group and no value map is lost or invented by the merge: the merged
    lists hold exactly the entries of the files. When no file lists a group
    twice, the merged file does not either (a file that does is copied with its
    repetition). *)
Theorem merge_keeps_groups_and_value_maps fs files
    (docs : list (export_doc J)) m :
  Forall2 (fun f d => fs !! f = Some (Export d)) files docs →
  merge_templates fs files = Ok (Some (Export m)) →
  (∀ g, in_section doc_groups m g ↔ ∃ d, d ∈ docs ∧ in_section doc_groups d g) ∧
  (∀ v, in_section doc_value_maps m v ↔
        ∃ d, d ∈ docs ∧ in_section doc_value_maps d v) ∧
  ((∀ d l, d ∈ docs → doc_groups d = Some l → NoDup l) →
   ∀ l, doc_groups m = Some l → NoDup l).
Proof.
  intros Hread Hm. unfold merge_templates in Hm.
  destruct Hread as [|f d files docs Hf Hread]; [done|].
  cbn [merge_loop] in Hm. rewrite Hf in Hm.
  destruct (merge_loop_Some fs files docs d m Hread Hm) as (Hg & Hv & Hnd & _ & _).
  split_and!.
  - intros g. rewrite Hg. split.
    + intros [?|(d' & ? & ?)].
      * exists d. split; [apply list_elem_of_here|done].
      * exists d'. split; [by apply list_elem_of_further|done].
    + intros (d' & [->|?]%elem_of_cons & ?); [by left|right; eauto].
  - intros v. rewrite Hv. split.
    + intros [?|(d' & ? & ?)].
      * exists d. split; [apply list_elem_of_here|done].
      * exists d'. split; [by apply list_elem_of_further|done].
    + intros (d' & [->|?]%elem_of_cons & ?); [by left|right; eauto].
  - intros Hnds. apply Hnd.
    + intros l. apply Hnds, list_elem_of_here.
    + intros d' l Hd'. apply Hnds. by apply list_elem_of_further.
Qed.

(** X17.  Templates and triggers are never compared: the merged lists are the
    lists of the files one after the other, so an entry that is in two files is
    in the merged file twice. *)
Theorem merge_appends_templates_and_triggers fs files
    (docs : list (export_doc J)) m :
  Forall2 (fun f d => fs !! f = Some (Export d)) files docs →
  merge_templates fs files = Ok (Some (Export m)) →
  (∀ ls, mapM doc_templates docs = Some ls →
         doc_templates m = Some (concat ls)) ∧
  (∀ ls, mapM doc_triggers docs = Some ls →
         doc_triggers m = Some (concat ls)).
Proof.
  intros Hread Hm. unfold merge_templates in Hm.
  destruct Hread as [|f d files docs Hf Hread]; [done|].
  cbn [merge_loop] in Hm. rewrite Hf in Hm.
  destruct (merge_loop_Some fs files docs d m Hread Hm) as (_ & _ & _ & Ht & Hr).
  split.
  - intros ls Hls. cbn in Hls.
    destruct (doc_templates d) as [l0|] eqn:Hl0; [|done]. cbn in Hls.
    destruct (mapM doc_templates docs) as [ls'|] eqn:Hls'; [|done].
    cbn in Hls. injection Hls as <-. by apply Ht.
  - intros ls Hls. cbn in Hls.
    destruct (doc_triggers d) as [l0|] eqn:Hl0; [|done]. cbn in Hls.
    destruct (mapM doc_triggers docs) as [ls'|] eqn:Hls'; [|done].
    cbn in Hls. injection Hls as <-. by apply Hr.
Qed.

(** X18.  Two or more files that hold an export can only be merged when each
    of them has all four sections: if one of them lacks a section, the merge
    raises [KeyError] and writes nothing, and the key it names is one of
    groups, templates, triggers and value_maps, a section that one of the
    files lacks. *)
Theorem merge_needs_all_sections fs files (docs : list (export_doc J)) :
  Forall2 (fun f d => fs !! f = Some (Export d)) files docs →
  2 ≤ length docs →
  Exists (fun d => ¬ complete d) docs →
  ∃ name d,
    name ∈ ["groups"; "templates"; "triggers"; "value_maps"] ∧
    d ∈ docs ∧ lacks d name ∧
    merge_templates fs files = Raise (KeyError (KStr name)).
Proof.
  intros Hread Hlen Hex. unfold merge_templates.
  destruct Hread as [|f d files docs Hf Hread]; [simpl in Hlen; lia|].
  cbn [merge_loop]. rewrite Hf.
  destruct (merge_loop_incomplete fs files docs d Hread)
    as (name & d0 & Hd0 & Hl & Hr).
  - intros ->. simpl in Hlen. lia.
  - apply Exists_cons in Hex as [?|?]; [by left|by right].
  - exists name, d0. split_and!; [|by apply elem_of_cons|done|done].
    destruct Hl as (g & Hg & _). unfold sections in Hg.
    apply (list_elem_of_fmap_2 fst) in Hg. exact Hg.
Qed.

(** X19.  Files that all have the four sections are always merged: the merge of
    one or more such files raises nothing and writes a document that has the
    four sections again. *)
Theorem merge_of_complete_files fs files (docs : list (export_doc J)) :
  Forall2 (fun f d => fs !! f = Some (Export d)) files docs →
  docs ≠ [] → Forall complete docs →
  ∃ m, merge_templates fs files = Ok (Some (Export m)) ∧ complete m.
Proof.
  intros Hread Hne Hall. unfold merge_templates.
  destruct Hread as [|f d files docs Hf Hread]; [done|].
  apply Forall_cons in Hall as [Hd Hall]. cbn [merge_loop]. rewrite Hf.
  by apply (merge_loop_total fs files docs d).
Qed.

(** X25.  The test [not merged_template] also holds for an empty object: a
    first file that holds [{}] is dropped without a word when another file
    follows, and the merge gives what the other files alone give. *)
Theorem merge_drops_leading_empty_object (fs : gmap string (json_doc J))
    f files :
  fs !! f = Some (NoExport true) → files ≠ [] →
  merge_templates fs (f :: files) = merge_templates fs files.
Proof.
  intros Hf Hne. unfold merge_templates. cbn [merge_loop]. rewrite Hf.
  by apply merge_loop_empty.
Qed.

End DocumentProofs.

Lemma merge_keeps_groups_and_value_maps_two :
  ∃ m, merge_templates fs_docs ["one.json"; "two.json"] = Ok (Some (Export m)) ∧
       (∀ g, in_section doc_groups m g ↔
             ∃ d, d ∈ [doc_one; doc_two] ∧ in_section doc_groups d g) ∧
       (∀ v, in_section doc_value_maps m v ↔
             ∃ d, d ∈ [doc_one; doc_two] ∧ in_section doc_value_maps d v) ∧
       ((∀ d l, d ∈ [doc_one; doc_two] → doc_groups d = Some l → NoDup l) →
        ∀ l, doc_groups m = Some l → NoDup l).
Proof.
  eexists. split; [vm_compute; reflexivity|].
  apply (merge_keeps_groups_and_value_maps fs_docs ["one.json"; "two.json"]
           [doc_one; doc_two]).
  - repeat constructor.
  - vm_compute. reflexivity.
Defined.

Lemma merge_appends_templates_and_triggers_two :
  ∃ m, merge_templates fs_docs ["one.json"; "two.json"] = Ok (Some (Export m)) ∧
       (∀ ls, mapM doc_templates [doc_one; doc_two] = Some ls →
              doc_templates m = Some (concat ls)) ∧
       (∀ ls, mapM doc_triggers [doc_one; doc_two] = Some ls →
              doc_triggers m = Some (concat ls)).
Proof.
  eexists. split; [vm_compute; reflexivity|].
  apply (merge_appends_templates_and_triggers fs_docs ["one.json"; "two.json"]
           [doc_one; doc_two]).
  - repeat constructor.
  - vm_compute. reflexivity.
Defined.

Lemma merge_needs_all_sections_bare :
  ∃ name d,
    name ∈ ["groups"; "templates"; "triggers"; "value_maps"] ∧
    d ∈ [doc_one; doc_bare] ∧ lacks d name ∧
    merge_templates fs_docs ["one.json"; "bare.json"]
    = Raise (KeyError (KStr name)).
Proof.
  apply (merge_needs_all_sections fs_docs ["one.json"; "bare.json"]
           [doc_one; doc_bare]).
  - repeat constructor.
  - simpl. lia.
  - apply Exists_cons_tl, Exists_cons_hd.
    intros (_ & _ & [? Ht] & _). discriminate Ht.
Defined.

Lemma merge_of_complete_files_two :
  ∃ m, merge_templates fs_docs ["one.json"; "two.json"] = Ok (Some (Export m)) ∧
       complete m.
Proof.
  apply (merge_of_complete_files fs_docs ["one.json"; "two.json"]
           [doc_one; doc_two]).
  - repeat constructor.
  - discriminate.
  - repeat constructor; vm_compute; eauto.
Defined.

(** The empty object first, then the two export files. *)
Lemma merge_drops_leading_empty_object_two :
  merge_templates fs_docs ["empty.json"; "one.json"; "two.json"]
  = merge_templates fs_docs ["one.json"; "two.json"].
Proof.
  apply (merge_drops_leading_empty_object fs_docs "empty.json"
           ["one.json"; "two.json"]).
  - vm_compute. reflexivity.
  - discriminate.
Defined.

End MergeProofs.

(* ===================================================================== *)
(** * Properties of the export and of the file names *)
(* ===================================================================== *)

Module ExporterProofs.
Import Python Narrator Exporter NarratorProofs.

(** ** Names of files and names in the commit message *)

Lemma rfind_no_sep (b : string) : has_sep b = false → rfind_sep_succ b = 0.
Proof.
  induction b as [|c b IH]; simpl; [done|].
  intros [Hc Hb]%orb_false_iff. by rewrite (IH Hb), Hc.
Qed.

Lemma rfind_app (a b : string) :
  has_sep b = false → rfind_sep_succ (a +:+ b) = rfind_sep_succ a.
Proof.
  intros Hb. induction a as [|c a IH].
  - change ("" +:+ b) with b. by rewrite rfind_no_sep.
  - rewrite string_app_cons. simpl. by rewrite IH.
Qed.

Lemma rfind_le_length (a : string) :
  rfind_sep_succ a ≤ Stdlib.Strings.String.length a.
Proof.
  induction a as [|c a IH]; simpl; [done|].
  destruct (rfind_sep_succ a); [destruct (is_sep c)|]; lia.
Qed.

Lemma string_drop_app n (a b : string) :
  n ≤ Stdlib.Strings.String.length a →
  string_drop n (a +:+ b) = string_drop n a +:+ b.
Proof.
  revert n. induction a as [|c a IH]; intros n Hn; simpl in Hn.
  - by replace n with 0 by lia.
  - destruct n as [|n]; [done|]. rewrite string_app_cons. simpl. apply IH. lia.
Qed.

Lemma basename_app (a b : string) :
  has_sep b = false → basename (a +:+ b) = basename a +:+ b.
Proof.
  intros Hb. unfold basename. rewrite rfind_app by done.
  apply string_drop_app, rfind_le_length.
Qed.

Lemma basename_no_sep (b : string) : has_sep b = false → basename b = b.
Proof. intros Hb. unfold basename. by rewrite rfind_no_sep. Qed.

Lemma rfind_snoc_sep (x : string) :
  rfind_sep_succ (x +:+ "/") = S (Stdlib.Strings.String.length x).
Proof.
  induction x as [|c x IH]; [done|]. rewrite string_app_cons. simpl. by rewrite IH.
Qed.

Lemma string_drop_all (n : nat) (a : string) :
  Stdlib.Strings.String.length a ≤ n → string_drop n a = "".
Proof.
  revert n. induction a as [|c a IH]; intros n Hn; simpl in *.
  - by destruct n.
  - destruct n as [|n]; [lia|]. apply IH. lia.
Qed.

Lemma length_app_sep (x : string) :
  Stdlib.Strings.String.length (x +:+ "/") = S (Stdlib.Strings.String.length x).
Proof. induction x as [|c x IH]; [done|]. rewrite string_app_cons. simpl. by rewrite IH. Qed.

Lemma basename_snoc_sep (x : string) : basename (x +:+ "/") = "".
Proof.
  unfold basename. rewrite rfind_snoc_sep. apply string_drop_all.
  by rewrite length_app_sep.
Qed.

(** A non-empty string is its front and its last character. *)
Lemma string_last (a : string) :
  a ≠ "" →
  ∃ x c, a = x +:+ String c "" ∧
         last (Stdlib.Strings.String.list_ascii_of_string a) = Some c.
Proof.
  induction a as [|c a IH]; [done|]. intros _.
  destruct a as [|c' a'].
  - by exists "", c.
  - destruct IH as (x & c0 & Hx & Hl); [done|].
    exists (String c x), c0. split.
    + by rewrite string_app_cons, <- Hx.
    + simpl in *. exact Hl.
Qed.

(** The last component of a joined path is the part that was joined, when
    that part has no separator in it. *)
Lemma basename_path_join (dir b : string) :
  has_sep b = false → basename (path_join dir b) = b.
Proof.
  intros Hb. unfold path_join.
  destruct (isabs b) eqn:Habs.
  { destruct b as [|c b]; [done|]. simpl in *. by rewrite Habs in Hb. }
  destruct (decide (dir = "")) as [->|Hne]; [by apply basename_no_sep|].
  destruct (string_last dir Hne) as (x & c & -> & Hl). rewrite Hl. simpl.
  change (String sep "") with "/".
  destruct (is_sep c) eqn:Hc.
  - apply Ascii.eqb_eq in Hc as ->. change (String sep "") with "/".
    rewrite basename_app by done. by rewrite (basename_snoc_sep x).
  - rewrite <- string_app_assoc, basename_app by done.
    by rewrite (basename_snoc_sep (x +:+ String c "")).
Qed.

Lemma has_sep_app (a b : string) :
  has_sep (a +:+ b) = has_sep a || has_sep b.
Proof.
  induction a as [|c a IH]; [done|].
  rewrite string_app_cons. simpl. by rewrite IH, orb_assoc.
Qed.

(** [.json] cannot start inside a name and end in the [.json] put after
    it. *)
Lemma prefix_json_app c (n : string) :
  Stdlib.Strings.String.prefix ".json" (String c (n +:+ ".json"))
  = Stdlib.Strings.String.prefix ".json" (String c n).
Proof.
  destruct n as [|c1 [|c2 [|c3 [|c4 n]]]];
    rewrite ?string_app_cons; cbn [Stdlib.Strings.String.prefix];
    repeat match goal with
           | |- context [ascii_dec ?a ?b] =>
               destruct (ascii_dec a b); try discriminate; subst
           end; try done.
  by destruct n.
Qed.

Lemma replace_json_suffix (n : string) :
  contains ".json" n = false → replace ".json" "" (n +:+ ".json") = n.
Proof.
  unfold replace. induction n as [|c n IH]; [done|].
  cbn [contains]. intros [Hp Hc]%orb_false_iff.
  rewrite string_app_cons. cbn [replace_go].
  rewrite prefix_json_app, Hp. by rewrite (IH Hc).
Qed.

Section Names.

Context (ROOT_GROUP : string).

(** X20.  The name round trip between export and commit message: for a
    template whose name has no [/] and no [.json] in it, the commit message
    for the one file the export wrote for it is the verb followed by exactly
    that name; the same holds for the file seen from any directory, as in
    the paths of the status. *)
Theorem commit_line_names_exported_template
    (path : string) (g : group) (t : remote_template) flags verb :
  has_sep (template_name t) = false →
  contains ".json" (template_name t) = false →
  status_str !! flags = Some verb →
  construct_commit_msg [(export_filename ROOT_GROUP path g t, flags)]
  = Ok (verb +:+ template_name t +:+ nl) ∧
  ∀ dir,
    construct_commit_msg [(path_join dir (template_name t +:+ ".json"), flags)]
    = Ok (verb +:+ template_name t +:+ nl).
Proof.
  intros Hsep Hjson Hverb.
  assert (∀ dir,
    construct_commit_msg [(path_join dir (template_name t +:+ ".json"), flags)]
    = Ok (verb +:+ template_name t +:+ nl)) as Hdir.
  { intros dir. unfold construct_commit_msg. cbn [headline rbind change_lines].
    unfold change_line, getitem. simpl. rewrite Hverb.
    cbn [rbind]. rewrite basename_path_join.
    - by rewrite replace_json_suffix.
    - by rewrite has_sep_app, Hsep. }
  split; [apply Hdir|done].
Qed.

End Names.

Lemma commit_line_names_exported_template_linux :
  construct_commit_msg
    [(export_filename "Templates" "/tmp/repository" grp_os tpl_linux,
      GIT_STATUS_INDEX_NEW)]
  = Ok ("Added " +:+ "Template OS Linux" +:+ nl) ∧
  ∀ dir,
    construct_commit_msg
      [(path_join dir ("Template OS Linux" +:+ ".json"), GIT_STATUS_INDEX_NEW)]
    = Ok ("Added " +:+ "Template OS Linux" +:+ nl).
Proof.
  apply (commit_line_names_exported_template "Templates" "/tmp/repository"
           grp_os tpl_linux GIT_STATUS_INDEX_NEW "Added ").
  - vm_compute. reflexivity.
  - vm_compute. reflexivity.
  - vm_compute. reflexivity.
Defined.

(** ** The export run *)

Section Run.

Context (EXPORT_GROUP ROOT_GROUP : string).
Context (configuration_export : string → result export_json).

Local Abbreviation other := (other_group EXPORT_GROUP).
Local Abbreviation filename := (export_filename ROOT_GROUP).
Local Abbreviation groups_run :=
  (export_groups EXPORT_GROUP ROOT_GROUP configuration_export).
Local Abbreviation all_run :=
  (export_all EXPORT_GROUP ROOT_GROUP configuration_export).

Local Abbreviation written :=
  (written EXPORT_GROUP ROOT_GROUP configuration_export).

Lemma export_template_Ok id f wt wt' :
  export_template configuration_export id f wt = Ok wt' →
  ∃ j, configuration_export id = Ok j ∧
       wt' = <[f := {| date := ""; body := body j |}]> wt.
Proof.
  unfold export_template. destruct (configuration_export id) as [j|e]; [|done].
  cbn [rbind]. intros [= <-]. by exists j.
Qed.

Lemma cleared_insert wt f f' b :
  cleared wt f → cleared (<[f' := {| date := ""; body := b |}]> wt) f.
Proof.
  intros (p & Hp & Hd). destruct (decide (f' = f)) as [->|Hne].
  - eexists. by rewrite lookup_insert_eq.
  - exists p. by rewrite lookup_insert_ne.
Qed.

Lemma export_groups_cleared path t gs wt wt' f :
  groups_run path t gs wt = Ok wt' → cleared wt f → cleared wt' f.
Proof.
  revert wt. induction gs as [|g gs IH]; intros wt; cbn [export_groups].
  { by intros [= <-]. }
  destruct (decide (other g)) as [Hg|Hg]; [|by apply IH].
  destruct (export_template _ _ _ wt) as [wt1|e] eqn:H1; [|done].
  cbn [rbind]. intros Hrun Hf. apply (IH wt1 Hrun).
  apply export_template_Ok in H1 as (j & _ & ->). by apply cleared_insert.
Qed.

Lemma export_all_cleared path ts wt wt' f :
  all_run path ts wt = Ok wt' → cleared wt f → cleared wt' f.
Proof.
  revert wt. induction ts as [|t ts IH]; intros wt; cbn [export_all].
  { by intros [= <-]. }
  destruct (export_groups _ _ _ _ t (groups t) wt) as [wt1|e] eqn:H1; [|done].
  cbn [rbind]. intros Hrun Hf. apply (IH wt1 Hrun).
  by apply (export_groups_cleared _ _ _ _ _ _ H1).
Qed.

Lemma export_groups_writes path t gs wt wt' :
  groups_run path t gs wt = Ok wt' →
  ∀ g, g ∈ gs → other g → cleared wt' (filename path g t).
Proof.
  revert wt. induction gs as [|g0 gs IH]; intros wt; cbn [export_groups].
  { intros _ g Hg. by apply elem_of_nil in Hg. }
  intros Hrun g Hg Hog. apply elem_of_cons in Hg as [->|Hg].
  - destruct (decide (other g0)) as [_|Hn]; [|done].
    destruct (export_template _ _ _ wt) as [wt1|e] eqn:H1; [|done].
    cbn [rbind] in Hrun. apply (export_groups_cleared _ _ _ _ _ _ Hrun).
    apply export_template_Ok in H1 as (j & _ & ->).
    eexists. by rewrite lookup_insert_eq.
  - destruct (decide (other g0)) as [_|Hn]; [|by apply (IH wt)].
    destruct (export_template _ _ _ wt) as [wt1|e] eqn:H1; [|done].
    cbn [rbind] in Hrun. by apply (IH wt1).
Qed.

Lemma export_all_writes path ts wt wt' :
  all_run path ts wt = Ok wt' →
  ∀ t g, t ∈ ts → g ∈ groups t → other g → cleared wt' (filename path g t).
Proof.
  revert wt. induction ts as [|t0 ts IH]; intros wt; cbn [export_all].
  { intros _ t g Ht. by apply elem_of_nil in Ht. }
  destruct (export_groups _ _ _ _ t0 (groups t0) wt) as [wt1|e] eqn:H1; [|done].
  cbn [rbind]. intros Hrun t g Ht Hg Hog.
  apply elem_of_cons in Ht as [->|Ht]; [|by apply (IH wt1)].
  apply (export_all_cleared _ _ _ _ _ Hrun).
  by apply (export_groups_writes _ _ _ _ _ H1).
Qed.

Lemma export_groups_frame path t gs wt wt' :
  groups_run path t gs wt = Ok wt' →
  ∀ f p, wt' !! f = Some p →
         wt !! f = Some p ∨ ∃ g, g ∈ gs ∧ written path t g f p.
Proof.
  revert wt. induction gs as [|g0 gs IH]; intros wt; cbn [export_groups].
  { intros [= <-] f p Hp. by left. }
  intros Hrun f p Hp. destruct (decide (other g0)) as [Hog|Hn].
  - destruct (export_template _ _ _ wt) as [wt1|e] eqn:H1; [|done].
    cbn [rbind] in Hrun. destruct (IH wt1 Hrun f p Hp) as [Hold|(g & Hg & Hw)].
    + apply export_template_Ok in H1 as (j & Hj & ->).
      destruct (decide (filename path g0 t = f)) as [<-|Hne].
      * rewrite lookup_insert_eq in Hold. injection Hold as <-.
        right. exists g0. split; [apply list_elem_of_here|].
        split_and!; [done|done|]. by exists j.
      * rewrite lookup_insert_ne in Hold by done. by left.
    + right. exists g. split; [by apply list_elem_of_further|done].
  - destruct (IH wt Hrun f p Hp) as [Hold|(g & Hg & Hw)]; [by left|].
    right. exists g. split; [by apply list_elem_of_further|done].
Qed.

Lemma export_all_frame path ts wt wt' :
  all_run path ts wt = Ok wt' →
  ∀ f p, wt' !! f = Some p →
         wt !! f = Some p ∨
         ∃ t g, t ∈ ts ∧ g ∈ groups t ∧ written path t g f p.
Proof.
  revert wt. induction ts as [|t0 ts IH]; intros wt; cbn [export_all].
  { intros [= <-] f p Hp. by left. }
  destruct (export_groups _ _ _ _ t0 (groups t0) wt) as [wt1|e] eqn:H1; [|done].
  cbn [rbind]. intros Hrun f p Hp.
  destruct (IH wt1 Hrun f p Hp) as [Hold|(t & g & Ht & Hg & Hw)].
  - destruct (export_groups_frame _ _ _ _ _ H1 f p Hold) as [?|(g & Hg & Hw)];
      [by left|].
    right. exists t0, g. split; [apply list_elem_of_here|done].
  - right. exists t, g. split; [by apply list_elem_of_further|done].
Qed.

Lemma export_groups_Raise path t gs wt g e :
  g ∈ gs → other g → configuration_export (templateid t) = Raise e →
  groups_run path t gs wt = Raise e.
Proof.
  intros Hg Hog He. induction gs as [|g0 gs IH]; [by apply elem_of_nil in Hg|].
  cbn [export_groups]. destruct (decide (other g0)) as [_|Hn].
  - unfold export_template. by rewrite He.
  - apply elem_of_cons in Hg as [->|Hg]; [done|by apply IH].
Qed.

Lemma export_groups_skip path t gs wt :
  Forall (λ g, ¬ other g) gs → groups_run path t gs wt = Ok wt.
Proof.
  induction 1 as [|g gs Hg _ IH]; cbn [export_groups]; [done|].
  by destruct (decide (other g)).
Qed.

(** X21.  After a successful run every template has, for each of its groups
    other than the export group, a file at the computed name, with its date
    cleared. *)
Theorem export_writes_every_template path templates wt wt' :
  zabbix_get_and_export_templates EXPORT_GROUP ROOT_GROUP configuration_export
    path templates wt = Ok wt' →
  ∀ t g, t ∈ templates → g ∈ groups t →
         group_name g ≠ EXPORT_GROUP → groupid g ≠ EXPORT_GROUP →
         ∃ p, wt' !! export_filename ROOT_GROUP path g t = Some p ∧
              date p = "".
Proof.
  intros Hrun t g Ht Hg Hname Hid.
  destruct templates as [|t0 ts]; [done|].
  by apply (export_all_writes _ _ _ _ Hrun t g).
Qed.

(** X22.  A successful run touches nothing else: a file in the tree afterwards
    is either as it was before, or it is the export of one of the templates for
    one of its groups other than the export group, with an empty date and the
    body that the remote system answered for that template. *)
Theorem export_touches_only_template_files path templates wt wt' :
  zabbix_get_and_export_templates EXPORT_GROUP ROOT_GROUP configuration_export
    path templates wt = Ok wt' →
  ∀ f p, wt' !! f = Some p →
         wt !! f = Some p ∨
         ∃ t g j, t ∈ templates ∧ g ∈ groups t ∧
                  group_name g ≠ EXPORT_GROUP ∧ groupid g ≠ EXPORT_GROUP ∧
                  f = export_filename ROOT_GROUP path g t ∧
                  configuration_export (templateid t) = Ok j ∧
                  p = {| date := ""; body := body j |}.
Proof.
  intros Hrun f p Hp. destruct templates as [|t0 ts]; [done|].
  destruct (export_all_frame _ _ _ _ Hrun f p Hp)
    as [?|(t & g & Ht & Hg & [Hn Hi] & -> & j & Hj & ->)]; [by left|].
  right. by exists t, g, j.
Qed.

(** X23.  One failed export ends the run: when the remote system fails on the
    export of a template that has a group other than the export group, the run
    raises and returns no tree, whatever the other templates are. *)
Theorem export_failure_ends_run path templates wt t g e :
  t ∈ templates → g ∈ groups t →
  group_name g ≠ EXPORT_GROUP → groupid g ≠ EXPORT_GROUP →
  configuration_export (templateid t) = Raise e →
  ∃ e', zabbix_get_and_export_templates EXPORT_GROUP ROOT_GROUP
          configuration_export path templates wt = Raise e'.
Proof.
  intros Ht Hg Hname Hid He.
  assert (∃ e', all_run path templates wt = Raise e') as Hall.
  { revert wt. induction templates as [|t0 ts IH]; intros wt;
      [by apply elem_of_nil in Ht|].
    cbn [export_all]. apply elem_of_cons in Ht as [<-|Ht].
    - rewrite (export_groups_Raise path t (groups t) wt g e); [|done..].
      by exists e.
    - destruct (export_groups _ _ _ _ t0 (groups t0) wt) as [wt1|e1];
        [|by exists e1].
      cbn [rbind]. by apply IH. }
  destruct templates; [by apply elem_of_nil in Ht|done].
Qed.

End Run.

(** X24.  A template that is in no group but the export group is not exported,
    and nothing tells so: the run succeeds and leaves the tree as it was,
    without one call to the remote system. *)
Theorem export_skips_templates_of_export_group_only
    EXPORT_GROUP ROOT_GROUP configuration_export path templates wt :
  templates ≠ [] →
  (∀ t g, t ∈ templates → g ∈ groups t →
          group_name g = EXPORT_GROUP ∨ groupid g = EXPORT_GROUP) →
  zabbix_get_and_export_templates EXPORT_GROUP ROOT_GROUP configuration_export
    path templates wt = Ok wt.
Proof.
  intros Hne Hall. destruct templates as [|t0 ts]; [done|].
  unfold zabbix_get_and_export_templates. clear Hne.
  induction (t0 :: ts) as [|t ts' IH]; [done|].
  cbn [export_all]. rewrite export_groups_skip.
  - cbn [rbind]. apply IH. intros t' g Ht' Hg.
    apply (Hall t' g); [by apply list_elem_of_further|done].
  - apply Forall_forall. intros g Hg [Hn Hi].
    destruct (Hall t g (list_elem_of_here _ _) Hg); done.
Qed.


Lemma export_writes_every_template_linux :
  ∃ wt', zabbix_get_and_export_templates "Templates/Export" "Templates"
           export_ok "/tmp/repository" [tpl_plain; tpl_linux] ∅ = Ok wt' ∧
         ∃ p, wt' !! export_filename "Templates" "/tmp/repository" grp_os
                       tpl_linux = Some p ∧ date p = "".
Proof.
  destruct (zabbix_get_and_export_templates "Templates/Export" "Templates"
              export_ok "/tmp/repository" [tpl_plain; tpl_linux] ∅)
    as [wt'|e] eqn:Hrun; [|vm_compute in Hrun; discriminate].
  exists wt'. split; [reflexivity|].
  apply (export_writes_every_template "Templates/Export" "Templates" export_ok
           "/tmp/repository" [tpl_plain; tpl_linux] ∅ wt' Hrun tpl_linux grp_os).
  - apply list_elem_of_further, list_elem_of_here.
  - apply list_elem_of_further, list_elem_of_here.
  - vm_compute. discriminate.
  - vm_compute. discriminate.
Defined.

Lemma export_touches_only_template_files_linux :
  let f := export_filename "Templates" "/tmp/repository" grp_os tpl_linux in
  let p := {| date := ""; body := "10001" |} in
  (∅ : tree) !! f = Some p ∨
  ∃ t g j, t ∈ [tpl_plain; tpl_linux] ∧ g ∈ groups t ∧
           group_name g ≠ "Templates/Export" ∧ groupid g ≠ "Templates/Export" ∧
           f = export_filename "Templates" "/tmp/repository" g t ∧
           export_ok (templateid t) = Ok j ∧
           p = {| date := ""; body := body j |}.
Proof.
  intros f p.
  apply (export_touches_only_template_files "Templates/Export" "Templates"
           export_ok "/tmp/repository" [tpl_plain; tpl_linux] ∅ (<[f := p]> ∅)).
  - vm_compute. reflexivity.
  - vm_compute. reflexivity.
Defined.

Lemma export_failure_ends_run_linux :
  ∃ e', zabbix_get_and_export_templates "Templates/Export" "Templates"
          export_fails "/tmp/repository" [tpl_plain; tpl_linux] ∅ = Raise e'.
Proof.
  apply (export_failure_ends_run "Templates/Export" "Templates" export_fails
           "/tmp/repository" [tpl_plain; tpl_linux] ∅ tpl_linux grp_os
           (OtherError "no permissions")).
  - apply list_elem_of_further, list_elem_of_here.
  - apply list_elem_of_further, list_elem_of_here.
  - vm_compute. discriminate.
  - vm_compute. discriminate.
  - vm_compute. reflexivity.
Defined.

Lemma export_skips_templates_of_export_group_only_plain :
  zabbix_get_and_export_templates "Templates/Export" "Templates" export_fails
    "/tmp/repository" [tpl_plain] ∅ = Ok ∅.
Proof.
  apply (export_skips_templates_of_export_group_only "Templates/Export"
           "Templates" export_fails "/tmp/repository" [tpl_plain] ∅).
  - discriminate.
  - intros t g Ht Hg. apply list_elem_of_singleton in Ht as ->.
    apply list_elem_of_singleton in Hg as ->. left. reflexivity.
Defined.

End ExporterProofs.
